(** * gheap: generalized (d-ary, optionally paged) max-heap algorithms

    A shallow embedding of [gheap_cpp11.hpp] (class [gheap<Fanout, PageChunks>])
    and the verification of its specification.

    Conventions of the embedding.
    - [size_t] is a 64-bit unsigned integer, carried by [Z]; every arithmetic
      operation of the source that can wrap is written with [wrap]. The
      proofs use nothing of [SIZE_MAX] but [0 < SIZE_MAX].
    - The embedding follows the optimized build recommended by the header
      ([-DNDEBUG]): [assert]s do not execute. They are recorded in comments
      next to the definitions and appear as hypotheses of the theorems.
      Division by zero, undefined in the source, can only happen when the
      page size [Fanout * PageChunks] wraps to zero; no statement below
      evaluates one.
    - A random-access range [first, last) is a [list]; [first[i]] is a
      checked access: reading or writing outside the range is an error
      ([None]).
    - [std::move] is a copy: the slot moved from keeps a stale value, which
      the algorithms overwrite before they read it again.
    - [while] loops run on fuel; running out of fuel is an error ([None]),
      so every theorem that exhibits a [Some] result is also a termination
      theorem. *)

From Stdlib Require Import ZArith Lia List Bool Permutation Sorted.
From stdpp Require Import base tactics option list numbers.

Open Scope Z_scope.

(** ** Machine integers *)

Definition SIZE_MAX : Z := 18446744073709551615.

Definition wrap (x : Z) : Z := x mod (SIZE_MAX + 1).

(** ** Index mapper *)

(** [static size_t get_parent_index(size_t u)].
    Source asserts: [u > 0]; in the paged branch
    [PageChunks <= SIZE_MAX / Fanout]. *)
Definition get_parent_index (Fanout PageChunks u : Z) : Z :=
  let u := wrap (u - 1) in
  if PageChunks =? 1 then u / Fanout
  else if u <? Fanout then 0
  else
    let page_size := wrap (Fanout * PageChunks) in
    let v := u mod page_size in
    if Fanout <=? v then wrap (wrap (u - v) + v / Fanout)
    else
      let v := wrap (u / page_size - 1) in
      let page_leaves := wrap (wrap (wrap (Fanout - 1) * PageChunks) + 1) in
      let u := wrap (v / page_leaves + 1) in
      wrap (wrap (wrap (wrap (u * page_size) + v mod page_leaves)
                  - page_leaves) + 1).

(** [static size_t get_child_index(size_t u)].
    Source asserts: [u < SIZE_MAX]; in the paged branch
    [PageChunks <= SIZE_MAX / Fanout]. *)
Definition get_child_index (Fanout PageChunks u : Z) : Z :=
  if PageChunks =? 1 then
    if (SIZE_MAX - 1) / Fanout <? u then SIZE_MAX
    else wrap (wrap (u * Fanout) + 1)
  else if u =? 0 then 1
  else
    let page_size := wrap (Fanout * PageChunks) in
    let u := wrap (u - 1) in
    let v := wrap (u mod page_size + 1) in
    if v <? page_size / Fanout then
      let v := wrap (v * wrap (Fanout - 1)) in
      if wrap (wrap (SIZE_MAX - 2) - v) <? u then SIZE_MAX
      else wrap (wrap (u + v) + 2)
    else
      let page_leaves := wrap (wrap (wrap (Fanout - 1) * PageChunks) + 1) in
      let v :=
        wrap (v + wrap (wrap (wrap (u / page_size + 1) * page_leaves)
                        - page_size)) in
      if (SIZE_MAX - 1) / page_size <? v then SIZE_MAX
      else wrap (wrap (v * page_size) + 1).

(** The layout the index arithmetic describes, over unbounded integers:
    the same formulas with no wrap-around and no sentinel. These are the
    "true" parent and first-child indices of a node. *)
Definition parent_ideal (Fanout PageChunks u : Z) : Z :=
  let u := u - 1 in
  if PageChunks =? 1 then u / Fanout
  else if u <? Fanout then 0
  else
    let page_size := Fanout * PageChunks in
    let v := u mod page_size in
    if Fanout <=? v then u - v + v / Fanout
    else
      let v := u / page_size - 1 in
      let page_leaves := (Fanout - 1) * PageChunks + 1 in
      (v / page_leaves + 1) * page_size + v mod page_leaves - page_leaves + 1.

Definition child_ideal (Fanout PageChunks u : Z) : Z :=
  if PageChunks =? 1 then u * Fanout + 1
  else if u =? 0 then 1
  else
    let page_size := Fanout * PageChunks in
    let u := u - 1 in
    let v := u mod page_size + 1 in
    if v <? PageChunks then u + v * (Fanout - 1) + 2
    else
      let page_leaves := (Fanout - 1) * PageChunks + 1 in
      (v + (u / page_size + 1) * page_leaves - page_size) * page_size + 1.

(** A layout the source accepts: [Fanout] and [PageChunks] are [size_t]
    template arguments and the page size [Fanout * PageChunks] fits. *)
Definition valid_layout (Fanout PageChunks : Z) : Prop :=
  2 <= Fanout /\ 1 <= PageChunks /\ Fanout * PageChunks <= SIZE_MAX.


(** ** Comparators *)

(** The ordering predicate supplied by the caller: a strict weak ordering,
    as the standard library requires of [LessComparer]. *)
Class StrictWeakOrder {A : Type} (less : A -> A -> bool) : Prop := {
  swo_irrefl : forall a, less a a = false;
  swo_trans : forall a b c,
    less a b = true -> less b c = true -> less a c = true;
  swo_incomp_trans : forall a b c,
    less a b = false -> less b a = false ->
    less b c = false -> less c b = false ->
    less a c = false /\ less c a = false
}.

(** Two values have equal rank when neither is less than the other. *)
Definition equal_rank {A : Type} (less : A -> A -> bool) (a b : A) : Prop :=
  less a b = false /\ less b a = false.

(** ** Ranges *)

Section Heap.
Context {A : Type}.
Variables Fanout PageChunks : Z.
Variable less_comparer : A -> A -> bool.

(** [first[i]], read. *)
Definition rd (first : list A) (i : Z) : option A :=
  if decide (0 <= i) then first !! Z.to_nat i else None.

(** [first[i] = x]. *)
Definition wr (first : list A) (i : Z) (x : A) : option (list A) :=
  if decide (0 <= i < Z.of_nat (length first))
  then Some (<[Z.to_nat i := x]> first) else None.

(** ** Sift engine *)

(** The loop of [_sift_up]; the source asserts
    [hole_index >= root_index] and [parent_index >= root_index]. *)
Fixpoint _sift_up_loop (fuel : nat) (first : list A)
    (root_index hole_index : Z) (item : A) : option (list A) :=
  if root_index <? hole_index then
    match fuel with
    | O => None
    | S fuel =>
      let parent_index := get_parent_index Fanout PageChunks hole_index in
      parent ← rd first parent_index;
      if negb (less_comparer parent item) then wr first hole_index item
      else
        first ← wr first hole_index parent;
        _sift_up_loop fuel first root_index parent_index item
    end
  else wr first hole_index item.

Definition _sift_up (first : list A) (root_index hole_index : Z) (item : A)
    : option (list A) :=
  _sift_up_loop (Z.to_nat hole_index) first root_index hole_index item.

(** The scan of [_move_up_max_child]: [j] is the offset of the incumbent
    maximum, [max_child] its value. *)
Fixpoint _max_child_loop (fuel : nat) (first : list A)
    (children_count child_index i j : Z) (max_child : A) : option (Z * A) :=
  if i <? children_count then
    match fuel with
    | O => None
    | S fuel =>
      tmp ← rd first (wrap (child_index + i));
      if negb (less_comparer tmp max_child)
      then _max_child_loop fuel first children_count child_index
             (wrap (i + 1)) i tmp
      else _max_child_loop fuel first children_count child_index
             (wrap (i + 1)) j max_child
    end
  else Some (j, max_child).

(** [_move_up_max_child]: returns the range and the index of the new hole.
    The source asserts [child_index == get_child_index(hole_index)]. *)
Definition _move_up_max_child (first : list A)
    (children_count hole_index child_index : Z) : option (list A * Z) :=
  max_child ← rd first child_index;
  '(j, max_child) ← _max_child_loop (Z.to_nat children_count) first
                      children_count child_index 1 0 max_child;
  first ← wr first hole_index max_child;
  Some (first, wrap (child_index + j)).

(** The [while (true)] loop of [_sift_down]: returns the range and the
    terminal hole. *)
Fixpoint _sift_down_loop (fuel : nat) (first : list A)
    (heap_size remaining_items hole_index : Z) : option (list A * Z) :=
  match fuel with
  | O => None
  | S fuel =>
    let child_index := get_child_index Fanout PageChunks hole_index in
    if wrap (heap_size - remaining_items) <=? child_index then
      if child_index <? heap_size
      then _move_up_max_child first remaining_items hole_index child_index
      else Some (first, hole_index)
    else
      '(first, hole_index) ← _move_up_max_child first Fanout hole_index
                               child_index;
      _sift_down_loop fuel first heap_size remaining_items hole_index
  end.

(** [_sift_down]; the source asserts [heap_size > 0] and
    [hole_index < heap_size]. *)
Definition _sift_down (first : list A) (heap_size hole_index : Z) (item : A)
    : option (list A) :=
  let root_index := hole_index in
  let remaining_items := wrap (heap_size - 1) mod Fanout in
  '(first, hole_index) ← _sift_down_loop (Z.to_nat heap_size) first heap_size
                           remaining_items hole_index;
  _sift_up first root_index hole_index item.

(** [_pop_heap]; the source asserts [heap_size > 1]. *)
Definition _pop_heap (first : list A) (heap_size : Z) : option (list A) :=
  let hole_index := wrap (heap_size - 1) in
  item ← rd first hole_index;
  root ← rd first 0;
  first ← wr first hole_index root;
  _sift_down first hole_index 0 item.

(** ** Heap algorithms

    A range is given by its storage [first] and the offset [last] of its
    end ([last - first] in the source); [item] is likewise an offset. *)

Fixpoint is_heap_until_loop (fuel : nat) (first : list A) (heap_size u : Z)
    : option Z :=
  if u <? heap_size then
    match fuel with
    | O => None
    | S fuel =>
      let v := get_parent_index Fanout PageChunks u in
      a ← rd first v;
      b ← rd first u;
      if less_comparer a b then Some u
      else is_heap_until_loop fuel first heap_size (wrap (u + 1))
    end
  else Some heap_size.

Definition is_heap_until (first : list A) (last : Z) : option Z :=
  let heap_size := last in
  is_heap_until_loop (Z.to_nat heap_size) first heap_size 1.

Definition is_heap (first : list A) (last : Z) : option bool :=
  r ← is_heap_until first last; Some (r =? last).

(** The [do ... while (i-- > 0)] loop of [make_heap]. *)
Fixpoint make_heap_loop (fuel : nat) (first : list A) (heap_size i : Z)
    : option (list A) :=
  match fuel with
  | O => None
  | S fuel =>
    item ← rd first i;
    first ← _sift_down first heap_size i item;
    if 0 <? i then make_heap_loop fuel first heap_size (wrap (i - 1))
    else Some first
  end.

Definition make_heap (first : list A) (last : Z) : option (list A) :=
  let heap_size := last in
  if 1 <? heap_size then
    let i := if PageChunks =? 1 then wrap (heap_size - 2) / Fanout
             else wrap (heap_size - 2) in
    make_heap_loop (S (Z.to_nat i)) first heap_size i
  else Some first.

(** [push_heap]; the source asserts [last > first] and
    [is_heap(first, last - 1)]. *)
Definition push_heap (first : list A) (last : Z) : option (list A) :=
  let heap_size := last in
  if 1 <? heap_size then
    let u := wrap (heap_size - 1) in
    item ← rd first u;
    _sift_up first 0 u item
  else Some first.

(** [pop_heap]; the source asserts [last > first] and
    [is_heap(first, last)]. *)
Definition pop_heap (first : list A) (last : Z) : option (list A) :=
  let heap_size := last in
  if 1 <? heap_size then _pop_heap first heap_size else Some first.

Fixpoint sort_heap_loop (fuel : nat) (first : list A) (i : Z)
    : option (list A) :=
  if 1 <? i then
    match fuel with
    | O => None
    | S fuel =>
      first ← _pop_heap first i;
      sort_heap_loop fuel first (wrap (i - 1))
    end
  else Some first.

Definition sort_heap (first : list A) (last : Z) : option (list A) :=
  let heap_size := last in
  sort_heap_loop (Z.to_nat heap_size) first heap_size.

(** [restore_heap_after_item_increase]; the source asserts
    [item >= first] and [is_heap(first, item)]. *)
Definition restore_heap_after_item_increase (first : list A) (item : Z)
    : option (list A) :=
  let hole_index := item in
  if 0 <? hole_index then
    tmp ← rd first item;
    _sift_up first 0 hole_index tmp
  else Some first.

(** [restore_heap_after_item_decrease]; the source asserts
    [last > first], [first <= item < last] and [is_heap(first, item)]. *)
Definition restore_heap_after_item_decrease (first : list A) (item last : Z)
    : option (list A) :=
  let heap_size := last in
  let hole_index := item in
  tmp ← rd first item;
  _sift_down first heap_size hole_index tmp.

(** [remove_from_heap]; the source asserts [last > first],
    [first <= item < last] and [is_heap(first, last)]. *)
Definition remove_from_heap (first : list A) (item last : Z)
    : option (list A) :=
  let new_heap_size := wrap (last - 1) in
  let hole_index := item in
  if hole_index <? new_heap_size then
    tmp ← rd first new_heap_size;
    removed ← rd first item;
    first ← wr first new_heap_size removed;
    tail ← rd first new_heap_size;
    if less_comparer tmp tail
    then _sift_down first new_heap_size hole_index tmp
    else _sift_up first 0 hole_index tmp
  else Some first.

End Heap.

(** ** N-way merge *)

Section Merge.
Context {A : Type}.
Variables Fanout PageChunks : Z.
Variable less_comparer : A -> A -> bool.

(** An input range [std::pair<InputIterator, InputIterator>] is carried by
    the list of the elements between its two iterators: [*(r.first)] is the
    head, [++(r.first)] drops it, [r.first == r.second] is emptiness.

    [_nway_merge_less_comparer::operator()]. The source asserts that both
    ranges are non-empty; an exhausted range has no front element to
    compare, and is ranked here below every live range. *)
Definition _nway_merge_less_comparer (input_range_a input_range_b : list A)
    : bool :=
  match input_range_a, input_range_b with
  | a :: _, b :: _ => less_comparer b a
  | [], _ :: _ => true
  | _, [] => false
  end.

(** The [while (true)] loop of [nway_merge]: returns the input ranges and
    the sequence written through [output]. *)
Fixpoint nway_merge_loop (fuel : nat) (first : list (list A)) (last : Z)
    (output : list A) : option (list (list A) * list A) :=
  match fuel with
  | O => None
  | S fuel =>
    input_range ← rd first 0;
    match input_range with
    | [] => None
    | x :: input_range =>
      let output := output ++ [x] in
      first ← wr first 0 input_range;
      match input_range with
      | [] =>
        let last := wrap (last - 1) in
        if last =? 0 then Some (first, output)
        else
          a ← rd first 0;
          b ← rd first last;
          first ← wr first 0 b;
          first ← wr first last a;
          first ← restore_heap_after_item_decrease Fanout PageChunks
                    _nway_merge_less_comparer first 0 last;
          nway_merge_loop fuel first last output
      | _ :: _ =>
        first ← restore_heap_after_item_decrease Fanout PageChunks
                  _nway_merge_less_comparer first 0 last;
        nway_merge_loop fuel first last output
      end
    end
  end.

(** [nway_merge]; the source asserts
    [input_ranges_first < input_ranges_last]. One element is written per
    iteration, so the total number of input elements bounds the loop. *)
Definition nway_merge (input_ranges : list (list A)) (input_ranges_last : Z)
    : option (list (list A) * list A) :=
  let last := input_ranges_last in
  first ← make_heap Fanout PageChunks _nway_merge_less_comparer
            input_ranges last;
  nway_merge_loop (length (concat input_ranges)) first last [].

End Merge.

(** ** Scenarios of the specification *)

Section Scenarios.
Context {A : Type}.
Variables Fanout PageChunks : Z.
Variable less_comparer : A -> A -> bool.

(** Emptying a heap: [step first i] is applied to the shrinking ranges
    [first, first + i) for [i = last, last - 1, ..., 1]. *)
Fixpoint drain (step : list A -> Z -> option (list A)) (fuel : nat)
    (first : list A) (i : Z) : option (list A) :=
  if 0 <? i then
    match fuel with
    | O => None
    | S fuel => first ← step first i; drain step fuel first (i - 1)
    end
  else Some first.

(** Removing all elements one at a time, always from index 0. *)
Definition remove_all (first : list A) (last : Z) : option (list A) :=
  drain (fun first i =>
           remove_from_heap Fanout PageChunks less_comparer first 0 i)
        (Z.to_nat last) first last.

(** Repeated [pop_heap]. *)
Definition pop_all (first : list A) (last : Z) : option (list A) :=
  drain (pop_heap Fanout PageChunks less_comparer) (Z.to_nat last) first last.

(** [remove_from_heap] with the direction of the sift chosen as the
    specification words it: sift down when the temporary ranks higher than
    the value now at the tail slot. *)
Definition remove_from_heap_as_specified (first : list A) (item last : Z)
    : option (list A) :=
  let new_heap_size := wrap (last - 1) in
  let hole_index := item in
  if hole_index <? new_heap_size then
    tmp ← rd first new_heap_size;
    removed ← rd first item;
    first ← wr first new_heap_size removed;
    tail ← rd first new_heap_size;
    if less_comparer tail tmp
    then _sift_down Fanout PageChunks less_comparer first new_heap_size
           hole_index tmp
    else _sift_up Fanout PageChunks less_comparer first 0 hole_index tmp
  else Some first.

End Scenarios.

(** A comparator with distinguishable values of equal rank: pairs ordered by
    their first component only. *)
Definition less_by_key (a b : Z * Z) : bool := fst a <? fst b.

(** A layout whose page size [Fanout * PageChunks] does not fit [size_t]:
    [3 * overflowing_page_chunks = 2^64 + 5]. *)
Definition overflowing_page_chunks : Z := 6148914691236517207.

(** ** Specification vocabulary *)

Section Vocabulary.
Context {A : Type}.
Variables Fanout PageChunks : Z.
Variable less : A -> A -> bool.

(** Total read, for stating properties of in-range positions. *)
Definition get (d : A) (first : list A) (u : Z) : A := default d (rd first u).

(** The range with [x] stored at position [u]. *)
Definition fill (first : list A) (u : Z) (x : A) : list A :=
  <[Z.to_nat u := x]> first.

(** The max-heap property of [first[0 .. n)], restricted to the nodes whose
    parent index is at least [r]: no such node outranks its parent. *)
Definition heap_from (d : A) (first : list A) (n r : Z) : Prop :=
  forall u, 1 <= u < n -> r <= get_parent_index Fanout PageChunks u ->
    less (get d first (get_parent_index Fanout PageChunks u)) (get d first u)
    = false.

(** [u] lies in the subtree rooted at [r]. *)
Inductive anc (r : Z) : Z -> Prop :=
  | anc_refl : anc r r
  | anc_step u :
      1 <= u <= SIZE_MAX -> anc r (get_parent_index Fanout PageChunks u) ->
      anc r u.

(** Ascending order under [less]: no later element is less than an earlier
    one. *)
Definition ascending (l : list A) : Prop :=
  StronglySorted (fun x y => less y x = false) l.

End Vocabulary.

(** How many elements of [l] rank strictly below [x]. *)
Fixpoint count_below {A : Type} (less : A -> A -> bool) (x : A) (l : list A)
    : nat :=
  match l with
  | [] => 0
  | y :: l => (if less y x then 1 else 0) + count_below less x l
  end.

(** ** The overloads on [operator<] *)

(** [operator<] of the value type. *)
Class OperatorLess (A : Type) := operator_less : A -> A -> bool.

(** [_std_less_comparer]: [return (a < b);]. *)
Definition _std_less_comparer {A : Type} `{OperatorLess A} (a b : A) : bool :=
  operator_less a b.

(** [operator<] of the integers. *)
#[global] Instance Z_operator_less : OperatorLess Z := Z.ltb.

(** Every public function has an overload without a comparator, which
    passes [_std_less_comparer] to the overload with one. *)
Module Default.
Section Default.
Context {A : Type} `{OperatorLess A}.
Variables Fanout PageChunks : Z.

Definition is_heap_until (first : list A) (last : Z) : option Z :=
  is_heap_until Fanout PageChunks _std_less_comparer first last.

Definition is_heap (first : list A) (last : Z) : option bool :=
  is_heap Fanout PageChunks _std_less_comparer first last.

Definition make_heap (first : list A) (last : Z) : option (list A) :=
  make_heap Fanout PageChunks _std_less_comparer first last.

Definition push_heap (first : list A) (last : Z) : option (list A) :=
  push_heap Fanout PageChunks _std_less_comparer first last.

Definition pop_heap (first : list A) (last : Z) : option (list A) :=
  pop_heap Fanout PageChunks _std_less_comparer first last.

Definition sort_heap (first : list A) (last : Z) : option (list A) :=
  sort_heap Fanout PageChunks _std_less_comparer first last.

Definition restore_heap_after_item_increase (first : list A) (item : Z)
    : option (list A) :=
  restore_heap_after_item_increase Fanout PageChunks _std_less_comparer
    first item.

Definition restore_heap_after_item_decrease (first : list A) (item last : Z)
    : option (list A) :=
  restore_heap_after_item_decrease Fanout PageChunks _std_less_comparer
    first item last.

Definition remove_from_heap (first : list A) (item last : Z)
    : option (list A) :=
  remove_from_heap Fanout PageChunks _std_less_comparer first item last.

Definition nway_merge (input_ranges : list (list A)) (input_ranges_last : Z)
    : option (list (list A) * list A) :=
  nway_merge Fanout PageChunks _std_less_comparer input_ranges
    input_ranges_last.

End Default.
End Default.

(** ** Pages *)

(** The page of node [u >= 1] in a layout with pages of
    [Fanout * PageChunks] nodes; the root is on no page. *)
Definition page_of (Fanout PageChunks u : Z) : Z :=
  (u - 1) / (Fanout * PageChunks).

(** * Index mapper: the layout *)
Lemma divmod_spec a b : 0 <= a -> 0 < b ->
  a = b * (a / b) + a mod b /\ 0 <= a / b /\ 0 <= a mod b < b.
Proof.
  intros Ha Hb. split; [apply Z.div_mod; lia|].
  split; [apply Z.div_pos; lia | apply Z.mod_pos_bound; lia].
Qed.

Lemma divmod_unique a b q r : 0 <= r < b -> a = b * q + r ->
  a / b = q /\ a mod b = r.
Proof.
  intros Hr Ha. split; symmetry.
  - apply (Z.div_unique a b q r); auto.
  - apply (Z.mod_unique a b q r); auto.
Qed.

Section Ideal.
Variables Fanout PageChunks : Z.
Hypothesis HF : 2 <= Fanout.
Hypothesis HP : 1 <= PageChunks.

Local Abbreviation parent := (parent_ideal Fanout PageChunks).
Local Abbreviation child := (child_ideal Fanout PageChunks).


Lemma page_size_pos : 0 < Fanout * PageChunks.
Proof. apply Z.mul_pos_pos; lia. Qed.

Lemma page_leaves_eq :
  Fanout * PageChunks = ((Fanout - 1) * PageChunks + 1) + (PageChunks - 1).
Proof. ring. Qed.

Lemma page_leaves_pos : 1 <= (Fanout - 1) * PageChunks + 1.
Proof. assert (0 <= (Fanout - 1) * PageChunks) by (apply Z.mul_nonneg_nonneg; lia). lia. Qed.

Lemma page_size_ge : PageChunks <> 1 -> 2 * Fanout <= Fanout * PageChunks.
Proof. intros. rewrite (Z.mul_comm 2). apply Z.mul_le_mono_nonneg_l; lia. Qed.

Lemma parent_ideal_lt u : 1 <= u -> 0 <= parent u < u.
Proof.
  intros Hu. unfold parent_ideal.
  destruct (Z.eqb_spec PageChunks 1) as [->|Hne].
  - destruct (divmod_spec (u - 1) Fanout) as (E & Hq & Hr); [lia..|].
    nia.
  - assert (Hps : Fanout * PageChunks = Fanout + Fanout * (PageChunks - 1)) by ring.
    assert (0 < Fanout * (PageChunks - 1)) by nia.
    destruct (Z.ltb_spec (u - 1) Fanout); [lia|].
    destruct (divmod_spec (u - 1) (Fanout * PageChunks)) as (E & Hq & Hr); [lia..|].
    set (ps := Fanout * PageChunks) in *.
    set (q := (u - 1) / ps) in *. set (r := (u - 1) mod ps) in *.
    destruct (Z.leb_spec Fanout r).
    + destruct (divmod_spec r Fanout) as (E' & Hq' & Hr'); [lia..|]. nia.
    + assert (1 <= q) by nia.
      set (pl := (Fanout - 1) * PageChunks + 1).
      assert (Hpl : ps = pl + (PageChunks - 1)) by (unfold ps, pl; ring).
      assert (1 <= pl) by (unfold pl; nia).
      destruct (divmod_spec (q - 1) pl) as (E' & Hq' & Hr'); [lia..|].
      set (a := (q - 1) / pl) in *. set (b := (q - 1) mod pl) in *.
      assert (a <= q - 1) by nia.
      assert (0 <= a * ps) by nia.
      assert (a * ps <= (q - 1) * ps) by nia.
      nia.
Qed.

Lemma child_ideal_group u : 0 <= u ->
  exists m, 0 <= m /\ child u = m * Fanout + 1.
Proof.
  intros Hu. unfold child_ideal.
  destruct (Z.eqb_spec PageChunks 1) as [->|Hne]; [exists u; lia|].
  destruct (Z.eqb_spec u 0) as [->|Hu0]; [exists 0; lia|].
  pose proof page_size_pos as Hps. pose proof page_leaves_eq as Hpl.
  pose proof page_leaves_pos as Hpl1.
  destruct (divmod_spec (u - 1) (Fanout * PageChunks)) as (E & Hq & Hr); [lia..|].
  set (ps := Fanout * PageChunks) in *.
  set (pl := (Fanout - 1) * PageChunks + 1) in *.
  set (q := (u - 1) / ps) in *. set (r := (u - 1) mod ps) in *.
  destruct (Z.ltb_spec (r + 1) PageChunks).
  - exists (PageChunks * q + r + 1). split; [nia|]. unfold ps in *. nia.
  - exists ((r + 1 + (q + 1) * pl - ps) * PageChunks).
    split; [|unfold ps; ring].
    assert (0 <= q * pl) by nia.
    apply Z.mul_nonneg_nonneg; lia.
Qed.

Lemma parent_child_ideal u k :
  0 <= u -> 0 <= k < Fanout -> parent (child u + k) = u.
Proof.
  intros Hu Hk. unfold child_ideal, parent_ideal.
  pose proof page_size_pos as Hps. pose proof page_leaves_eq as Hpl.
  pose proof page_leaves_pos as Hpl1.
  destruct (Z.eqb_spec PageChunks 1) as [->|Hne].
  - replace (u * Fanout + 1 + k - 1) with (Fanout * u + k) by ring.
    apply (divmod_unique _ _ u k); [lia|ring].
  - pose proof (page_size_ge Hne) as Hps2.
    destruct (Z.eqb_spec u 0) as [->|Hu0].
    { destruct (Z.ltb_spec (1 + k - 1) Fanout); [done|lia]. }
    destruct (divmod_spec (u - 1) (Fanout * PageChunks)) as (E & Hq & Hr); [lia..|].
    set (ps := Fanout * PageChunks) in *.
    set (pl := (Fanout - 1) * PageChunks + 1) in *.
    set (q := (u - 1) / ps) in *. set (r := (u - 1) mod ps) in *.
    destruct (Z.ltb_spec (r + 1) PageChunks) as [Hfast|Hslow].
    + (* the child stays on the parent's page *)
      set (X := (r + 1) * Fanout + k).
      assert (HX : Fanout <= X < ps) by (unfold X, ps; nia).
      assert (Ec : u - 1 + (r + 1) * (Fanout - 1) + 2 + k - 1 = ps * q + X)
        by (unfold X; lia).
      rewrite Ec.
      assert (0 <= ps * q) by nia.
      destruct (Z.ltb_spec (ps * q + X) Fanout); [lia|].
      destruct (divmod_unique (ps * q + X) ps q X) as [_ ->]; [lia|ring|].
      destruct (Z.leb_spec Fanout X); [|lia].
      destruct (divmod_unique X Fanout (r + 1) k) as [-> _]; [lia|unfold X; ring|].
      lia.
    + (* the child opens a new page *)
      set (V := r + 1 + (q + 1) * pl - ps).
      assert (0 <= q * pl) by nia.
      assert (HV : V = q * pl + (r + 1 - PageChunks) + 1) by (unfold V; lia).
      assert (1 <= V) by lia.
      assert (ps <= V * ps) by nia.
      replace (V * ps + 1 + k - 1) with (ps * V + k) by ring.
      destruct (Z.ltb_spec (ps * V + k) Fanout); [lia|].
      destruct (divmod_unique (ps * V + k) ps V k) as [-> ->]; [lia|ring|].
      destruct (Z.leb_spec Fanout k); [lia|].
      destruct (divmod_unique (V - 1) pl q (r + 1 - PageChunks)) as [-> ->];
        [lia|lia|].
      lia.
Qed.

Lemma child_parent_ideal w :
  1 <= w -> child (parent w) <= w < child (parent w) + Fanout.
Proof.
  intros Hw. unfold child_ideal, parent_ideal.
  pose proof page_size_pos as Hps. pose proof page_leaves_eq as Hpl.
  pose proof page_leaves_pos as Hpl1.
  destruct (Z.eqb_spec PageChunks 1) as [->|Hne].
  - destruct (divmod_spec (w - 1) Fanout) as (E & Hq & Hr); [lia..|]. lia.
  - pose proof (page_size_ge Hne) as Hps2.
    destruct (Z.ltb_spec (w - 1) Fanout) as [|Hge]; [simpl; lia|].
    destruct (divmod_spec (w - 1) (Fanout * PageChunks)) as (E & Hq & Hr); [lia..|].
    set (ps := Fanout * PageChunks) in *.
    set (pl := (Fanout - 1) * PageChunks + 1) in *.
    set (q := (w - 1) / ps) in *. set (r := (w - 1) mod ps) in *.
    assert (0 <= ps * q) by nia.
    destruct (Z.leb_spec Fanout r) as [Hfast|Hslow].
    + (* the parent is on the same page *)
      destruct (divmod_spec r Fanout) as (E' & Hq' & Hr'); [lia..|].
      set (a := r / Fanout) in *. set (b := r mod Fanout) in *.
      assert (1 <= a < PageChunks) by (unfold ps in *; nia).
      destruct (Z.eqb_spec (w - 1 - r + a) 0); [lia|].
      destruct (divmod_unique (w - 1 - r + a - 1) ps q (a - 1)) as [-> ->];
        [lia|lia|].
      destruct (Z.ltb_spec (a - 1 + 1) PageChunks); [|lia].
      nia.
    + (* the parent is a leaf of an earlier page *)
      assert (1 <= q) by nia.
      destruct (divmod_spec (q - 1) pl) as (E' & Hq' & Hr'); [lia..|].
      set (a := (q - 1) / pl) in *. set (b := (q - 1) mod pl) in *.
      assert (0 <= a * ps) by nia.
      assert (Ep : (a + 1) * ps + b - pl + 1 = ps * a + (PageChunks + b)) by lia.
      rewrite Ep.
      destruct (Z.eqb_spec (ps * a + (PageChunks + b)) 0); [lia|].
      destruct (divmod_unique (ps * a + (PageChunks + b) - 1) ps a (PageChunks + b - 1))
        as [-> ->]; [lia|lia|].
      destruct (Z.ltb_spec (PageChunks + b - 1 + 1) PageChunks); [lia|].
      replace (PageChunks + b - 1 + 1 + (a + 1) * pl - ps) with q by lia.
      lia.
Qed.


End Ideal.

Lemma SIZE_MAX_pos : 0 < SIZE_MAX.
Proof. reflexivity. Qed.

Lemma wrap_small x : 0 <= x <= SIZE_MAX -> wrap x = x.
Proof. intros. apply Z.mod_small. lia. Qed.

Lemma wrap_add_l a b : wrap (wrap a + b) = wrap (a + b).
Proof. apply Z.add_mod_idemp_l. pose proof SIZE_MAX_pos. lia. Qed.
Lemma wrap_add_r a b : wrap (a + wrap b) = wrap (a + b).
Proof. apply Z.add_mod_idemp_r. pose proof SIZE_MAX_pos. lia. Qed.
Lemma wrap_sub_l a b : wrap (wrap a - b) = wrap (a - b).
Proof. apply Zminus_mod_idemp_l. Qed.
Lemma wrap_sub_r a b : wrap (a - wrap b) = wrap (a - b).
Proof. apply Zminus_mod_idemp_r. Qed.
Lemma wrap_mul_l a b : wrap (wrap a * b) = wrap (a * b).
Proof. apply Z.mul_mod_idemp_l. pose proof SIZE_MAX_pos. lia. Qed.
Lemma wrap_mul_r a b : wrap (a * wrap b) = wrap (a * b).
Proof. apply Z.mul_mod_idemp_r. pose proof SIZE_MAX_pos. lia. Qed.


Ltac wrap_norm :=
  rewrite_strat (bottomup (choice wrap_add_l (choice wrap_add_r
    (choice wrap_sub_l (choice wrap_sub_r (choice wrap_mul_l wrap_mul_r)))))).

Section Machine.
Variables Fanout PageChunks : Z.
Hypothesis Hlayout : valid_layout Fanout PageChunks.

Lemma get_parent_index_ideal u :
  1 <= u <= SIZE_MAX ->
  get_parent_index Fanout PageChunks u = parent_ideal Fanout PageChunks u.
Proof.
  destruct Hlayout as (HF & HP & HM). intros Hu.
  pose proof (parent_ideal_lt Fanout PageChunks HF HP u (proj1 Hu)) as B.
  pose proof (page_size_pos Fanout PageChunks HF HP) as Hps.
  pose proof (page_leaves_eq Fanout PageChunks) as Hpl.
  pose proof (page_leaves_pos Fanout PageChunks HF HP) as Hpl1.
  unfold get_parent_index, parent_ideal in *.
  rewrite (wrap_small (u - 1)) by lia.
  destruct (Z.eqb_spec PageChunks 1) as [|Hne]; [done|].
  destruct (Z.ltb_spec (u - 1) Fanout); [done|].
  rewrite (wrap_small (Fanout * PageChunks)) by lia.
  destruct (divmod_spec (u - 1) (Fanout * PageChunks)) as (E & Hq & Hr); [lia..|].
  set (ps := Fanout * PageChunks) in *.
  set (pl := (Fanout - 1) * PageChunks + 1) in *.
  set (q := (u - 1) / ps) in *. set (r := (u - 1) mod ps) in *.
  assert (0 <= ps * q) by nia.
  destruct (Z.leb_spec Fanout r).
  - wrap_norm. apply wrap_small. lia.
  - assert (1 <= q) by nia.
    assert (q <= ps * q) by nia.
    rewrite (wrap_small (q - 1)) by lia.
    assert (Epl : wrap (wrap (wrap (Fanout - 1) * PageChunks) + 1) = pl).
    { wrap_norm. apply wrap_small. lia. }
    rewrite Epl. wrap_norm.
    apply wrap_small. lia.
Qed.

Lemma get_child_index_ideal u :
  0 <= u <= SIZE_MAX ->
  get_child_index Fanout PageChunks u
  = Z.min (child_ideal Fanout PageChunks u) SIZE_MAX.
Proof.
  destruct Hlayout as (HF & HP & HM). intros Hu.
  pose proof (page_size_pos Fanout PageChunks HF HP) as Hps.
  pose proof (page_leaves_eq Fanout PageChunks) as Hpl.
  pose proof (page_leaves_pos Fanout PageChunks HF HP) as Hpl1.
  pose proof SIZE_MAX_pos as HS.
  unfold get_child_index, child_ideal.
  destruct (Z.eqb_spec PageChunks 1) as [->|Hne].
  - destruct (divmod_spec (SIZE_MAX - 1) Fanout) as (E & Hq & Hr); [lia..|].
    destruct (Z.ltb_spec ((SIZE_MAX - 1) / Fanout) u).
    + nia.
    + wrap_norm. rewrite wrap_small; nia.
  - destruct (Z.eqb_spec u 0); [lia|].
    pose proof (page_size_ge Fanout PageChunks HF HP Hne) as Hps2.
    rewrite (wrap_small (Fanout * PageChunks)) by lia.
    rewrite (wrap_small (u - 1)) by lia.
    replace (Fanout * PageChunks / Fanout) with PageChunks
      by (symmetry; rewrite Z.mul_comm; apply Z.div_mul; lia).
    destruct (divmod_spec (u - 1) (Fanout * PageChunks)) as (E & Hq & Hr); [lia..|].
    set (ps := Fanout * PageChunks) in *.
    set (pl := (Fanout - 1) * PageChunks + 1) in *.
    set (q := (u - 1) / ps) in *. set (r := (u - 1) mod ps) in *.
    assert (0 <= ps * q) by nia.
    rewrite (wrap_small (r + 1)) by lia.
    destruct (Z.ltb_spec (r + 1) PageChunks).
    + wrap_norm.
      assert (0 <= (r + 1) * (Fanout - 1) <= ps - PageChunks - Fanout + 1)
        by (unfold ps; nia).
      rewrite (wrap_small (SIZE_MAX - 2 - _)) by lia.
      destruct (Z.ltb_spec (SIZE_MAX - 2 - (r + 1) * (Fanout - 1)) (u - 1)).
      * lia.
      * rewrite wrap_small; lia.
    + assert (Epl : wrap (wrap (wrap (Fanout - 1) * PageChunks) + 1) = pl).
      { wrap_norm. apply wrap_small. lia. }
      rewrite Epl. wrap_norm.
      replace (r + 1 + ((q + 1) * pl + - ps)) with (r + 1 + (q + 1) * pl - ps)
        by ring.
      set (V := r + 1 + (q + 1) * pl - ps).
      assert (0 <= q * pl <= ps * q) by nia.
      assert (HV : 1 <= V <= u) by (unfold V; lia).
      rewrite (wrap_small V) by lia.
      destruct (divmod_spec (SIZE_MAX - 1) ps) as (E' & Hq' & Hr'); [lia..|].
      destruct (Z.ltb_spec ((SIZE_MAX - 1) / ps) V).
      * nia.
      * rewrite wrap_small; nia.
Qed.

End Machine.

(** * Strict weak orders *)

Section Order.
Context {A : Type} (less : A -> A -> bool) `{!StrictWeakOrder less}.

Lemma less_asym a b : less a b = true -> less b a = false.
Proof.
  intros Hab. destruct (less b a) eqn:Hba; [|done].
  rewrite <- (swo_irrefl a). symmetry. eapply swo_trans; eauto.
Qed.

Lemma less_neg_trans a b c :
  less a b = false -> less b c = false -> less a c = false.
Proof.
  intros Hab Hbc. destruct (less a c) eqn:Hac; [|done].
  destruct (less b a) eqn:Hba.
  { rewrite <- Hbc. symmetry. eapply swo_trans; eauto. }
  destruct (less c b) eqn:Hcb.
  { rewrite <- Hab. symmetry. eapply swo_trans; eauto. }
  destruct (swo_incomp_trans a b c) as [E _]; auto. congruence.
Qed.

End Order.

(** * Ranges *)

Section Array.
Context {A : Type}.
Implicit Types (l : list A) (u v : Z) (x : A) (d : A).

Lemma rd_get d l u :
  0 <= u < Z.of_nat (length l) -> rd l u = Some (get d l u).
Proof.
  intros Hu. unfold get, rd. destruct (decide (0 <= u)); [|lia].
  destruct (lookup_lt_is_Some_2 l (Z.to_nat u)) as [x ->]; [lia|done].
Qed.

Lemma wr_fill l u x :
  0 <= u < Z.of_nat (length l) -> wr l u x = Some (fill l u x).
Proof. intros Hu. unfold wr. by rewrite decide_True. Qed.

Lemma length_fill l u x : length (fill l u x) = length l.
Proof. apply length_insert. Qed.

Lemma get_fill_eq d l u x :
  0 <= u < Z.of_nat (length l) -> get d (fill l u x) u = x.
Proof.
  intros Hu. unfold get, rd, fill. rewrite decide_True by lia.
  rewrite list_lookup_insert_eq by lia. done.
Qed.

Lemma get_fill_ne d l u v x : 0 <= u -> 0 <= v -> u <> v ->
  get d (fill l u x) v = get d l v.
Proof.
  intros Hu Hv Huv. unfold get, rd, fill. rewrite !decide_True by lia.
  rewrite list_lookup_insert_ne by lia. done.
Qed.

Lemma get_fill d l u v x :
  0 <= u < Z.of_nat (length l) -> 0 <= v ->
  get d (fill l u x) v = if decide (v = u) then x else get d l v.
Proof.
  intros Hu Hv. case_decide as E.
  - subst. by apply get_fill_eq.
  - apply get_fill_ne; lia.
Qed.

Lemma fill_get_id d l u :
  0 <= u < Z.of_nat (length l) -> fill l u (get d l u) = l.
Proof.
  intros Hu. unfold fill. apply list_insert_id.
  pose proof (rd_get d l u Hu) as E. unfold rd in E.
  by rewrite decide_True in E by lia.
Qed.

Lemma fill_swap_perm d l g p x :
  0 <= g < Z.of_nat (length l) -> 0 <= p < Z.of_nat (length l) -> g <> p ->
  fill (fill l g (get d l p)) p x ≡ₚ fill l g x.
Proof.
  intros Hg Hp Hgp. unfold fill.
  set (l2 := <[Z.to_nat g := x]> l).
  assert (E1 : l2 !! Z.to_nat g = Some x)
    by (unfold l2; apply list_lookup_insert_eq; lia).
  assert (E2 : l2 !! Z.to_nat p = Some (get d l p)).
  { unfold l2. rewrite list_lookup_insert_ne by lia.
    pose proof (rd_get d l p Hp) as E. unfold rd in E.
    by rewrite decide_True in E by lia. }
  rewrite <- (Permutation_insert_swap l2 _ _ _ _ E1 E2).
  unfold l2. rewrite list_insert_insert_eq.
  rewrite list_insert_insert_ne by lia. done.
Qed.

Lemma get_elem_of d l u : 0 <= u < Z.of_nat (length l) -> get d l u ∈ l.
Proof.
  intros Hu. pose proof (rd_get d l u Hu) as E. unfold rd in E.
  rewrite decide_True in E by lia. eapply list_elem_of_lookup_2; eauto.
Qed.

End Array.

(** * Index mapper on machine integers *)

Section IndexFacts.
Variables Fanout PageChunks : Z.
Hypothesis Hlayout : valid_layout Fanout PageChunks.

Local Abbreviation P := (get_parent_index Fanout PageChunks).
Local Abbreviation C := (get_child_index Fanout PageChunks).

Lemma layout_fanout : 2 <= Fanout.
Proof. apply Hlayout. Qed.

Lemma parent_lt u : 1 <= u <= SIZE_MAX -> 0 <= P u < u.
Proof.
  intros Hu. rewrite (get_parent_index_ideal _ _ Hlayout) by done.
  pose proof Hlayout as (? & ? & ?). apply parent_ideal_lt; lia.
Qed.

Lemma child_min u :
  0 <= u <= SIZE_MAX ->
  exists m, 0 <= m /\ child_ideal Fanout PageChunks u = m * Fanout + 1 /\
    C u = Z.min (m * Fanout + 1) SIZE_MAX.
Proof.
  intros Hu. pose proof Hlayout as (HF & HP & HM).
  destruct (child_ideal_group Fanout PageChunks HF HP u) as (m & Hm & E); [lia|].
  exists m. rewrite get_child_index_ideal, E by done. done.
Qed.

Lemma parent_child u k :
  0 <= u <= SIZE_MAX -> 0 <= k < Fanout -> C u + k < SIZE_MAX ->
  P (C u + k) = u.
Proof.
  intros Hu Hk Hc. pose proof Hlayout as (HF & HP & HM).
  destruct (child_min u Hu) as (m & Hm & E & EC).
  assert (0 <= m * Fanout) by nia. pose proof SIZE_MAX_pos.
  assert (EC' : C u = child_ideal Fanout PageChunks u) by lia.
  rewrite (get_parent_index_ideal _ _ Hlayout) by lia.
  rewrite EC'. apply parent_child_ideal; lia.
Qed.

Lemma child_gt u : 0 <= u < SIZE_MAX -> u < C u.
Proof.
  intros Hu. pose proof Hlayout as (HF & HP & HM).
  destruct (child_min u) as (m & Hm & E & EC); [lia|].
  assert (0 <= m * Fanout) by nia.
  destruct (Z_lt_ge_dec (C u) SIZE_MAX) as [Hlt|Hge]; [|lia].
  pose proof (parent_child u 0) as Hpc.
  rewrite Z.add_0_r in Hpc. specialize (Hpc ltac:(lia) ltac:(lia) Hlt).
  pose proof (parent_lt (C u)) as Hp. rewrite Hpc in Hp. lia.
Qed.

Lemma child_parent w :
  1 <= w < SIZE_MAX -> C (P w) <= w < C (P w) + Fanout.
Proof.
  intros Hw. pose proof Hlayout as (HF & HP & HM).
  pose proof (parent_lt w ltac:(lia)) as Hp.
  rewrite (get_child_index_ideal _ _ Hlayout) by lia.
  rewrite (get_parent_index_ideal _ _ Hlayout) in * by lia.
  pose proof (child_parent_ideal Fanout PageChunks HF HP w ltac:(lia)).
  lia.
Qed.

(** The nodes of [1 .. n) whose parent is [g] are exactly the child group
    of [g]. *)
Lemma parent_iff n g u :
  n <= SIZE_MAX -> 0 <= g < n -> 1 <= u < n ->
  P u = g <-> C g <= u < C g + Fanout.
Proof.
  intros Hn Hg Hu. split.
  - intros <-. apply child_parent. lia.
  - intros Hc. replace u with (C g + (u - C g)) by lia.
    apply parent_child; lia.
Qed.

(** Child groups are aligned: they start at indices [1 + k * Fanout]. *)
Lemma child_aligned u :
  0 <= u <= SIZE_MAX -> C u < SIZE_MAX ->
  exists m, 0 <= m /\ C u = m * Fanout + 1.
Proof.
  intros Hu Hc. destruct (child_min u Hu) as (m & Hm & E & EC).
  exists m. split; [done|]. lia.
Qed.

End IndexFacts.

(** * Sift engine *)

Section Sift.
Context {A : Type}.
Variables Fanout PageChunks : Z.
Variable less : A -> A -> bool.
Hypothesis Hlayout : valid_layout Fanout PageChunks.
Variable d : A.

Local Abbreviation P := (get_parent_index Fanout PageChunks).
Local Abbreviation C := (get_child_index Fanout PageChunks).
Local Abbreviation anc := (anc Fanout PageChunks).
Local Abbreviation heap_from := (heap_from Fanout PageChunks less d).
Local Abbreviation get := (get d).

Implicit Types (l : list A) (u g r m : Z) (x item : A).

Lemma anc_le r u : 0 <= r -> anc r u -> r <= u.
Proof.
  intros Hr. induction 1 as [|u Hu _ IH]; [lia|].
  pose proof (parent_lt _ _ Hlayout u Hu). lia.
Qed.

Lemma anc_inv r u : anc r u -> u <> r -> 1 <= u <= SIZE_MAX /\ anc r (P u).
Proof. destruct 1; [done|auto]. Qed.

Lemma anc_parent_ge r u : 0 <= r -> anc r u -> u <> r -> r <= P u.
Proof.
  intros Hr Ha Hne. destruct (anc_inv r u Ha Hne) as [_ Hp].
  by apply anc_le.
Qed.

Lemma anc_zero u : 0 <= u <= SIZE_MAX -> anc 0 u.
Proof.
  intros Hu. remember (Z.to_nat u) as n eqn:En.
  revert u Hu En. induction (lt_wf n) as [n _ IH]. intros u Hu ->.
  destruct (decide (u = 0)) as [->|Hne]; [constructor|].
  pose proof (parent_lt _ _ Hlayout u ltac:(lia)).
  apply anc_step; [lia|]. eapply IH; [|lia|reflexivity]. lia.
Qed.

Lemma anc_child r u k :
  anc r u -> 0 <= u <= SIZE_MAX -> 0 <= k < Fanout -> C u + k < SIZE_MAX ->
  anc r (C u + k).
Proof.
  intros Ha Hu Hk Hc.
  destruct (child_min _ _ Hlayout u Hu) as (m & Hm & _ & EC).
  pose proof (layout_fanout _ _ Hlayout). pose proof SIZE_MAX_pos.
  assert (0 <= m * Fanout) by nia.
  apply anc_step; [lia|]. by rewrite parent_child.
Qed.

(** [_sift_up]: the hole climbs from [g] towards [r]; [item] lands in the
    final hole. The range is described with the hole [g] holding a stale
    value. *)
Lemma sift_up_loop_spec m r item fuel : forall l g,
  0 <= r -> anc r g -> g < m -> m <= Z.of_nat (length l) -> m <= SIZE_MAX ->
  (Z.to_nat g <= fuel)%nat ->
  exists l', _sift_up_loop Fanout PageChunks less fuel l r g item = Some l' /\
    length l' = length l /\
    l' ≡ₚ fill l g item /\
    (forall u, 0 <= u -> u <> r -> ~ (1 <= u <= g /\ r <= P u) ->
       get l' u = get l u) /\
    (get l' r = item \/ (r < g /\ get l' r = get l r)) /\
    (StrictWeakOrder less ->
     (forall u, 1 <= u < m -> r <= P u -> u <> g ->
        less (get l (P u)) (get l u) = false) ->
     (forall u, 1 <= u < m -> P u = g -> less item (get l u) = false) ->
     (r < g -> forall u, 1 <= u < m -> P u = g ->
        less (get l (P g)) (get l u) = false) ->
     heap_from l' m r).
Proof.
  induction fuel as [|fuel IH]; intros l g Hr Ha Hgm Hml HmS Hfuel;
    pose proof (anc_le _ _ Hr Ha) as Hrg; simpl.
  - (* no fuel: the hole is already at the root of the sift *)
    assert (g = 0) by lia. assert (r = 0) by lia. subst.
    rewrite Z.ltb_irrefl. rewrite wr_fill by lia.
    eexists; split; [done|]. split; [apply length_fill|]. split; [done|].
    split; [intros; apply get_fill_ne; lia|].
    split; [left; apply get_fill_eq; lia|].
    intros Hswo Ha' Hb' _ u Hu Hpu.
    pose proof (parent_lt _ _ Hlayout u ltac:(lia)) as Hp.
    rewrite !get_fill by lia. rewrite (decide_False (P:=u = 0)) by lia.
    destruct (decide (P u = 0)) as [Epu|Hpg]; [by apply Hb'|].
    apply Ha'; [done|done|lia].
  - destruct (Z.ltb_spec r g) as [Hlt|Hge].
    + (* the hole is below the root of the sift *)
      pose proof (anc_inv _ _ Ha ltac:(lia)) as [HgS Hap].
      pose proof (parent_lt _ _ Hlayout g HgS) as Hp.
      pose proof (anc_le _ _ Hr Hap) as Hrp.
      rewrite (rd_get d l (P g)) by lia. simpl.
      destruct (less (get l (P g)) item) eqn:Hless; simpl.
      * (* the parent moves down, the hole moves up *)
        rewrite wr_fill by lia. simpl.
        destruct (IH (fill l g (get l (P g))) (P g)) as
          (l' & -> & Hlen & Hperm & Hframe & Hroot & Hord);
          [done|done|lia|rewrite length_fill; lia|done|lia|].
        rewrite length_fill in Hlen.
        exists l'. split; [done|]. split; [done|].
        split. { rewrite Hperm. apply fill_swap_perm; lia. }
        split.
        { intros u Hu Hur Hout. rewrite Hframe; [|lia|lia|lia].
          destruct (decide (u = g)) as [->|]; [lia|].
          apply get_fill_ne; lia. }
        split.
        { destruct Hroot as [?|[? E]]; [by left|right].
          split; [lia|]. rewrite E. apply get_fill_ne; lia. }
        intros Hswo Ha' Hb' Hc'. apply (Hord Hswo).
        -- intros u Hu Hpu Hne. rewrite !get_fill by lia.
           pose proof (parent_lt _ _ Hlayout u ltac:(lia)) as Hp'.
           destruct (decide (u = g)) as [->|Hug].
           { rewrite decide_False by lia. apply swo_irrefl. }
           destruct (decide (P u = g)) as [Epu|Hpg].
           { apply Hc'; [lia|lia|done]. }
           apply Ha'; done.
        -- intros u Hu Hpu. rewrite get_fill by lia.
           destruct (decide (u = g)) as [->|Hug]; [by apply less_asym|].
           eapply less_neg_trans; [done|by apply less_asym|].
           rewrite <- Hpu. apply Ha'; [lia|lia|done].
        -- intros Hrp' u Hu Hpu.
           pose proof (parent_lt _ _ Hlayout (P g) ltac:(lia)) as Hpp.
           rewrite !get_fill by lia.
           assert (Hgood : less (get l (P (P g))) (get l (P g)) = false).
           { apply Ha'; [lia| |lia]. apply anc_parent_ge; [done|done|lia]. }
           rewrite (decide_False (P:=P (P g) = g)) by lia.
           destruct (decide (u = g)) as [->|Hug]; [done|].
           eapply less_neg_trans; [done|apply Hgood|].
           rewrite <- Hpu. apply Ha'; [lia|lia|done].
      * (* the parent is not less than the item: the item lands here *)
        rewrite wr_fill by lia.
        eexists; split; [done|]. split; [apply length_fill|]. split; [done|].
        split.
        { intros u Hu Hur Hout. destruct (decide (u = g)) as [->|]; [lia|].
          apply get_fill_ne; lia. }
        split. { right. split; [done|]. apply get_fill_ne; lia. }
        intros Hswo Ha' Hb' Hc' u Hu Hpu.
        pose proof (parent_lt _ _ Hlayout u ltac:(lia)) as Hp'.
        rewrite !get_fill by lia.
        destruct (decide (u = g)) as [->|Hug].
        { by rewrite decide_False by lia. }
        destruct (decide (P u = g)) as [Epu|Hpg]; [by apply Hb'|].
        by apply Ha'.
    + assert (g = r) by lia. subst g.
      rewrite wr_fill by lia.
      eexists; split; [done|]. split; [apply length_fill|]. split; [done|].
      split; [intros; apply get_fill_ne; lia|].
      split; [left; apply get_fill_eq; lia|].
      intros Hswo Ha' Hb' _ u Hu Hpu.
      pose proof (parent_lt _ _ Hlayout u ltac:(lia)) as Hp.
      rewrite !get_fill by lia. rewrite (decide_False (P:=u = r)) by lia.
      destruct (decide (P u = r)) as [Epu|Hpg]; [by apply Hb'|].
      apply Ha'; [done|done|lia].
Qed.

Lemma anc_trans r u v : anc r u -> anc u v -> anc r v.
Proof. intros Hru. induction 1; [done|]. by apply anc_step. Qed.

(** The scan of [_move_up_max_child] keeps the last maximal child seen. *)
Lemma max_child_loop_spec l count c fuel : forall i j,
  0 <= c -> c + count <= Z.of_nat (length l) -> c + count <= SIZE_MAX ->
  0 <= j < i -> i <= count -> (Z.to_nat (count - i) <= fuel)%nat ->
  exists j', _max_child_loop less fuel l count c i j (get l (c + j))
             = Some (j', get l (c + j')) /\
    0 <= j' < count /\
    (StrictWeakOrder less ->
     (forall i', 0 <= i' < i ->
        less (get l (c + j)) (get l (c + i')) = false) ->
     (forall i', j < i' < i ->
        less (get l (c + i')) (get l (c + j)) = true) ->
     (forall i', 0 <= i' < count ->
        less (get l (c + j')) (get l (c + i')) = false) /\
     (forall i', j' < i' < count ->
        less (get l (c + i')) (get l (c + j')) = true)).
Proof.
  induction fuel as [|fuel IH]; intros i j Hc Hlen HS Hj Hi Hfuel; simpl.
  - assert (i = count) by lia. subst i.
    rewrite Z.ltb_irrefl. exists j. auto with lia.
  - destruct (Z.ltb_spec i count) as [Hlt|Hge].
    + rewrite (wrap_small (c + i)), (wrap_small (i + 1)) by lia.
      rewrite (rd_get d l (c + i)) by lia. simpl.
      destruct (less (get l (c + i)) (get l (c + j))) eqn:Hless; simpl.
      * destruct (IH (i + 1) j) as (j' & -> & Hj' & Hpost); try lia.
        exists j'. split; [done|]. split; [done|].
        intros Hswo Hmax Hlast. apply (Hpost Hswo).
        -- intros i' Hi'. destruct (decide (i' = i)) as [->|].
           ++ by apply less_asym.
           ++ apply Hmax. lia.
        -- intros i' Hi'. destruct (decide (i' = i)) as [->|]; [done|].
           apply Hlast. lia.
      * destruct (IH (i + 1) i) as (j' & -> & Hj' & Hpost); try lia.
        exists j'. split; [done|]. split; [done|].
        intros Hswo Hmax Hlast. apply (Hpost Hswo).
        -- intros i' Hi'. destruct (decide (i' = i)) as [->|].
           ++ apply swo_irrefl.
           ++ eapply less_neg_trans; [done|apply Hless|]. apply Hmax. lia.
        -- intros i' Hi'. lia.
    + assert (i = count) by lia. subst i. exists j. auto with lia.
Qed.

Lemma move_up_max_child_spec l count hole c :
  1 <= count -> 0 <= c -> c + count <= Z.of_nat (length l) ->
  c + count <= SIZE_MAX -> 0 <= hole < Z.of_nat (length l) ->
  exists j, _move_up_max_child less l count hole c
            = Some (fill l hole (get l (c + j)), c + j) /\
    0 <= j < count /\
    (StrictWeakOrder less ->
     (forall i, 0 <= i < count ->
        less (get l (c + j)) (get l (c + i)) = false) /\
     (forall i, j < i < count ->
        less (get l (c + i)) (get l (c + j)) = true)).
Proof.
  intros Hcount Hc Hlen HS Hhole. unfold _move_up_max_child.
  rewrite (rd_get d l c) by lia. simpl.
  destruct (max_child_loop_spec l count c (Z.to_nat count) 1 0)
    as (j & E & Hj & Hpost); try lia.
  rewrite Z.add_0_r in E. rewrite E. simpl.
  rewrite wr_fill by lia. simpl. rewrite wrap_small by lia.
  exists j. split; [done|]. split; [done|].
  intros Hswo. apply (Hpost Hswo).
  - intros i' Hi'. assert (i' = 0) as -> by lia. rewrite Z.add_0_r.
    apply swo_irrefl.
  - intros i' Hi'. lia.
Qed.

(** Arithmetic of the last, possibly partial, child group of a heap of
    [m] nodes. *)
Lemma last_group m c :
  1 <= m -> (exists k, 0 <= k /\ c = k * Fanout + 1) ->
  let rem := (m - 1) mod Fanout in
  0 <= rem < Fanout /\ rem <= m - 1 /\
  (c < m - rem -> c + Fanout <= m - rem) /\
  (m - rem <= c -> c < m -> c = m - rem /\ 1 <= rem) /\
  (m - rem < c -> m <= c).
Proof.
  intros Hm (k & Hk & ->). pose proof (layout_fanout _ _ Hlayout) as HF.
  destruct (divmod_spec (m - 1) Fanout) as (E & Hq & Hr); [lia..|].
  set (q := (m - 1) / Fanout) in *. set (rem := (m - 1) mod Fanout) in *.
  simpl. assert (0 <= Fanout * q) by nia.
  split; [done|]. split; [lia|].
  assert (Hcmp : forall a b : Z, a < b -> a * Fanout + Fanout <= b * Fanout)
    by (intros; nia).
  split; [|split].
  - intros Hc. assert (k < q) by nia. specialize (Hcmp k q). lia.
  - intros Hc1 Hc2.
    destruct (Z.lt_trichotomy k q) as [Hlt|[->|Hgt]]; [| lia |].
    + specialize (Hcmp k q Hlt). lia.
    + specialize (Hcmp q k). lia.
  - intros Hc.
    destruct (Z_le_gt_dec k q) as [Hle|Hgt]; [nia|].
    specialize (Hcmp q k). lia.
Qed.

(** The descending phase of [_sift_down]: the hole walks from [g] down a
    path of maximal children to a node [g1] with no child in the heap. *)
Lemma sift_down_loop_spec m fuel : forall l g,
  0 <= g < m -> m <= Z.of_nat (length l) -> m <= SIZE_MAX ->
  (Z.to_nat (m - g) <= fuel)%nat ->
  exists l1 g1,
    _sift_down_loop Fanout PageChunks less fuel l m ((m - 1) mod Fanout) g
    = Some (l1, g1) /\
    length l1 = length l /\
    g <= g1 < m /\ anc g g1 /\
    (forall u, 1 <= u < m -> P u <> g1) /\
    (forall x, fill l1 g1 x ≡ₚ fill l g x) /\
    (forall u, 0 <= u -> u <> g -> ~ (1 <= u < m /\ g <= P u) ->
       get l1 u = get l u) /\
    (g1 = g /\ l1 = l \/
     g < g1 /\ exists u, 1 <= u < m /\ P u = g /\ get l1 g = get l u) /\
    (StrictWeakOrder less ->
     (forall u, 1 <= u < m -> g < P u ->
        less (get l (P u)) (get l u) = false) ->
     g < g1 -> heap_from l1 m g).
Proof.
  pose proof (layout_fanout _ _ Hlayout) as HF.
  induction fuel as [|fuel IH]; intros l g Hg Hml HmS Hfuel; [lia|].
  simpl.
  pose proof (child_gt _ _ Hlayout g ltac:(lia)) as Hcg.
  set (c := C g) in *.
  assert (Hal : c < SIZE_MAX -> exists k, 0 <= k /\ c = k * Fanout + 1).
  { apply child_aligned; [done|lia]. }
  assert (Hchild : forall u, 1 <= u < m -> P u = g <-> c <= u < c + Fanout).
  { intros u Hu. apply (parent_iff _ _ Hlayout m); lia. }
  set (rem := (m - 1) mod Fanout).
  assert (Hrem : 0 <= rem < Fanout /\ rem <= m - 1).
  { unfold rem. pose proof (Z.mod_pos_bound (m - 1) Fanout ltac:(lia)).
    pose proof (Z.mod_le (m - 1) Fanout ltac:(lia) ltac:(lia)). lia. }
  rewrite (wrap_small (m - rem)) by lia.
  destruct (Z.leb_spec (m - rem) c) as [HA|HB].
  - destruct (Z.ltb_spec c m) as [HA1|HA2].
    + (* the hole's children are the last, partial group *)
      destruct (last_group m c ltac:(lia) (Hal ltac:(lia)))
        as (_ & _ & _ & Hlast & _).
      destruct (Hlast HA HA1) as [Ec Hrem1]. fold rem in Ec, Hrem1.
      destruct (move_up_max_child_spec l rem g c)
        as (j & -> & Hj & Hmax); try lia.
      set (g1 := c + j).
      assert (Hpg1 : P g1 = g) by (apply Hchild; unfold g1; lia).
      exists (fill l g (get l g1)), g1.
      split; [done|]. split; [apply length_fill|]. split; [unfold g1; lia|].
      split. { apply anc_child; [constructor|lia..]. }
      split.
      { intros u Hu Hpu.
        pose proof (child_parent _ _ Hlayout u ltac:(lia)) as Hcp.
        rewrite Hpu in Hcp.
        pose proof (child_gt _ _ Hlayout g1 ltac:(unfold g1; lia)) as Hcg1.
        destruct (child_aligned _ _ Hlayout g1) as (k' & Hk' & Ek');
          [unfold g1; lia|lia|].
        destruct (last_group m (C g1) ltac:(lia)) as (_ & _ & _ & _ & Hbig);
          [eauto|].
        fold rem in Hbig. unfold g1 in *. lia. }
      split. { intros x. apply fill_swap_perm; unfold g1; lia. }
      split. { intros u Hu Hug _. apply get_fill_ne; lia. }
      split.
      { right. split; [unfold g1; lia|]. exists g1.
        split; [unfold g1; lia|]. split; [done|].
        apply get_fill_eq. lia. }
      intros Hswo Hpre _ u Hu Hpu. destruct (Hmax Hswo) as [Hmax' _].
      pose proof (parent_lt _ _ Hlayout u ltac:(lia)) as Hp.
      rewrite !get_fill by lia. rewrite (decide_False (P:=u = g)) by lia.
      destruct (decide (P u = g)) as [E|Hne].
      * apply Hchild in E; [|done].
        replace u with (c + (u - c)) by lia. apply Hmax'. lia.
      * apply Hpre; [done|lia].
    + (* the hole has no child in the heap *)
      exists l, g. split; [done|]. split; [done|]. split; [lia|].
      split; [constructor|].
      split. { intros u Hu Hpu. apply Hchild in Hpu; lia. }
      split; [done|]. split; [done|]. split; [by left|]. lia.
  - (* a full child group *)
    destruct (last_group m c ltac:(lia) (Hal ltac:(lia)))
      as (_ & _ & Hfull & _).
    specialize (Hfull HB). fold rem in Hfull.
    destruct (move_up_max_child_spec l Fanout g c)
      as (j & -> & Hj & Hmax); try lia.
    simpl. set (g' := c + j). set (l' := fill l g (get l g')).
    assert (Hpg' : P g' = g) by (apply Hchild; unfold g'; lia).
    destruct (IH l' g') as
      (l1 & g1 & E & Hlen & Hg1 & Hanc & Hnoc & Hperm & Hframe & Hcase & Hord);
      [unfold g'; lia|unfold l'; rewrite length_fill; lia|done|unfold g'; lia|].
    change ((m - 1) mod Fanout) with rem in E. rewrite E. clear E.
    unfold l' in Hlen. rewrite length_fill in Hlen.
    assert (Hg' : g < g' < m) by (unfold g'; lia).
    assert (Hl1g : get l1 g = get l g').
    { rewrite Hframe; [apply get_fill_eq; lia|lia|lia|].
      intros [Hg1' Hg2].
      pose proof (parent_lt _ _ Hlayout g ltac:(lia)). lia. }
    exists l1, g1. split; [done|]. split; [done|]. split; [lia|].
    split.
    { eapply anc_trans; [|done]. rewrite <- Hpg'.
      apply anc_step; [lia|]. rewrite Hpg'. constructor. }
    split; [done|].
    split. { intros x. rewrite Hperm. apply fill_swap_perm; lia. }
    split.
    { intros u Hu Hug Hout. destruct (decide (u = g')) as [->|Hug'].
      { exfalso. apply Hout. lia. }
      rewrite Hframe; [apply get_fill_ne; lia|lia|done|lia]. }
    split. { right. split; [lia|]. exists g'. split; [lia|]. by split. }
    intros Hswo Hpre _ u Hu Hpu. destruct (Hmax Hswo) as [Hmax' _].
    pose proof (parent_lt _ _ Hlayout u ltac:(lia)) as Hp.
    assert (Hpre' : forall u, 1 <= u < m -> g' < P u ->
              less (get l' (P u)) (get l' u) = false).
    { intros v Hv Hpv.
      pose proof (parent_lt _ _ Hlayout v ltac:(lia)) as Hp'.
      unfold l'. rewrite !get_fill_ne by lia. apply Hpre; [done|lia]. }
    destruct (Z_lt_ge_dec (P u) g') as [Hlt|Hge].
    + (* the edge lies outside the subtree of the new hole *)
      destruct (decide (P u = g)) as [E|Hne].
      * rewrite E, Hl1g. destruct (decide (u = g')) as [->|Hug'].
        -- destruct Hcase as [[-> ->]|[Hlt' (v & Hv & Hpv & ->)]].
           ++ unfold l'. rewrite get_fill_ne by lia. apply swo_irrefl.
           ++ pose proof (parent_lt _ _ Hlayout v ltac:(lia)) as Hpv'.
              unfold l'. rewrite get_fill_ne by lia.
              rewrite <- Hpv. apply Hpre; [done|lia].
        -- rewrite Hframe; [|lia|done|lia].
           unfold l'. rewrite get_fill_ne by lia.
           apply Hchild in E; [|done].
           replace u with (c + (u - c)) by lia. apply Hmax'. lia.
      * assert (u <> g') by (intros ->; lia).
        pose proof (parent_lt _ _ Hlayout (P u) ltac:(lia)) as Hpp.
        rewrite (Hframe u), (Hframe (P u)); [|lia..].
        unfold l'. rewrite !get_fill_ne by lia. apply Hpre; [done|lia].
    + destruct Hcase as [[-> ->]|[Hlt' _]].
      * assert (P u <> g') by (by apply Hnoc).
        apply Hpre'; [done|lia].
      * apply (Hord Hswo); [done|done|done|lia].
Qed.

(** [_sift_up] from [g] to the heap root. *)
Lemma sift_up_spec m l g item :
  0 <= g < m -> m <= Z.of_nat (length l) -> m <= SIZE_MAX ->
  exists l', _sift_up Fanout PageChunks less l 0 g item = Some l' /\
    length l' = length l /\
    l' ≡ₚ fill l g item /\
    (forall u, g < u -> get l' u = get l u) /\
    (StrictWeakOrder less ->
     (forall u, 1 <= u < m -> u <> g ->
        less (get l (P u)) (get l u) = false) ->
     (forall u, 1 <= u < m -> P u = g -> less item (get l u) = false) ->
     (0 < g -> forall u, 1 <= u < m -> P u = g ->
        less (get l (P g)) (get l u) = false) ->
     heap_from l' m 0).
Proof.
  intros Hg Hml HmS. unfold _sift_up.
  destruct (sift_up_loop_spec m 0 item (Z.to_nat g) l g)
    as (l' & E & Hlen & Hperm & Hframe & _ & Hord);
    [lia|apply anc_zero; lia|lia|done|done|lia|].
  exists l'. split; [done|]. split; [done|]. split; [done|].
  split. { intros u Hu. apply Hframe; lia. }
  intros Hswo Ha Hb Hc. apply (Hord Hswo); auto.
Qed.

(** [_sift_down] of [item] from the hole [h] in a heap of [m] nodes. *)
Lemma sift_down_spec m l h item :
  0 <= h < m -> m <= Z.of_nat (length l) -> m <= SIZE_MAX ->
  exists l', _sift_down Fanout PageChunks less l m h item = Some l' /\
    length l' = length l /\
    l' ≡ₚ fill l h item /\
    (forall u, 0 <= u -> u <> h -> ~ (1 <= u < m /\ h <= P u) ->
       get l' u = get l u) /\
    (get l' h = item \/
     exists u, 1 <= u < m /\ P u = h /\ get l' h = get l u) /\
    (StrictWeakOrder less ->
     (forall u, 1 <= u < m -> h < P u ->
        less (get l (P u)) (get l u) = false) ->
     heap_from l' m h).
Proof.
  intros Hh Hml HmS. unfold _sift_down.
  rewrite (wrap_small (m - 1)) by lia.
  destruct (sift_down_loop_spec m (Z.to_nat m) l h)
    as (l1 & g1 & -> & Hlen1 & Hg1 & Hanc & Hnoc & Hperm1 & Hframe1 & Hcase
        & Hord1); [done|done|done|lia|].
  simpl. unfold _sift_up.
  destruct (sift_up_loop_spec m h item (Z.to_nat g1) l1 g1)
    as (l' & -> & Hlen & Hperm & Hframe & Hroot & Hord);
    [lia|done|lia|lia|done|lia|].
  exists l'. split; [done|]. split; [lia|].
  split. { by rewrite Hperm. }
  split.
  { intros u Hu Huh Hout. rewrite Hframe; [|done|done|lia].
    by apply Hframe1. }
  split.
  { destruct Hroot as [?|[Hlt E]]; [by left|right].
    destruct Hcase as [[-> _]|[_ (u & Hu & Hpu & E')]]; [lia|].
    exists u. rewrite E. auto. }
  intros Hswo Hpre. apply (Hord Hswo).
  - intros u Hu Hpu Hne.
    destruct Hcase as [[-> ->]|[Hlt _]].
    + apply Hpre; [done|]. specialize (Hnoc u Hu). lia.
    + apply (Hord1 Hswo); done.
  - intros u Hu Hpu. by destruct (Hnoc u Hu).
  - intros _ u Hu Hpu. by destruct (Hnoc u Hu).
Qed.

(** The root of a heap is a maximum. *)
Lemma heap_root_max l m :
  StrictWeakOrder less -> m <= SIZE_MAX -> heap_from l m 0 ->
  forall u, 0 <= u < m -> less (get l 0) (get l u) = false.
Proof.
  intros Hswo HmS Hheap u Hu. remember (Z.to_nat u) as n eqn:En.
  revert u Hu En. induction (lt_wf n) as [n _ IH]. intros u Hu ->.
  destruct (decide (u = 0)) as [->|Hne]; [apply swo_irrefl|].
  pose proof (parent_lt _ _ Hlayout u ltac:(lia)) as Hp.
  eapply less_neg_trans; [done| |apply Hheap; lia].
  eapply IH; [|lia|reflexivity]. lia.
Qed.

Lemma heap_from_weaken l m m' r r' :
  m' <= m -> r <= r' -> heap_from l m r -> heap_from l m' r'.
Proof. intros Hm Hr Hh u Hu Hpu. apply Hh; lia. Qed.

End Sift.

(** * Heap algorithms *)

Section Algorithms.
Context {A : Type}.
Variables Fanout PageChunks : Z.
Variable less : A -> A -> bool.
Hypothesis Hlayout : valid_layout Fanout PageChunks.
Variable d : A.

Local Abbreviation P := (get_parent_index Fanout PageChunks).
Local Abbreviation C := (get_child_index Fanout PageChunks).
Local Abbreviation heap_from := (heap_from Fanout PageChunks less d).
Local Abbreviation get := (get d).

Implicit Types (l : list A) (u g r m n : Z) (x item : A).

(** ** [is_heap] decides the heap property *)

Lemma is_heap_until_loop_spec l m fuel : forall u,
  1 <= u -> m <= Z.of_nat (length l) -> m <= SIZE_MAX ->
  (Z.to_nat (m - u) <= fuel)%nat ->
  exists r, is_heap_until_loop Fanout PageChunks less fuel l m u = Some r /\
    (r = m <-> forall v, u <= v < m -> less (get l (P v)) (get l v) = false).
Proof.
  induction fuel as [|fuel IH]; intros u Hu Hml HmS Hfuel; simpl.
  - destruct (Z.ltb_spec u m); [lia|]. exists m. split; [done|].
    split; [|done]. intros _ v Hv. lia.
  - destruct (Z.ltb_spec u m) as [Hlt|Hge].
    + pose proof (parent_lt _ _ Hlayout u ltac:(lia)) as Hp.
      rewrite (rd_get d l (P u)), (rd_get d l u) by lia. simpl.
      destruct (less (get l (P u)) (get l u)) eqn:Hless.
      * exists u. split; [done|]. split; [lia|].
        intros Hall. rewrite Hall in Hless by lia. done.
      * rewrite wrap_small by lia.
        destruct (IH (u + 1)) as (r & -> & Hr); [lia|done|done|lia|].
        exists r. split; [done|]. rewrite Hr. split.
        -- intros Hall v Hv. destruct (decide (v = u)) as [->|]; [done|].
           apply Hall. lia.
        -- intros Hall v Hv. apply Hall. lia.
    + exists m. split; [done|]. split; [|done]. intros _ v Hv. lia.
Qed.

Lemma is_heap_spec l m :
  m <= Z.of_nat (length l) -> m <= SIZE_MAX ->
  exists b, is_heap Fanout PageChunks less l m = Some b /\
    (b = true <-> heap_from l m 0).
Proof.
  intros Hml HmS. unfold is_heap, is_heap_until.
  destruct (is_heap_until_loop_spec l m (Z.to_nat m) 1) as (r & -> & Hr);
    [lia|done|done|lia|].
  simpl. eexists. split; [done|]. rewrite Z.eqb_eq, Hr. split.
  - intros Hall u Hu _. apply Hall. lia.
  - intros Hh v Hv. apply Hh; [lia|].
    pose proof (parent_lt _ _ Hlayout v ltac:(lia)). lia.
Qed.

Lemma is_heap_true l m :
  m <= Z.of_nat (length l) -> m <= SIZE_MAX ->
  is_heap Fanout PageChunks less l m = Some true <-> heap_from l m 0.
Proof.
  intros Hml HmS. destruct (is_heap_spec l m Hml HmS) as (b & -> & Hb).
  rewrite <- Hb. split; [by intros [= ->]|by intros ->].
Qed.

(** ** [make_heap] *)

Lemma make_heap_loop_spec n fuel : forall l i,
  0 <= i < n -> n <= Z.of_nat (length l) -> n <= SIZE_MAX ->
  (Z.to_nat i < fuel)%nat ->
  exists l', make_heap_loop Fanout PageChunks less fuel l n i = Some l' /\
    length l' = length l /\ l' ≡ₚ l /\
    (forall u, n <= u -> get l' u = get l u) /\
    (StrictWeakOrder less -> heap_from l n (i + 1) -> heap_from l' n 0).
Proof.
  induction fuel as [|fuel IH]; intros l i Hi Hnl HnS Hfuel; [lia|].
  simpl. rewrite (rd_get d l i) by lia. simpl.
  destruct (sift_down_spec Fanout PageChunks less Hlayout d n l i (get l i))
    as (l1 & -> & Hlen & Hperm & Hframe & _ & Hord); [done..|].
  simpl. rewrite fill_get_id in Hperm by lia.
  assert (Hh1 : StrictWeakOrder less -> heap_from l n (i + 1) ->
                heap_from l1 n i).
  { intros Hswo Hheap. apply (Hord Hswo). intros u Hu Hpu.
    apply Hheap; [done|lia]. }
  destruct (Z.ltb_spec 0 i) as [Hpos|Hzero].
  - rewrite wrap_small by lia.
    destruct (IH l1 (i - 1)) as (l' & -> & Hlen' & Hperm' & Hframe' & Hh');
      [lia|lia|done|lia|].
    exists l'. split; [done|]. split; [lia|]. split; [by rewrite Hperm'|].
    split.
    { intros u Hu. rewrite Hframe' by done. apply Hframe; lia. }
    intros Hswo Hheap. apply (Hh' Hswo).
    replace (i - 1 + 1) with i by lia. by apply Hh1.
  - assert (i = 0) as -> by lia.
    exists l1. split; [done|]. split; [done|]. split; [done|].
    split; [|done]. intros u Hu. apply Hframe; lia.
Qed.

Lemma make_heap_spec l n :
  n <= Z.of_nat (length l) -> n <= SIZE_MAX ->
  exists l', make_heap Fanout PageChunks less l n = Some l' /\
    length l' = length l /\ l' ≡ₚ l /\
    (forall u, n <= u -> get l' u = get l u) /\
    (StrictWeakOrder less -> heap_from l' n 0).
Proof.
  intros Hnl HnS. unfold make_heap.
  pose proof (layout_fanout _ _ Hlayout) as HF.
  destruct (Z.ltb_spec 1 n) as [Hn|Hn].
  - rewrite (wrap_small (n - 2)) by lia.
    set (i := if PageChunks =? 1 then (n - 2) / Fanout else n - 2).
    assert (Hi : 0 <= i <= n - 2).
    { unfold i. destruct (PageChunks =? 1); [|lia].
      split; [apply Z.div_pos; lia|].
      apply Z.div_le_upper_bound; nia. }
    destruct (make_heap_loop_spec n (S (Z.to_nat i)) l i)
      as (l' & -> & Hlen & Hperm & Hframe & Hheap); [lia|done|done|lia|].
    exists l'. split; [done|]. split; [done|]. split; [done|].
    split; [done|]. intros Hswo. apply (Hheap Hswo).
    intros u Hu Hpu. exfalso.
    pose proof (parent_lt _ _ Hlayout u ltac:(lia)) as Hp.
    revert Hpu. unfold i.
    destruct (Z.eqb_spec PageChunks 1) as [E|_]; [|lia].
    rewrite (get_parent_index_ideal _ _ Hlayout) by lia.
    unfold parent_ideal. rewrite E. simpl.
    pose proof (Z.div_le_mono (u - 1) (n - 2) Fanout ltac:(lia) ltac:(lia)).
    lia.
  - exists l. split; [done|]. split; [done|]. split; [done|].
    split; [done|]. intros _ u Hu. lia.
Qed.

(** ** [push_heap] and [restore_heap_after_item_increase] *)

Lemma sift_up_last_spec l g :
  0 <= g < Z.of_nat (length l) -> g < SIZE_MAX ->
  exists l', _sift_up Fanout PageChunks less l 0 g (get l g) = Some l' /\
    length l' = length l /\ l' ≡ₚ l /\
    (forall u, g < u -> get l' u = get l u) /\
    (StrictWeakOrder less -> heap_from l g 0 -> heap_from l' (g + 1) 0).
Proof.
  intros Hg HgS.
  destruct (sift_up_spec Fanout PageChunks less Hlayout d (g + 1) l g
              (get l g)) as (l' & -> & Hlen & Hperm & Hframe & Hord);
    [lia..|].
  rewrite fill_get_id in Hperm by lia.
  exists l'. split; [done|]. split; [done|]. split; [done|]. split; [done|].
  intros Hswo Hheap. apply (Hord Hswo).
  - intros u Hu Hne. apply Hheap; [lia|].
    pose proof (parent_lt _ _ Hlayout u ltac:(lia)). lia.
  - intros u Hu Hpu. pose proof (parent_lt _ _ Hlayout u ltac:(lia)). lia.
  - intros _ u Hu Hpu. pose proof (parent_lt _ _ Hlayout u ltac:(lia)). lia.
Qed.

Lemma push_heap_spec l n :
  n <= Z.of_nat (length l) -> n <= SIZE_MAX ->
  exists l', push_heap Fanout PageChunks less l n = Some l' /\
    length l' = length l /\ l' ≡ₚ l /\
    (forall u, n <= u -> get l' u = get l u) /\
    (StrictWeakOrder less -> heap_from l (n - 1) 0 -> heap_from l' n 0).
Proof.
  intros Hnl HnS. unfold push_heap.
  destruct (Z.ltb_spec 1 n) as [Hn|Hn].
  - rewrite wrap_small by lia. rewrite (rd_get d l (n - 1)) by lia. simpl.
    destruct (sift_up_last_spec l (n - 1))
      as (l' & -> & Hlen & Hperm & Hframe & Hord); [lia..|].
    replace (n - 1 + 1) with n in Hord by lia.
    exists l'. split; [done|]. split; [done|]. split; [done|].
    split; [|done]. intros u Hu. apply Hframe. lia.
  - exists l. split; [done|]. split; [done|]. split; [done|].
    split; [done|]. intros _ _ u Hu. lia.
Qed.

Lemma restore_heap_after_item_increase_spec l g :
  0 <= g < Z.of_nat (length l) -> g < SIZE_MAX ->
  exists l', restore_heap_after_item_increase Fanout PageChunks less l g
             = Some l' /\
    length l' = length l /\ l' ≡ₚ l /\
    (forall u, g < u -> get l' u = get l u) /\
    (StrictWeakOrder less -> heap_from l g 0 -> heap_from l' (g + 1) 0).
Proof.
  intros Hg HgS. unfold restore_heap_after_item_increase.
  destruct (Z.ltb_spec 0 g) as [Hpos|Hzero].
  - rewrite (rd_get d l g) by lia. simpl. by apply sift_up_last_spec.
  - exists l. split; [done|]. split; [done|]. split; [done|].
    split; [done|]. intros _ _ u Hu. lia.
Qed.

(** ** [pop_heap] *)

Lemma _pop_heap_spec l n :
  1 < n -> n <= Z.of_nat (length l) -> n <= SIZE_MAX ->
  exists l', _pop_heap Fanout PageChunks less l n = Some l' /\
    length l' = length l /\ l' ≡ₚ l /\
    (forall u, n <= u -> get l' u = get l u) /\
    get l' (n - 1) = get l 0 /\
    (StrictWeakOrder less -> heap_from l n 0 -> heap_from l' (n - 1) 0).
Proof.
  intros Hn Hnl HnS. unfold _pop_heap.
  rewrite wrap_small by lia.
  rewrite (rd_get d l (n - 1)), (rd_get d l 0) by lia. simpl.
  rewrite wr_fill by lia. simpl.
  set (l2 := fill l (n - 1) (get l 0)).
  destruct (sift_down_spec Fanout PageChunks less Hlayout d (n - 1) l2 0
              (get l (n - 1)))
    as (l' & -> & Hlen & Hperm & Hframe & _ & Hord);
    [lia|unfold l2; rewrite length_fill; lia|lia|].
  unfold l2 in Hlen. rewrite length_fill in Hlen.
  exists l'. split; [done|]. split; [done|].
  split.
  { rewrite Hperm. unfold l2. rewrite fill_swap_perm by lia.
    by rewrite fill_get_id by lia. }
  split.
  { intros u Hu. rewrite Hframe by lia. unfold l2. apply get_fill_ne; lia. }
  split.
  { rewrite Hframe by lia. unfold l2. apply get_fill_eq. lia. }
  intros Hswo Hheap. apply (Hord Hswo). intros u Hu Hpu.
  pose proof (parent_lt _ _ Hlayout u ltac:(lia)).
  unfold l2. rewrite !get_fill_ne by lia. apply Hheap; lia.
Qed.

Lemma pop_heap_spec l n :
  1 <= n -> n <= Z.of_nat (length l) -> n <= SIZE_MAX ->
  exists l', pop_heap Fanout PageChunks less l n = Some l' /\
    length l' = length l /\ l' ≡ₚ l /\
    (forall u, n <= u -> get l' u = get l u) /\
    get l' (n - 1) = get l 0 /\
    (StrictWeakOrder less -> heap_from l n 0 -> heap_from l' (n - 1) 0).
Proof.
  intros Hn Hnl HnS. unfold pop_heap.
  destruct (Z.ltb_spec 1 n) as [Hn1|Hn1]; [by apply _pop_heap_spec|].
  assert (n = 1) as -> by lia.
  exists l. split; [done|]. split; [done|]. split; [done|].
  split; [done|]. split; [done|]. intros _ _ u Hu. lia.
Qed.

(** ** [restore_heap_after_item_decrease] *)

(** The range was a heap before the value at [h] was replaced by a value
    that is not greater: every edge that does not touch [h] is in order,
    and the parent of [h] is not less than the new value nor than any
    child of [h]. *)
Lemma restore_heap_after_item_decrease_spec l h n :
  0 <= h < n -> n <= Z.of_nat (length l) -> n <= SIZE_MAX ->
  exists l', restore_heap_after_item_decrease Fanout PageChunks less l h n
             = Some l' /\
    length l' = length l /\ l' ≡ₚ l /\
    (forall u, n <= u -> get l' u = get l u) /\
    (StrictWeakOrder less ->
     (forall u, 1 <= u < n -> u <> h -> P u <> h ->
        less (get l (P u)) (get l u) = false) ->
     (0 < h -> less (get l (P h)) (get l h) = false) ->
     (0 < h -> forall u, 1 <= u < n -> P u = h ->
        less (get l (P h)) (get l u) = false) ->
     heap_from l' n 0).
Proof.
  intros Hh Hnl HnS. unfold restore_heap_after_item_decrease.
  rewrite (rd_get d l h) by lia. simpl.
  destruct (sift_down_spec Fanout PageChunks less Hlayout d n l h (get l h))
    as (l' & -> & Hlen & Hperm & Hframe & Hroot & Hord); [done..|].
  rewrite fill_get_id in Hperm by lia.
  exists l'. split; [done|]. split; [done|]. split; [done|].
  split. { intros u Hu. apply Hframe; lia. }
  intros Hswo Hrest Hup Hdown u Hu _.
  pose proof (parent_lt _ _ Hlayout u ltac:(lia)) as Hp.
  destruct (Z_lt_ge_dec (P u) h) as [Hlt|Hge].
  - assert (HPu : get l' (P u) = get l (P u)).
    { apply Hframe; [lia|lia|]. intros [Hp1 Hp2].
      pose proof (parent_lt _ _ Hlayout (P u) ltac:(lia)). lia. }
    rewrite HPu. destruct (decide (u = h)) as [->|Hne].
    + destruct Hroot as [->|(v & Hv & Hpv & ->)].
      * apply Hup. lia.
      * apply Hdown; [lia|done|done].
    + rewrite Hframe by lia. apply Hrest; [done|done|lia].
  - apply (Hord Hswo); [|done|lia].
    intros v Hv Hpv. pose proof (parent_lt _ _ Hlayout v ltac:(lia)).
    apply Hrest; [done|lia|lia].
Qed.

(** ** [remove_from_heap] *)

Lemma remove_from_heap_spec l h n :
  0 <= h < n -> n <= Z.of_nat (length l) -> n <= SIZE_MAX ->
  exists l', remove_from_heap Fanout PageChunks less l h n = Some l' /\
    length l' = length l /\ l' ≡ₚ l /\
    (forall u, n <= u -> get l' u = get l u) /\
    get l' (n - 1) = get l h /\
    (StrictWeakOrder less -> heap_from l n 0 -> heap_from l' (n - 1) 0).
Proof.
  intros Hh Hnl HnS. unfold remove_from_heap.
  rewrite wrap_small by lia.
  destruct (Z.ltb_spec h (n - 1)) as [Hlt|Hge].
  - rewrite (rd_get d l (n - 1)), (rd_get d l h) by lia. simpl.
    rewrite wr_fill by lia. simpl.
    set (l2 := fill l (n - 1) (get l h)).
    assert (Hlen2 : length l2 = length l) by apply length_fill.
    rewrite (rd_get d l2 (n - 1)) by lia. simpl.
    unfold l2 at 1. rewrite get_fill_eq by lia.
    set (tmp := get l (n - 1)).
    assert (Hperm2 : fill l2 h tmp ≡ₚ l).
    { unfold l2, tmp. rewrite fill_swap_perm by lia.
      by rewrite fill_get_id by lia. }
    assert (Hl2 : forall u, 0 <= u -> u <> n - 1 -> get l2 u = get l u).
    { intros u Hu Hne. unfold l2. apply get_fill_ne; lia. }
    destruct (less tmp (get l h)) eqn:Hless.
    + (* the former last element is lower: it sinks *)
      destruct (sift_down_spec Fanout PageChunks less Hlayout d (n - 1) l2 h
                  tmp)
        as (l' & -> & Hlen & Hperm & Hframe & Hroot & Hord); [lia..|].
      exists l'. split; [done|]. split; [lia|].
      split; [by rewrite Hperm|].
      split. { intros u Hu. rewrite Hframe by lia. apply Hl2; lia. }
      split. { rewrite Hframe by lia. unfold l2. apply get_fill_eq. lia. }
      intros Hswo Hheap u Hu _.
      pose proof (parent_lt _ _ Hlayout u ltac:(lia)) as Hp.
      destruct (Z_lt_ge_dec (P u) h) as [Hlt'|Hge'].
      * assert (HPu : get l' (P u) = get l (P u)).
        { rewrite Hframe; [apply Hl2; lia|lia|lia|]. intros [Hp1 Hp2].
          pose proof (parent_lt _ _ Hlayout (P u) ltac:(lia)). lia. }
        rewrite HPu. destruct (decide (u = h)) as [->|Hne].
        -- assert (Hph : less (get l (P h)) (get l h) = false)
             by (apply Hheap; lia).
           destruct Hroot as [->|(v & Hv & Hpv & ->)].
           ++ eapply less_neg_trans; [done|apply Hph|by apply less_asym].
           ++ rewrite Hl2 by lia.
              eapply less_neg_trans; [done|apply Hph|].
              rewrite <- Hpv. apply Hheap; lia.
        -- rewrite Hframe, Hl2 by lia. apply Hheap; lia.
      * apply (Hord Hswo); [|done|lia].
        intros v Hv Hpv. pose proof (parent_lt _ _ Hlayout v ltac:(lia)).
        rewrite !Hl2 by lia. apply Hheap; lia.
    + (* the former last element is not lower: it climbs *)
      destruct (sift_up_spec Fanout PageChunks less Hlayout d (n - 1) l2 h
                  tmp)
        as (l' & -> & Hlen & Hperm & Hframe & Hord); [lia..|].
      exists l'. split; [done|]. split; [lia|].
      split; [by rewrite Hperm|].
      split. { intros u Hu. rewrite Hframe by lia. apply Hl2; lia. }
      split. { rewrite Hframe by lia. unfold l2. apply get_fill_eq. lia. }
      intros Hswo Hheap. apply (Hord Hswo).
      * intros u Hu Hne. pose proof (parent_lt _ _ Hlayout u ltac:(lia)).
        rewrite !Hl2 by lia. apply Hheap; lia.
      * intros u Hu Hpu. pose proof (parent_lt _ _ Hlayout u ltac:(lia)).
        rewrite Hl2 by lia.
        eapply less_neg_trans; [done|apply Hless|].
        rewrite <- Hpu. apply Hheap; lia.
      * intros Hpos u Hu Hpu.
        pose proof (parent_lt _ _ Hlayout u ltac:(lia)).
        pose proof (parent_lt _ _ Hlayout h ltac:(lia)).
        rewrite !Hl2 by lia.
        eapply less_neg_trans; [done|apply Hheap; lia|].
        rewrite <- Hpu. apply Hheap; lia.
  - assert (h = n - 1) as -> by lia.
    exists l. split; [done|]. split; [done|]. split; [done|].
    split; [done|]. split; [done|].
    intros _ Hheap. eapply heap_from_weaken; [| |done]; lia.
Qed.

End Algorithms.

(** * Sorted sequences *)

Section Sorted.
Context {A : Type}.
Variable less : A -> A -> bool.
Context `{!StrictWeakOrder less}.

Local Abbreviation ascending := (ascending less).

Implicit Types (l : list A) (x y : A).

Lemma count_below_perm x l1 l2 :
  l1 ≡ₚ l2 -> count_below less x l1 = count_below less x l2.
Proof. induction 1; simpl; lia. Qed.

Lemma count_below_zero x l :
  Forall (fun y => less y x = false) l -> count_below less x l = 0%nat.
Proof. induction 1 as [|y l Hy _ IH]; simpl; [done|]. by rewrite Hy, IH. Qed.

(** In an ascending sequence the elements below [x] form a prefix. *)
Lemma ascending_lookup_below x l : ascending l ->
  forall (i : nat) a, l !! i = Some a ->
    less a x = true <-> (i < count_below less x l)%nat.
Proof.
  induction 1 as [|b l Hsorted IH Hall]; intros i a Hi; [done|].
  simpl. destruct (less b x) eqn:Hbx.
  - destruct i as [|i]; simpl in Hi.
    + injection Hi as <-. rewrite Hbx. split; [lia|done].
    + rewrite (IH i a Hi). lia.
  - rewrite count_below_zero.
    2:{ eapply Forall_impl; [|exact Hall]. intros y Hy. simpl in Hy.
        eapply less_neg_trans; eauto. }
    destruct i as [|i]; simpl in Hi.
    + injection Hi as <-. rewrite Hbx. split; [done|lia].
    + assert (Ha : less a b = false).
      { rewrite Forall_forall in Hall. apply Hall.
        eapply list_elem_of_In, list_elem_of_lookup_2; eauto. }
      rewrite (less_neg_trans less a b x Ha Hbx). split; [done|lia].
Qed.

(** Two ascending arrangements of the same elements agree, position by
    position, up to equal rank. *)
Lemma ascending_perm_equal_rank l1 l2 :
  ascending l1 -> ascending l2 -> l1 ≡ₚ l2 ->
  Forall2 (equal_rank less) l1 l2.
Proof.
  intros H1 H2 Hperm. apply Forall2_same_length_lookup_2.
  { by apply Permutation_length. }
  intros i a b Ha Hb. split.
  - destruct (less a b) eqn:E; [|done].
    apply (ascending_lookup_below b l1 H1 i a Ha) in E.
    rewrite (count_below_perm b l1 l2 Hperm) in E.
    apply (ascending_lookup_below b l2 H2 i b Hb) in E.
    by rewrite swo_irrefl in E.
  - destruct (less b a) eqn:E; [|done].
    apply (ascending_lookup_below a l2 H2 i b Hb) in E.
    rewrite <- (count_below_perm a l1 l2 Hperm) in E.
    apply (ascending_lookup_below a l1 H1 i a Ha) in E.
    by rewrite swo_irrefl in E.
Qed.

(** When equal rank means equal value the ascending arrangement is unique. *)
Lemma ascending_perm_unique l1 l2 :
  (forall a b, equal_rank less a b -> a = b) ->
  ascending l1 -> ascending l2 -> l1 ≡ₚ l2 -> l1 = l2.
Proof.
  intros Htotal H1 H2 Hperm.
  pose proof (ascending_perm_equal_rank l1 l2 H1 H2 Hperm) as HF.
  induction HF as [|a b l1 l2 Hab _ IH]; [done|].
  apply Htotal in Hab as ->. f_equal.
  inversion H1; inversion H2; subst. apply IH; [done|done|].
  by apply Permutation_cons_inv in Hperm.
Qed.

End Sorted.

(** * Prefixes and suffixes of a range *)

Section Slices.
Context {A : Type}.
Variable d : A.
Local Abbreviation get := (get d).
Implicit Types (l : list A) (n u : Z).

Lemma get_lookup l u :
  0 <= u < Z.of_nat (length l) -> l !! Z.to_nat u = Some (get l u).
Proof.
  intros Hu. pose proof (rd_get d l u Hu) as E. unfold rd in E.
  by rewrite decide_True in E by lia.
Qed.

Lemma elem_of_take_get l n x :
  0 <= n <= Z.of_nat (length l) ->
  x ∈ take (Z.to_nat n) l <-> exists u, 0 <= u < n /\ x = get l u.
Proof.
  intros Hn. rewrite list_elem_of_lookup. split.
  - intros [i Hi]. apply lookup_take_Some in Hi as [Hi Hlt].
    exists (Z.of_nat i). split; [lia|].
    pose proof (get_lookup l (Z.of_nat i)) as E.
    rewrite Nat2Z.id in E. rewrite E in Hi by lia. congruence.
  - intros (u & Hu & ->). exists (Z.to_nat u).
    rewrite lookup_take_lt by lia. apply get_lookup. lia.
Qed.

Lemma elem_of_get l x :
  x ∈ l <-> exists u, 0 <= u < Z.of_nat (length l) /\ x = get l u.
Proof.
  rewrite <- (elem_of_take_get l (Z.of_nat (length l)) x) by lia.
  by rewrite Nat2Z.id, firstn_all.
Qed.

(** A permutation of the whole range that leaves everything from offset
    [n] on untouched permutes the prefix. *)
Lemma frame_take_drop l l' n :
  0 <= n -> length l' = length l -> l' ≡ₚ l ->
  (forall u, n <= u -> get l' u = get l u) ->
  take (Z.to_nat n) l' ≡ₚ take (Z.to_nat n) l /\
  drop (Z.to_nat n) l' = drop (Z.to_nat n) l.
Proof.
  intros Hn Hlen Hperm Hframe.
  assert (Hdrop : drop (Z.to_nat n) l' = drop (Z.to_nat n) l).
  { apply list_eq. intros k. rewrite !lookup_drop.
    destruct (decide (Z.to_nat n + k < length l)%nat) as [Hlt|Hge].
    - pose proof (get_lookup l (Z.of_nat (Z.to_nat n + k))) as E.
      pose proof (get_lookup l' (Z.of_nat (Z.to_nat n + k))) as E'.
      rewrite Nat2Z.id in E, E'. rewrite E, E' by lia.
      f_equal. apply Hframe. lia.
    - rewrite !lookup_ge_None_2 by lia. done. }
  split; [|done].
  apply (Permutation_app_inv_r (drop (Z.to_nat n) l)).
  rewrite <- Hdrop at 1. by rewrite !take_drop.
Qed.

Lemma drop_get l n :
  0 <= n < Z.of_nat (length l) ->
  drop (Z.to_nat n) l = get l n :: drop (Z.to_nat (n + 1)) l.
Proof.
  intros Hn. replace (Z.to_nat (n + 1)) with (S (Z.to_nat n)) by lia.
  apply drop_S. by apply get_lookup.
Qed.

End Slices.

(** * Heap sort *)

Section Sorting.
Context {A : Type}.
Variables Fanout PageChunks : Z.
Variable less : A -> A -> bool.
Hypothesis Hlayout : valid_layout Fanout PageChunks.
Variable d : A.

Local Abbreviation P := (get_parent_index Fanout PageChunks).
Local Abbreviation heap_from := (heap_from Fanout PageChunks less d).
Local Abbreviation get := (get d).
Local Abbreviation ascending := (ascending less).

Implicit Types (l : list A) (u i n : Z) (x y : A).

(** One extraction: the root of the heap [first[0 .. i)] has moved to
    position [i - 1], in front of an ascending suffix that dominates the
    heap. *)
Lemma extraction_extends_suffix l l1 i :
  StrictWeakOrder less ->
  1 <= i <= Z.of_nat (length l) -> i <= SIZE_MAX ->
  length l1 = length l -> l1 ≡ₚ l ->
  (forall u, i <= u -> get l1 u = get l u) ->
  get l1 (i - 1) = get l 0 ->
  heap_from l i 0 ->
  ascending (drop (Z.to_nat i) l) ->
  (forall x y, x ∈ take (Z.to_nat i) l -> y ∈ drop (Z.to_nat i) l ->
     less y x = false) ->
  ascending (drop (Z.to_nat (i - 1)) l1) /\
  (forall x y, x ∈ take (Z.to_nat (i - 1)) l1 ->
     y ∈ drop (Z.to_nat (i - 1)) l1 -> less y x = false).
Proof.
  intros Hswo Hi HiS Hlen1 Hperm1 Hframe1 Hlast Hheap Hsuffix Hle.
  destruct (frame_take_drop d l l1 i) as [Htake Hdrop]; [lia|done..|].
  assert (Hroot : get l 0 ∈ take (Z.to_nat i) l).
  { apply (elem_of_take_get d); [lia|]. exists 0. split; [lia|done]. }
  assert (Hsplit : drop (Z.to_nat (i - 1)) l1
                   = get l 0 :: drop (Z.to_nat i) l).
  { rewrite (drop_get d) by lia. rewrite Hlast.
    replace (i - 1 + 1) with i by lia. by rewrite Hdrop. }
  assert (Hsub : forall x, x ∈ take (Z.to_nat (i - 1)) l1 ->
            x ∈ take (Z.to_nat i) l).
  { intros x Hx. rewrite <- Htake.
    apply (elem_of_take_get d) in Hx as (u & Hu & ->); [|lia].
    apply (elem_of_take_get d); [lia|]. exists u. split; [lia|done]. }
  rewrite Hsplit. split.
  - constructor; [done|].
    apply Forall_forall. intros y Hy%list_elem_of_In. by apply Hle.
  - intros x y Hx Hy. apply elem_of_cons in Hy as [->|Hy].
    + apply Hsub in Hx.
      apply (elem_of_take_get d) in Hx as (u & Hu & ->); [|lia].
      by apply (heap_root_max Fanout PageChunks less Hlayout d l i).
    + apply Hle; [by apply Hsub|done].
Qed.

(** A heap of at most one element in front of a dominating ascending
    suffix: the whole range is ascending. *)
Lemma short_prefix_ascending l i :
  0 <= i <= 1 ->
  ascending (drop (Z.to_nat i) l) ->
  (forall x y, x ∈ take (Z.to_nat i) l -> y ∈ drop (Z.to_nat i) l ->
     less y x = false) ->
  ascending l.
Proof.
  intros Hi Hsuffix Hle.
  destruct (decide (i = 0)) as [->|Hne].
  { by rewrite drop_0 in Hsuffix. }
  assert (i = 1) as -> by lia.
  change (Z.to_nat 1) with 1%nat in *.
  destruct l as [|x l]; [done|]. simpl in *.
  rewrite drop_0 in Hsuffix, Hle. rewrite take_0 in Hle.
  constructor; [done|]. apply Forall_forall.
  intros y Hy%list_elem_of_In. apply Hle; [|done]. by left.
Qed.

Lemma sort_heap_loop_spec fuel : forall l i,
  0 <= i <= Z.of_nat (length l) -> i <= SIZE_MAX ->
  (Z.to_nat i <= fuel)%nat ->
  exists l', sort_heap_loop Fanout PageChunks less fuel l i = Some l' /\
    length l' = length l /\ l' ≡ₚ l /\
    (forall u, i <= u -> get l' u = get l u) /\
    (StrictWeakOrder less -> heap_from l i 0 ->
     ascending (drop (Z.to_nat i) l) ->
     (forall x y, x ∈ take (Z.to_nat i) l -> y ∈ drop (Z.to_nat i) l ->
        less y x = false) ->
     ascending l').
Proof.
  induction fuel as [|fuel IH]; intros l i Hi HiS Hfuel; simpl.
  - assert (i = 0) as -> by lia. simpl.
    exists l. split; [done|]. split; [done|]. split; [done|]. split; [done|].
    intros _ _ Hasc _. by rewrite drop_0 in Hasc.
  - destruct (Z.ltb_spec 1 i) as [Hlt|Hge].
    + destruct (_pop_heap_spec Fanout PageChunks less Hlayout d l i)
        as (l1 & -> & Hlen1 & Hperm1 & Hframe1 & Hlast & Hheap1); [lia..|].
      simpl. rewrite wrap_small by lia.
      destruct (IH l1 (i - 1))
        as (l' & -> & Hlen & Hperm & Hframe & Hasc); [lia..|].
      exists l'. split; [done|]. split; [lia|]. split; [by rewrite Hperm|].
      split. { intros u Hu. rewrite Hframe by lia. by apply Hframe1. }
      intros Hswo Hheap Hsuffix Hle.
      destruct (extraction_extends_suffix l l1 i) as [Hs1 Hle1];
        [done|lia|done..|].
      apply (Hasc Hswo); [by apply Hheap1|done|done].
    + exists l. split; [done|]. split; [done|]. split; [done|].
      split; [done|]. intros _ _. apply short_prefix_ascending. lia.
Qed.

Lemma sort_heap_spec l n :
  0 <= n <= Z.of_nat (length l) -> n <= SIZE_MAX ->
  exists l', sort_heap Fanout PageChunks less l n = Some l' /\
    length l' = length l /\ l' ≡ₚ l /\
    (forall u, n <= u -> get l' u = get l u) /\
    (StrictWeakOrder less -> n = Z.of_nat (length l) -> heap_from l n 0 ->
     ascending l').
Proof.
  intros Hn HnS. unfold sort_heap.
  destruct (sort_heap_loop_spec (Z.to_nat n) l n)
    as (l' & -> & Hlen & Hperm & Hframe & Hasc); [lia..|].
  exists l'. split; [done|]. split; [done|]. split; [done|]. split; [done|].
  intros Hswo -> Hheap. apply (Hasc Hswo); [done| |].
  - rewrite Nat2Z.id, drop_all. constructor.
  - intros x y _ Hy. rewrite Nat2Z.id, drop_all in Hy.
    by apply elem_of_nil in Hy.
Qed.

(** Emptying a heap with any extraction step that moves the root to the end
    of the shrinking range sorts it. *)
Lemma drain_spec (step : list A -> Z -> option (list A)) :
  (forall l i, 1 <= i <= Z.of_nat (length l) -> i <= SIZE_MAX ->
     exists l', step l i = Some l' /\
       length l' = length l /\ l' ≡ₚ l /\
       (forall u, i <= u -> get l' u = get l u) /\
       get l' (i - 1) = get l 0 /\
       (StrictWeakOrder less -> heap_from l i 0 -> heap_from l' (i - 1) 0)) ->
  forall fuel l i,
  0 <= i <= Z.of_nat (length l) -> i <= SIZE_MAX ->
  (Z.to_nat i <= fuel)%nat ->
  exists l', drain step fuel l i = Some l' /\
    length l' = length l /\ l' ≡ₚ l /\
    (StrictWeakOrder less -> heap_from l i 0 ->
     ascending (drop (Z.to_nat i) l) ->
     (forall x y, x ∈ take (Z.to_nat i) l -> y ∈ drop (Z.to_nat i) l ->
        less y x = false) ->
     ascending l').
Proof.
  intros Hstep. induction fuel as [|fuel IH]; intros l i Hi HiS Hfuel; simpl.
  - assert (i = 0) as -> by lia. simpl.
    exists l. split; [done|]. split; [done|]. split; [done|].
    intros _ _ Hasc _. by rewrite drop_0 in Hasc.
  - destruct (Z.ltb_spec 0 i) as [Hlt|Hge].
    + destruct (Hstep l i)
        as (l1 & -> & Hlen1 & Hperm1 & Hframe1 & Hlast & Hheap1); [lia..|].
      simpl.
      destruct (IH l1 (i - 1)) as (l' & -> & Hlen & Hperm & Hasc); [lia..|].
      exists l'. split; [done|]. split; [lia|]. split; [by rewrite Hperm|].
      intros Hswo Hheap Hsuffix Hle.
      destruct (extraction_extends_suffix l l1 i) as [Hs1 Hle1];
        [done|lia|done..|].
      apply (Hasc Hswo); [by apply Hheap1|done|done].
    + exists l. split; [done|]. split; [done|]. split; [done|].
      intros _ _. apply short_prefix_ascending. lia.
Qed.

End Sorting.

(** * Comparators used in the examples *)

Lemma Zltb_swo : StrictWeakOrder Z.ltb.
Proof. split; intros; lia. Qed.

Lemma Zgtb_swo : StrictWeakOrder Z.gtb.
Proof. split; intros; lia. Qed.

Lemma less_by_key_swo : StrictWeakOrder less_by_key.
Proof. unfold less_by_key. split; intros; lia. Qed.

Lemma valid_layout_2_1 : valid_layout 2 1.
Proof. unfold valid_layout, SIZE_MAX. lia. Qed.

Lemma valid_layout_3_2 : valid_layout 3 2.
Proof. unfold valid_layout, SIZE_MAX. lia. Qed.

Lemma valid_layout_4_2 : valid_layout 4 2.
Proof. unfold valid_layout, SIZE_MAX. lia. Qed.

(** * The index mapper (I3, I4) *)

(** C5, as amended: for a layout whose page size fits ([Fanout >= 2],
    [PageChunks >= 1], [Fanout * PageChunks <= SIZE_MAX]), every index [u]
    and every [k] in [0, Fanout): the parent of the [k]-th child of [u] is
    [u], whenever [get_child_index u] is not the sentinel and adding [k]
    does not wrap around. *)
Theorem parent_of_child_group Fanout PageChunks u k :
  valid_layout Fanout PageChunks ->
  0 <= u <= SIZE_MAX -> 0 <= k < Fanout ->
  get_child_index Fanout PageChunks u <> SIZE_MAX ->
  get_child_index Fanout PageChunks u + k <= SIZE_MAX ->
  get_parent_index Fanout PageChunks (get_child_index Fanout PageChunks u + k)
  = u.
Proof.
  intros Hlayout Hu Hk Hc Hck. pose proof Hlayout as (HF & HP & HM).
  destruct (child_min _ _ Hlayout u Hu) as (m & Hm & E & EC).
  assert (0 <= m * Fanout) by nia. pose proof SIZE_MAX_pos.
  assert (EC' : get_child_index Fanout PageChunks u
                = child_ideal Fanout PageChunks u) by lia.
  rewrite (get_parent_index_ideal _ _ Hlayout) by lia.
  rewrite EC'. apply parent_child_ideal; lia.
Qed.

Lemma parent_of_child_group_witness :
  get_parent_index 3 2 (get_child_index 3 2 5 + 1) = 5.
Proof.
  apply parent_of_child_group.
  - exact valid_layout_3_2.
  - unfold SIZE_MAX. lia.
  - lia.
  - vm_compute. discriminate.
  - vm_compute. discriminate.
Defined.

(** C5 fails as stated: [Fanout = 3] and [PageChunks =
    overflowing_page_chunks] are at least 2 and 1, the first child of node
    11 is reported as 46 (no sentinel, no wrap-around), and the parent of
    46 is not 11. *)
Lemma parent_of_child_group_page_size_wraps :
  2 <= 3 /\ 1 <= overflowing_page_chunks /\
  get_child_index 3 overflowing_page_chunks 11 = 46 /\
  46 <> SIZE_MAX /\ 46 + 0 <= SIZE_MAX /\
  get_parent_index 3 overflowing_page_chunks
    (get_child_index 3 overflowing_page_chunks 11 + 0) <> 11.
Proof. vm_compute. repeat split; discriminate. Qed.

(** C6, as amended: for a layout whose page size fits and a parent index
    [u < SIZE_MAX], [get_child_index u] is the sentinel [SIZE_MAX] exactly
    when the true first-child index is at least [SIZE_MAX], and otherwise
    it is the true first-child index, which is then below the sentinel. *)
Theorem child_index_sentinel Fanout PageChunks u :
  valid_layout Fanout PageChunks -> 0 <= u < SIZE_MAX ->
  (get_child_index Fanout PageChunks u = SIZE_MAX <->
   SIZE_MAX <= child_ideal Fanout PageChunks u) /\
  (child_ideal Fanout PageChunks u < SIZE_MAX ->
   get_child_index Fanout PageChunks u = child_ideal Fanout PageChunks u /\
   get_child_index Fanout PageChunks u <> SIZE_MAX).
Proof.
  intros Hlayout Hu.
  rewrite (get_child_index_ideal _ _ Hlayout) by lia. lia.
Qed.

Lemma child_index_sentinel_witness :
  (get_child_index 3 2 5 = SIZE_MAX <-> SIZE_MAX <= child_ideal 3 2 5) /\
  (child_ideal 3 2 5 < SIZE_MAX ->
   get_child_index 3 2 5 = child_ideal 3 2 5 /\
   get_child_index 3 2 5 <> SIZE_MAX).
Proof.
  apply child_index_sentinel.
  - exact valid_layout_3_2.
  - unfold SIZE_MAX. lia.
Defined.

(** C6 fails as stated, twice. In the flat binary layout the first child of
    node [2^63 - 1] is [SIZE_MAX] itself, which is representable, yet the
    value returned is the sentinel. And when the page size wraps, node 1
    gets the sentinel although its first child is 4. *)
Lemma child_index_sentinel_not_exact :
  (9223372036854775807 < SIZE_MAX /\
   ~ (get_child_index 2 1 9223372036854775807 = SIZE_MAX <->
      SIZE_MAX < child_ideal 2 1 9223372036854775807)) /\
  (2 <= 3 /\ 1 <= overflowing_page_chunks /\ 1 < SIZE_MAX /\
   ~ (get_child_index 3 overflowing_page_chunks 1 = SIZE_MAX <->
      SIZE_MAX < child_ideal 3 overflowing_page_chunks 1)).
Proof.
  split.
  - split; [reflexivity|].
    vm_compute. intros [H _]. specialize (H eq_refl). discriminate.
  - split; [lia|]. split; [unfold overflowing_page_chunks; lia|].
    split; [reflexivity|].
    vm_compute. intros [H _]. specialize (H eq_refl). discriminate.
Qed.

(** * The heap algorithms *)

(** C1, as amended: for every layout whose page size fits ([Fanout >= 2],
    [PageChunks >= 1], [Fanout * PageChunks <= SIZE_MAX]), every range and
    every strict weak order satisfying the operation's precondition, each
    heap-mutating operation returns and leaves [is_heap] true over the
    affected range: the full range for [make_heap], [push_heap] and
    [restore_heap_after_item_decrease], the range minus its last element
    for [pop_heap] and [remove_from_heap], the range through [item] for
    [restore_heap_after_item_increase]. *)
Theorem heap_property_restored {A : Type} Fanout PageChunks
    (less : A -> A -> bool) (first : list A) (last : Z) :
  valid_layout Fanout PageChunks -> StrictWeakOrder less ->
  last = Z.of_nat (length first) -> last <= SIZE_MAX ->
  (exists first',
     make_heap Fanout PageChunks less first last = Some first' /\
     is_heap Fanout PageChunks less first' last = Some true) /\
  (1 <= last ->
   is_heap Fanout PageChunks less first (last - 1) = Some true ->
   exists first',
     push_heap Fanout PageChunks less first last = Some first' /\
     is_heap Fanout PageChunks less first' last = Some true) /\
  (1 <= last ->
   is_heap Fanout PageChunks less first last = Some true ->
   exists first',
     pop_heap Fanout PageChunks less first last = Some first' /\
     is_heap Fanout PageChunks less first' (last - 1) = Some true) /\
  (forall item, 0 <= item < last ->
   is_heap Fanout PageChunks less first last = Some true ->
   exists first',
     remove_from_heap Fanout PageChunks less first item last = Some first' /\
     is_heap Fanout PageChunks less first' (last - 1) = Some true) /\
  (forall item, 0 <= item < last ->
   is_heap Fanout PageChunks less first item = Some true ->
   exists first',
     restore_heap_after_item_increase Fanout PageChunks less first item
     = Some first' /\
     is_heap Fanout PageChunks less first' (item + 1) = Some true) /\
  (forall item old_item new_item, 0 <= item < last ->
   rd first item = Some new_item -> less new_item old_item = true ->
   is_heap Fanout PageChunks less (fill first item old_item) last
   = Some true ->
   exists first',
     restore_heap_after_item_decrease Fanout PageChunks less first item last
     = Some first' /\
     is_heap Fanout PageChunks less first' last = Some true).
Proof.
  intros Hlayout Hswo Hlast HS.
  assert (Hd : first = [] \/ exists d : A, True) by (destruct first; eauto).
  destruct Hd as [->|[d _]].
  { (* the empty range *)
    simpl in Hlast. subst last.
    split; [exists []; by split|].
    repeat split; intros; lia. }
  split; [|split; [|split; [|split; [|split]]]].
  - destruct (make_heap_spec Fanout PageChunks less Hlayout d first last)
      as (first' & -> & Hlen & _ & _ & Hheap); [lia..|].
    exists first'. split; [done|].
    apply (is_heap_true _ _ _ Hlayout d); [lia|lia|auto].
  - intros Hpos Hpre.
    destruct (push_heap_spec Fanout PageChunks less Hlayout d first last)
      as (first' & -> & Hlen & _ & _ & Hheap); [lia..|].
    exists first'. split; [done|].
    apply (is_heap_true _ _ _ Hlayout d); [lia|lia|].
    apply Hheap; [done|].
    apply (is_heap_true _ _ _ Hlayout d) in Hpre; [done|lia|lia].
  - intros Hpos Hpre.
    destruct (pop_heap_spec Fanout PageChunks less Hlayout d first last)
      as (first' & -> & Hlen & _ & _ & _ & Hheap); [lia..|].
    exists first'. split; [done|].
    apply (is_heap_true _ _ _ Hlayout d); [lia|lia|].
    apply Hheap; [done|].
    apply (is_heap_true _ _ _ Hlayout d) in Hpre; [done|lia|lia].
  - intros item Hitem Hpre.
    destruct (remove_from_heap_spec Fanout PageChunks less Hlayout d first
                item last) as (first' & -> & Hlen & _ & _ & _ & Hheap);
      [lia..|].
    exists first'. split; [done|].
    apply (is_heap_true _ _ _ Hlayout d); [lia|lia|].
    apply Hheap; [done|].
    apply (is_heap_true _ _ _ Hlayout d) in Hpre; [done|lia|lia].
  - intros item Hitem Hpre.
    destruct (restore_heap_after_item_increase_spec Fanout PageChunks less
                Hlayout d first item)
      as (first' & -> & Hlen & _ & _ & Hheap); [lia..|].
    exists first'. split; [done|].
    apply (is_heap_true _ _ _ Hlayout d); [lia|lia|].
    apply Hheap; [done|].
    apply (is_heap_true _ _ _ Hlayout d) in Hpre; [done|lia|lia].
  - intros item old_item new_item Hitem Hnew Hless Hpre.
    destruct (restore_heap_after_item_decrease_spec Fanout PageChunks less
                Hlayout d first item last)
      as (first' & -> & Hlen & _ & _ & Hheap); [lia..|].
    exists first'. split; [done|].
    apply (is_heap_true _ _ _ Hlayout d); [lia|lia|].
    apply (is_heap_true _ _ _ Hlayout d) in Hpre;
      [|rewrite length_fill; lia|lia].
    rewrite (rd_get d) in Hnew by lia. injection Hnew as Hnew.
    assert (Hold : less old_item (get d first item) = false)
      by (rewrite Hnew; by apply less_asym).
    apply Hheap; [done| | |].
    + intros u Hu Hne Hpne.
      pose proof (parent_lt _ _ Hlayout u ltac:(lia)) as Hp.
      specialize (Hpre u Hu ltac:(lia)).
      by rewrite !get_fill_ne in Hpre by lia.
    + intros Hpos.
      pose proof (parent_lt _ _ Hlayout item ltac:(lia)) as Hp.
      specialize (Hpre item ltac:(lia) ltac:(lia)).
      rewrite get_fill_ne, get_fill_eq in Hpre by lia.
      eapply less_neg_trans; eauto.
    + intros Hpos u Hu Hpu.
      pose proof (parent_lt _ _ Hlayout item ltac:(lia)) as Hp.
      pose proof (parent_lt _ _ Hlayout u ltac:(lia)) as Hp'.
      pose proof (Hpre item ltac:(lia) ltac:(lia)) as H1.
      pose proof (Hpre u Hu ltac:(lia)) as H2.
      rewrite get_fill_ne, get_fill_eq in H1 by lia.
      rewrite Hpu, get_fill_eq, get_fill_ne in H2 by lia.
      eapply less_neg_trans; eauto.
Qed.

Lemma heap_property_restored_witness :
  exists first',
    make_heap 3 2 Z.ltb [5; 3; 1; 9; 7; 4; 8; 2; 6] 9 = Some first' /\
    is_heap 3 2 Z.ltb first' 9 = Some true.
Proof.
  destruct (heap_property_restored 3 2 Z.ltb [5; 3; 1; 9; 7; 4; 8; 2; 6] 9)
    as [H _].
  - exact valid_layout_3_2.
  - exact Zltb_swo.
  - reflexivity.
  - vm_compute. discriminate.
  - exact H.
Defined.

(** C1 fails as stated: [Fanout = 3 >= 2] and [PageChunks =
    overflowing_page_chunks >= 1], and [make_heap] over the five integers
    5 3 1 9 7 returns a range on which [is_heap] is false (node 4 is
    larger than its parent, node 1). *)
Lemma make_heap_page_size_wraps :
  2 <= 3 /\ 1 <= overflowing_page_chunks /\ StrictWeakOrder Z.ltb /\
  make_heap 3 overflowing_page_chunks Z.ltb [5; 3; 1; 9; 7] 5
  = Some [9; 3; 1; 5; 7] /\
  is_heap 3 overflowing_page_chunks Z.ltb [9; 3; 1; 5; 7] 5 = Some false.
Proof.
  split; [lia|]. split; [unfold overflowing_page_chunks; lia|].
  split; [exact Zltb_swo|]. split; vm_compute; reflexivity.
Qed.

(** C7: if [first, last) is a valid max-heap of more than one element, then
    [pop_heap] returns, [first, last - 1) is a valid max-heap, and
    [*(last - 1)] holds the former root, a maximum of the original
    range. *)
Theorem pop_heap_moves_maximum_last {A : Type} Fanout PageChunks
    (less : A -> A -> bool) (first : list A) (last : Z) :
  valid_layout Fanout PageChunks -> StrictWeakOrder less ->
  last = Z.of_nat (length first) -> last <= SIZE_MAX -> 1 < last ->
  is_heap Fanout PageChunks less first last = Some true ->
  exists first' maximum,
    pop_heap Fanout PageChunks less first last = Some first' /\
    is_heap Fanout PageChunks less first' (last - 1) = Some true /\
    rd first' (last - 1) = Some maximum /\
    rd first 0 = Some maximum /\
    maximum ∈ first /\
    (forall x, x ∈ first -> less maximum x = false).
Proof.
  intros Hlayout Hswo Elast HS Hlast Hpre.
  assert (Hd : exists d : A, True)
    by (destruct first; [simpl in *; lia|eauto]).
  destruct Hd as [d _].
  apply (is_heap_true _ _ _ Hlayout d) in Hpre; [|lia..].
  destruct (pop_heap_spec Fanout PageChunks less Hlayout d first last)
    as (first' & -> & Hlen & _ & _ & Hmoved & Hheap); [lia..|].
  exists first', (get d first 0). split; [done|].
  split. { apply (is_heap_true _ _ _ Hlayout d); [lia|lia|auto]. }
  split. { rewrite (rd_get d) by lia. by rewrite Hmoved. }
  split. { apply rd_get. lia. }
  split. { apply get_elem_of. lia. }
  intros x (u & Hu & ->)%(elem_of_get d).
  apply (heap_root_max Fanout PageChunks less Hlayout d first last); auto.
  lia.
Qed.

Lemma pop_heap_moves_maximum_last_witness :
  exists first' maximum,
    pop_heap 2 1 Z.ltb [9; 7; 8; 3; 5] 5 = Some first' /\
    is_heap 2 1 Z.ltb first' (5 - 1) = Some true /\
    rd first' (5 - 1) = Some maximum /\
    rd [9; 7; 8; 3; 5] 0 = Some maximum /\
    maximum ∈ [9; 7; 8; 3; 5] /\
    (forall x, x ∈ [9; 7; 8; 3; 5] -> (maximum <? x) = false).
Proof.
  apply (pop_heap_moves_maximum_last 2 1 Z.ltb [9; 7; 8; 3; 5]).
  - exact valid_layout_2_1.
  - exact Zltb_swo.
  - reflexivity.
  - vm_compute. discriminate.
  - lia.
  - vm_compute. reflexivity.
Defined.

(** C8: in [_move_up_max_child], the child moved into the hole is a maximum
    of the child group, and among children of equal rank it is the
    later-indexed one: no child of the same rank as the selected child has
    a larger index. *)
Theorem max_child_tie_break {A : Type} (less : A -> A -> bool)
    (first : list A) (children_count hole_index child_index : Z) :
  StrictWeakOrder less ->
  1 <= children_count -> 0 <= child_index ->
  child_index + children_count <= Z.of_nat (length first) ->
  Z.of_nat (length first) <= SIZE_MAX ->
  0 <= hole_index < Z.of_nat (length first) ->
  exists j selected,
    0 <= j < children_count /\
    rd first (child_index + j) = Some selected /\
    _move_up_max_child less first children_count hole_index child_index
    = Some (fill first hole_index selected, child_index + j) /\
    (forall i c, 0 <= i < children_count ->
       rd first (child_index + i) = Some c -> less selected c = false) /\
    (forall i c, 0 <= i < children_count ->
       rd first (child_index + i) = Some c ->
       equal_rank less c selected -> i <= j).
Proof.
  intros Hswo Hcount Hchild Hlen HS Hhole.
  assert (Hd : exists d : A, True)
    by (destruct first; [simpl in *; lia|eauto]).
  destruct Hd as [d _].
  destruct (move_up_max_child_spec less d first children_count hole_index
              child_index) as (j & E & Hj & Hpost); [lia..|].
  destruct (Hpost Hswo) as [Hmax Hlater].
  exists j, (get d first (child_index + j)).
  split; [done|]. split; [apply rd_get; lia|]. split; [done|].
  split.
  - intros i c Hi Hc. rewrite (rd_get d) in Hc by lia.
    injection Hc as <-. by apply Hmax.
  - intros i c Hi Hc [Hrank _]. rewrite (rd_get d) in Hc by lia.
    injection Hc as <-.
    destruct (Z_le_gt_dec i j) as [|Hgt]; [done|].
    rewrite Hlater in Hrank by lia. done.
Qed.

Lemma max_child_tie_break_witness :
  exists j selected,
    0 <= j < 3 /\
    rd [(9, 0); (4, 1); (7, 2); (7, 3)] (1 + j) = Some selected /\
    _move_up_max_child less_by_key [(9, 0); (4, 1); (7, 2); (7, 3)] 3 0 1
    = Some (fill [(9, 0); (4, 1); (7, 2); (7, 3)] 0 selected, 1 + j) /\
    (forall i c, 0 <= i < 3 ->
       rd [(9, 0); (4, 1); (7, 2); (7, 3)] (1 + i) = Some c ->
       less_by_key selected c = false) /\
    (forall i c, 0 <= i < 3 ->
       rd [(9, 0); (4, 1); (7, 2); (7, 3)] (1 + i) = Some c ->
       equal_rank less_by_key c selected -> i <= j).
Proof.
  apply (max_child_tie_break less_by_key [(9, 0); (4, 1); (7, 2); (7, 3)]).
  - exact less_by_key_swo.
  - lia.
  - lia.
  - vm_compute. discriminate.
  - vm_compute. discriminate.
  - vm_compute. split; [discriminate|reflexivity].
Defined.

(** C10: every mutating operation returns a permutation of its range; so
    does every sift, counting the held-out item in place of the value left
    in the hole. *)
Theorem mutations_permute_range {A : Type} Fanout PageChunks
    (less : A -> A -> bool) (first : list A) (last : Z) :
  valid_layout Fanout PageChunks ->
  last = Z.of_nat (length first) -> last <= SIZE_MAX ->
  (exists first', make_heap Fanout PageChunks less first last = Some first' /\
     first' ≡ₚ first) /\
  (exists first', push_heap Fanout PageChunks less first last = Some first' /\
     first' ≡ₚ first) /\
  (exists first', pop_heap Fanout PageChunks less first last = Some first' /\
     first' ≡ₚ first) /\
  (exists first', sort_heap Fanout PageChunks less first last = Some first' /\
     first' ≡ₚ first) /\
  (forall item, 0 <= item < last ->
   exists first',
     restore_heap_after_item_increase Fanout PageChunks less first item
     = Some first' /\ first' ≡ₚ first) /\
  (forall item, 0 <= item < last ->
   exists first',
     restore_heap_after_item_decrease Fanout PageChunks less first item last
     = Some first' /\ first' ≡ₚ first) /\
  (forall item, 0 <= item < last ->
   exists first',
     remove_from_heap Fanout PageChunks less first item last = Some first' /\
     first' ≡ₚ first) /\
  (forall hole_index item, 0 <= hole_index < last ->
   exists first',
     _sift_up Fanout PageChunks less first 0 hole_index item = Some first' /\
     first' ≡ₚ fill first hole_index item) /\
  (forall hole_index item, 0 <= hole_index < last ->
   exists first',
     _sift_down Fanout PageChunks less first last hole_index item
     = Some first' /\
     first' ≡ₚ fill first hole_index item).
Proof.
  intros Hlayout Hlast HS.
  assert (Hd : first = [] \/ exists d : A, True) by (destruct first; eauto).
  destruct Hd as [->|[d _]].
  { simpl in Hlast. subst last.
    repeat (split; [by exists []|]).
    repeat split; intros; lia. }
  repeat split.
  - destruct (make_heap_spec Fanout PageChunks less Hlayout d first last)
      as (first' & ? & _ & ? & _); [lia..|]. eauto.
  - destruct (push_heap_spec Fanout PageChunks less Hlayout d first last)
      as (first' & ? & _ & ? & _); [lia..|]. eauto.
  - destruct (decide (last = 0)) as [E|Hne].
    { exists first. rewrite E. by split. }
    destruct (pop_heap_spec Fanout PageChunks less Hlayout d first last)
      as (first' & ? & _ & ? & _); [lia..|]. eauto.
  - destruct (sort_heap_spec Fanout PageChunks less Hlayout d first last)
      as (first' & ? & _ & ? & _); [lia..|]. eauto.
  - intros item Hitem.
    destruct (restore_heap_after_item_increase_spec Fanout PageChunks less
                Hlayout d first item) as (first' & ? & _ & ? & _); [lia..|].
    eauto.
  - intros item Hitem.
    destruct (restore_heap_after_item_decrease_spec Fanout PageChunks less
                Hlayout d first item last) as (first' & ? & _ & ? & _);
      [lia..|]. eauto.
  - intros item Hitem.
    destruct (remove_from_heap_spec Fanout PageChunks less Hlayout d first
                item last) as (first' & ? & _ & ? & _); [lia..|]. eauto.
  - intros hole_index item Hhole.
    destruct (sift_up_spec Fanout PageChunks less Hlayout d last first
                hole_index item) as (first' & ? & _ & ? & _); [lia..|].
    eauto.
  - intros hole_index item Hhole.
    destruct (sift_down_spec Fanout PageChunks less Hlayout d last first
                hole_index item) as (first' & ? & _ & ? & _); [lia..|].
    eauto.
Qed.

Lemma mutations_permute_range_witness :
  exists first',
    sort_heap 3 2 Z.ltb [9; 7; 8; 3; 5; 1; 6] 7 = Some first' /\
    first' ≡ₚ [9; 7; 8; 3; 5; 1; 6].
Proof.
  destruct (mutations_permute_range 3 2 Z.ltb [9; 7; 8; 3; 5; 1; 6] 7)
    as (_ & _ & _ & H & _).
  - exact valid_layout_3_2.
  - reflexivity.
  - vm_compute. discriminate.
  - exact H.
Defined.

(** C2: [make_heap] followed by [sort_heap] arranges the sequence in
    ascending order: the result is an ascending permutation of the input,
    it agrees rank by rank with any reference sort of the input, and it is
    that very sequence when equal rank means equal value. The comparator is
    any strict weak order, a reversed one included. *)
Theorem make_heap_sort_heap_sorts {A : Type} Fanout PageChunks
    (less : A -> A -> bool) (first : list A) (last : Z) :
  valid_layout Fanout PageChunks -> StrictWeakOrder less ->
  last = Z.of_nat (length first) -> last <= SIZE_MAX ->
  exists heap sorted,
    make_heap Fanout PageChunks less first last = Some heap /\
    sort_heap Fanout PageChunks less heap last = Some sorted /\
    sorted ≡ₚ first /\ ascending less sorted /\
    (forall reference,
       reference ≡ₚ first -> ascending less reference ->
       Forall2 (equal_rank less) sorted reference /\
       ((forall a b, equal_rank less a b -> a = b) -> sorted = reference)).
Proof.
  intros Hlayout Hswo Hlast HS.
  assert (Hd : first = [] \/ exists d : A, True) by (destruct first; eauto).
  destruct Hd as [->|[d _]].
  { simpl in Hlast. subst last.
    exists [], []. split; [done|]. split; [done|]. split; [done|].
    split; [constructor|].
    intros reference Hperm%Permutation_nil_r _. subst. by split. }
  destruct (make_heap_spec Fanout PageChunks less Hlayout d first last)
    as (heap & E1 & Hlen & Hperm & _ & Hheap); [lia..|].
  destruct (sort_heap_spec Fanout PageChunks less Hlayout d heap last)
    as (sorted & E2 & Hlen' & Hperm' & _ & Hasc); [lia..|].
  exists heap, sorted. split; [done|]. split; [done|].
  assert (Hsorted : ascending less sorted) by (apply Hasc; auto; lia).
  split; [by rewrite Hperm'|]. split; [done|].
  intros reference Href Hrefasc.
  assert (Hsr : sorted ≡ₚ reference) by (by rewrite Hperm', Hperm, Href).
  split.
  - by apply ascending_perm_equal_rank.
  - intros Htotal. by apply (ascending_perm_unique less).
Qed.

Lemma make_heap_sort_heap_sorts_witness :
  exists heap sorted,
    make_heap 4 2 Z.gtb [5; 3; 1; 9; 7; 4; 8; 2; 6; 3] 10 = Some heap /\
    sort_heap 4 2 Z.gtb heap 10 = Some sorted /\
    sorted ≡ₚ [5; 3; 1; 9; 7; 4; 8; 2; 6; 3] /\ ascending Z.gtb sorted /\
    (forall reference,
       reference ≡ₚ [5; 3; 1; 9; 7; 4; 8; 2; 6; 3] ->
       ascending Z.gtb reference ->
       Forall2 (equal_rank Z.gtb) sorted reference /\
       ((forall a b, equal_rank Z.gtb a b -> a = b) -> sorted = reference)).
Proof.
  apply (make_heap_sort_heap_sorts 4 2 Z.gtb [5; 3; 1; 9; 7; 4; 8; 2; 6; 3]).
  - exact valid_layout_4_2.
  - exact Zgtb_swo.
  - reflexivity.
  - vm_compute. discriminate.
Defined.

(** ** Removal *)

Section Removal.
Context {A : Type}.
Variables Fanout PageChunks : Z.
Variable less : A -> A -> bool.
Hypothesis Hlayout : valid_layout Fanout PageChunks.
Hypothesis Hswo : StrictWeakOrder less.
Variable d : A.

Lemma remove_all_sorts (first : list A) :
  Z.of_nat (length first) <= SIZE_MAX ->
  heap_from Fanout PageChunks less d first (Z.of_nat (length first)) 0 ->
  exists removed,
    remove_all Fanout PageChunks less first (Z.of_nat (length first))
    = Some removed /\
    removed ≡ₚ first /\ ascending less removed.
Proof.
  intros HS Hheap. unfold remove_all.
  destruct (drain_spec Fanout PageChunks less Hlayout d
              (fun first i =>
                 remove_from_heap Fanout PageChunks less first 0 i)
              ltac:(intros l i Hi HiS;
                    apply (remove_from_heap_spec _ _ _ Hlayout d); lia)
              (Z.to_nat (Z.of_nat (length first))) first
              (Z.of_nat (length first)))
    as (removed & -> & _ & Hperm & Hasc); [lia..|].
  exists removed. split; [done|]. split; [done|].
  apply Hasc; [done|done| |].
  - rewrite Nat2Z.id, drop_all. constructor.
  - intros x y _ Hy. rewrite Nat2Z.id, drop_all in Hy.
    by apply elem_of_nil in Hy.
Qed.

Lemma pop_all_sorts (first : list A) :
  Z.of_nat (length first) <= SIZE_MAX ->
  heap_from Fanout PageChunks less d first (Z.of_nat (length first)) 0 ->
  exists popped,
    pop_all Fanout PageChunks less first (Z.of_nat (length first))
    = Some popped /\
    popped ≡ₚ first /\ ascending less popped.
Proof.
  intros HS Hheap. unfold pop_all.
  destruct (drain_spec Fanout PageChunks less Hlayout d
              (pop_heap Fanout PageChunks less)
              ltac:(intros l i Hi HiS;
                    apply (pop_heap_spec _ _ _ Hlayout d); lia)
              (Z.to_nat (Z.of_nat (length first))) first
              (Z.of_nat (length first)))
    as (popped & -> & _ & Hperm & Hasc); [lia..|].
  exists popped. split; [done|]. split; [done|].
  apply Hasc; [done|done| |].
  - rewrite Nat2Z.id, drop_all. constructor.
  - intros x y _ Hy. rewrite Nat2Z.id, drop_all in Hy.
    by apply elem_of_nil in Hy.
Qed.

End Removal.

(** C9, as amended: starting from any valid max-heap, removing all elements
    one at a time with [remove_from_heap] at index 0 and popping them all
    with [pop_heap] produce sequences that agree rank by rank; they are the
    same sequence when the comparator gives equal rank to equal values
    only. *)
Theorem remove_all_matches_pop_all {A : Type} Fanout PageChunks
    (less : A -> A -> bool) (first : list A) (last : Z) :
  valid_layout Fanout PageChunks -> StrictWeakOrder less ->
  last = Z.of_nat (length first) -> last <= SIZE_MAX ->
  is_heap Fanout PageChunks less first last = Some true ->
  exists removed popped,
    remove_all Fanout PageChunks less first last = Some removed /\
    pop_all Fanout PageChunks less first last = Some popped /\
    Forall2 (equal_rank less) removed popped /\
    ((forall a b, equal_rank less a b -> a = b) -> removed = popped).
Proof.
  intros Hlayout Hswo Hlast HS Hpre.
  assert (Hd : first = [] \/ exists d : A, True) by (destruct first; eauto).
  destruct Hd as [->|[d _]].
  { simpl in Hlast. subst last. exists [], []. repeat split; constructor. }
  subst last.
  apply (is_heap_true _ _ _ Hlayout d) in Hpre; [|lia..].
  destruct (remove_all_sorts Fanout PageChunks less Hlayout Hswo d first)
    as (removed & E1 & Hperm1 & Hasc1); [done..|].
  destruct (pop_all_sorts Fanout PageChunks less Hlayout Hswo d first)
    as (popped & E2 & Hperm2 & Hasc2); [done..|].
  exists removed, popped. split; [done|]. split; [done|].
  assert (Hperm : removed ≡ₚ popped) by (by rewrite Hperm1, Hperm2).
  split.
  - by apply ascending_perm_equal_rank.
  - intros Htotal. by apply (ascending_perm_unique less).
Qed.

Lemma remove_all_matches_pop_all_witness :
  exists removed popped,
    remove_all 2 1 Z.ltb [9; 7; 9; 3; 7; 9] 6 = Some removed /\
    pop_all 2 1 Z.ltb [9; 7; 9; 3; 7; 9] 6 = Some popped /\
    Forall2 (equal_rank Z.ltb) removed popped /\
    ((forall a b, equal_rank Z.ltb a b -> a = b) -> removed = popped).
Proof.
  apply (remove_all_matches_pop_all 2 1 Z.ltb [9; 7; 9; 3; 7; 9]).
  - exact valid_layout_2_1.
  - exact Zltb_swo.
  - reflexivity.
  - vm_compute. discriminate.
  - vm_compute. reflexivity.
Defined.

(** C9 fails as stated: under the strict weak order that compares pairs by
    their first component, the heap of three pairs of equal rank is emptied
    into different sequences by the two procedures. *)
Lemma remove_all_differs_from_pop_all :
  StrictWeakOrder less_by_key /\
  is_heap 2 1 less_by_key [(5, 0); (5, 1); (5, 2)] 3 = Some true /\
  remove_all 2 1 less_by_key [(5, 0); (5, 1); (5, 2)] 3
  = Some [(5, 1); (5, 2); (5, 0)] /\
  pop_all 2 1 less_by_key [(5, 0); (5, 1); (5, 2)] 3
  = Some [(5, 2); (5, 1); (5, 0)] /\
  remove_all 2 1 less_by_key [(5, 0); (5, 1); (5, 2)] 3
  <> pop_all 2 1 less_by_key [(5, 0); (5, 1); (5, 2)] 3.
Proof.
  split; [exact less_by_key_swo|].
  vm_compute. repeat split; discriminate.
Qed.

(** C4, as amended: when the removed item is not at the last position,
    [remove_from_heap] takes the last element's value as a temporary, puts
    the removed item's value into the last slot, and sifts the temporary
    down from the removed item's position exactly when the temporary ranks
    lower than the removed value now at the tail; otherwise it sifts the
    temporary up towards the root. The removed value stays in the last
    slot. *)
Theorem remove_from_heap_direction {A : Type} Fanout PageChunks
    (less : A -> A -> bool) (first : list A) (item last : Z)
    (tmp removed : A) :
  0 <= item < last - 1 -> last <= Z.of_nat (length first) ->
  last <= SIZE_MAX ->
  rd first (last - 1) = Some tmp -> rd first item = Some removed ->
  remove_from_heap Fanout PageChunks less first item last
  = (if less tmp removed
     then _sift_down Fanout PageChunks less (fill first (last - 1) removed)
            (last - 1) item tmp
     else _sift_up Fanout PageChunks less (fill first (last - 1) removed)
            0 item tmp) /\
  (valid_layout Fanout PageChunks ->
   exists first',
     remove_from_heap Fanout PageChunks less first item last = Some first' /\
     rd first' (last - 1) = Some removed).
Proof.
  intros Hitem Hlen HS Htmp Hremoved. split.
  - unfold remove_from_heap. rewrite wrap_small by lia.
    destruct (Z.ltb_spec item (last - 1)); [|lia].
    rewrite Htmp, Hremoved. simpl. rewrite wr_fill by lia. simpl.
    rewrite (rd_get removed) by (rewrite length_fill; lia). simpl.
    by rewrite get_fill_eq by lia.
  - intros Hlayout.
    destruct (remove_from_heap_spec Fanout PageChunks less Hlayout removed
                first item last) as (first' & -> & Hlen' & _ & _ & E & _);
      [lia..|].
    exists first'. split; [done|].
    rewrite (rd_get removed) by lia. rewrite E.
    rewrite (rd_get removed) in Hremoved by lia. done.
Qed.

Lemma remove_from_heap_direction_witness :
  remove_from_heap 2 1 Z.ltb [10; 5; 9; 1; 2; 8; 7] 3 7
  = (if 7 <? 1
     then _sift_down 2 1 Z.ltb (fill [10; 5; 9; 1; 2; 8; 7] (7 - 1) 1)
            (7 - 1) 3 7
     else _sift_up 2 1 Z.ltb (fill [10; 5; 9; 1; 2; 8; 7] (7 - 1) 1) 0 3 7) /\
  (valid_layout 2 1 ->
   exists first',
     remove_from_heap 2 1 Z.ltb [10; 5; 9; 1; 2; 8; 7] 3 7 = Some first' /\
     rd first' (7 - 1) = Some 1).
Proof.
  apply remove_from_heap_direction.
  - lia.
  - vm_compute. discriminate.
  - vm_compute. discriminate.
  - reflexivity.
  - reflexivity.
Defined.

(** C4 fails as stated: in the heap 10 5 9 1 2 8 7, removing the item at
    index 3 makes 7 the temporary and puts 1 in the tail slot. The
    temporary ranks higher than the tail value, yet the code sifts it up
    (7 climbs above 5); sifting it down, as the claim words it, gives
    another range, which is not a heap. *)
Lemma remove_from_heap_sifts_up_higher_temporary :
  is_heap 2 1 Z.ltb [10; 5; 9; 1; 2; 8; 7] 7 = Some true /\
  (1 <? 7) = true /\
  remove_from_heap 2 1 Z.ltb [10; 5; 9; 1; 2; 8; 7] 3 7
  = _sift_up 2 1 Z.ltb (fill [10; 5; 9; 1; 2; 8; 7] 6 1) 0 3 7 /\
  remove_from_heap 2 1 Z.ltb [10; 5; 9; 1; 2; 8; 7] 3 7
  = Some [10; 7; 9; 5; 2; 8; 1] /\
  remove_from_heap_as_specified 2 1 Z.ltb [10; 5; 9; 1; 2; 8; 7] 3 7
  = Some [10; 5; 9; 7; 2; 8; 1] /\
  is_heap 2 1 Z.ltb [10; 5; 9; 7; 2; 8; 1] 6 = Some false.
Proof. vm_compute. repeat split. Qed.

(** * N-way merge *)

Section NwayMerge.
Context {A : Type}.
Variables Fanout PageChunks : Z.
Variable less : A -> A -> bool.
Hypothesis Hlayout : valid_layout Fanout PageChunks.
Context `{!StrictWeakOrder less}.

Local Abbreviation nway_less := (_nway_merge_less_comparer less).
Local Abbreviation P := (get_parent_index Fanout PageChunks).
Local Abbreviation ranges_heap :=
  (heap_from Fanout PageChunks nway_less []).
Local Abbreviation range_at := (get (A:=list A) []).
Local Abbreviation ascending := (ascending less).

Implicit Types (first : list (list A)) (r : list A) (x y : A) (u last : Z).

(** The inverted comparison of front elements is a strict weak order on
    range descriptors. *)
Lemma nway_less_swo : StrictWeakOrder nway_less.
Proof.
  split.
  - intros [|a ra]; simpl; [done|apply swo_irrefl].
  - intros [|a ra] [|b rb] [|c rc]; simpl; try done.
    intros Hba Hcb. eapply swo_trans; eauto.
  - intros [|a ra] [|b rb] [|c rc]; simpl; try done.
    intros Hba Hab Hcb Hbc.
    destruct (swo_incomp_trans c b a); auto.
Qed.

Lemma concat_join first : concat first = mjoin first.
Proof. induction first as [|r first IH]; simpl; [done|by rewrite IH]. Qed.

Lemma concat_perm first first' : first ≡ₚ first' -> concat first ≡ₚ concat first'.
Proof. intros E. by rewrite !concat_join, E. Qed.

Lemma elem_of_concat_range first y :
  y ∈ concat first <->
  exists u, 0 <= u < Z.of_nat (length first) /\ y ∈ range_at first u.
Proof.
  rewrite concat_join, list_elem_of_join. split.
  - intros (r & Hy & (u & Hu & ->)%(elem_of_get [])). eauto.
  - intros (u & Hu & Hy). exists (range_at first u). split; [done|].
    apply (elem_of_get []). eauto.
Qed.

Lemma ascending_snoc (l : list A) x :
  ascending l -> (forall z, z ∈ l -> less x z = false) -> ascending (l ++ [x]).
Proof.
  induction 1 as [|a l Hsorted IH Hall]; intros Hx; simpl.
  - repeat constructor.
  - constructor.
    + apply IH. intros z Hz. apply Hx. by right.
    + apply Forall_app. split; [done|].
      constructor; [|done]. apply Hx. by left.
Qed.

(** A permutation of the descriptors that leaves those from [last] on
    untouched keeps any property of the descriptors before [last]. *)
Lemma prefix_property_preserved (Q : list A -> Prop) first first' last :
  0 <= last <= Z.of_nat (length first) ->
  length first' = length first -> first' ≡ₚ first ->
  (forall u, last <= u -> range_at first' u = range_at first u) ->
  (forall u, 0 <= u < last -> Q (range_at first u)) ->
  forall u, 0 <= u < last -> Q (range_at first' u).
Proof.
  intros Hlast Hlen Hperm Hframe HQ u Hu.
  destruct (frame_take_drop [] first first' last) as [Htake _]; [lia|done..|].
  assert (Hin : range_at first' u ∈ take (Z.to_nat last) first').
  { apply (elem_of_take_get []); [lia|]. eauto. }
  rewrite Htake in Hin.
  apply (elem_of_take_get []) in Hin as (u' & Hu' & ->); [|lia].
  by apply HQ.
Qed.

(** The front of the root range is a minimum of everything that remains. *)
Lemma root_front_minimum first last x rest :
  1 <= last <= Z.of_nat (length first) -> last <= SIZE_MAX ->
  ranges_heap first last 0 ->
  (forall u, 0 <= u < last ->
     range_at first u <> [] /\ ascending (range_at first u)) ->
  (forall u, last <= u -> range_at first u = []) ->
  range_at first 0 = x :: rest ->
  forall y, y ∈ concat first -> less y x = false.
Proof.
  intros Hlast HS Hheap Hlive Hdead Hroot y
    (u & Hu & Hy)%elem_of_concat_range.
  destruct (Z_lt_ge_dec u last) as [Hlt|Hge].
  2:{ rewrite Hdead in Hy by lia. by apply elem_of_nil in Hy. }
  pose proof (heap_root_max Fanout PageChunks nway_less Hlayout [] first last
                nway_less_swo HS Hheap u ltac:(lia)) as Hmax.
  destruct (Hlive u ltac:(lia)) as [Hne Hasc].
  rewrite Hroot in Hmax.
  destruct (range_at first u) as [|y0 r] eqn:Er; [done|]. simpl in Hmax.
  apply elem_of_cons in Hy as [->|Hy]; [done|].
  inversion Hasc as [|? ? _ Hall]; subst.
  rewrite Forall_forall in Hall.
  eapply less_neg_trans; [done| |exact Hmax].
  apply Hall. by apply list_elem_of_In.
Qed.

(** One iteration of the merge loop, when the root range keeps elements
    and when it is exhausted. *)
Lemma nway_merge_loop_live fuel first first1 x x' rest' tl last output :
  first = (x :: x' :: rest') :: tl -> first1 = (x' :: rest') :: tl ->
  nway_merge_loop Fanout PageChunks less (S fuel) first last output
  = (first2 ← restore_heap_after_item_decrease Fanout PageChunks nway_less
               first1 0 last;
     nway_merge_loop Fanout PageChunks less fuel first2 last (output ++ [x])).
Proof. intros -> ->. reflexivity. Qed.

Lemma nway_merge_loop_exhausted fuel first first1 x tl last output :
  first = [x] :: tl -> first1 = [] :: tl ->
  nway_merge_loop Fanout PageChunks less (S fuel) first last output
  = (if wrap (last - 1) =? 0 then Some (first1, output ++ [x])
     else
       b ← rd first1 (wrap (last - 1));
       first3 ← wr first1 0 b;
       first3 ← wr first3 (wrap (last - 1)) [];
       first4 ← restore_heap_after_item_decrease Fanout PageChunks nway_less
                  first3 0 (wrap (last - 1));
       nway_merge_loop Fanout PageChunks less fuel first4 (wrap (last - 1))
         (output ++ [x])).
Proof. intros -> ->. reflexivity. Qed.

(** The merge loop: the heap [first[0 .. last)] holds the live ranges, each
    ascending; everything written so far is ascending and not above
    anything that remains. *)
Lemma nway_merge_loop_spec fuel : forall first last output,
  1 <= last <= Z.of_nat (length first) ->
  Z.of_nat (length first) <= SIZE_MAX ->
  ranges_heap first last 0 ->
  (forall u, 0 <= u < last ->
     range_at first u <> [] /\ ascending (range_at first u)) ->
  (forall u, last <= u -> range_at first u = []) ->
  ascending output ->
  (forall x y, x ∈ output -> y ∈ concat first -> less y x = false) ->
  (length (concat first) <= fuel)%nat ->
  exists first' out,
    nway_merge_loop Fanout PageChunks less fuel first last output
    = Some (first', out) /\
    length first' = length first /\
    Forall (.= []) first' /\
    out ≡ₚ output ++ concat first /\
    ascending out.
Proof.
  induction fuel as [|fuel IH];
    intros first last output Hlast HS Hheap Hlive Hdead Hout Hbound Hfuel.
  - (* a live range remains, so fuel does too *)
    destruct first as [|r0 tl]; [simpl in *; lia|].
    destruct (Hlive 0 ltac:(lia)) as [Hne _].
    change (range_at (r0 :: tl) 0) with r0 in Hne.
    destruct r0; [done|]. simpl in Hfuel. lia.
  - assert (Hshape : exists x rest tl, first = (x :: rest) :: tl).
    { destruct first as [|r0 tl]; [simpl in *; lia|].
      destruct (Hlive 0 ltac:(lia)) as [Hne0 _].
      change (range_at (r0 :: tl) 0) with r0 in Hne0.
      destruct r0 as [|x rest]; [done|]. eauto. }
    destruct Hshape as (x & rest & tl & Efirst).
    remember (rest :: tl) as first1 eqn:Efirst1.
    assert (Hroot : range_at first 0 = x :: rest) by (by rewrite Efirst).
    assert (Hrest : ascending rest).
    { destruct (Hlive 0 ltac:(lia)) as [_ Hasc0]. rewrite Hroot in Hasc0.
      by inversion Hasc0. }
    assert (Hmin : forall y, y ∈ concat first -> less y x = false).
    { apply (root_front_minimum first last x rest); try done. lia. }
    assert (Hconcat : concat first = x :: concat first1)
      by (by rewrite Efirst, Efirst1).
    assert (Hout1 : ascending (output ++ [x])).
    { apply ascending_snoc; [done|]. intros z Hz. apply Hbound; [done|].
      rewrite Hconcat. by left. }
    assert (Hbound1 : forall z y, z ∈ output ++ [x] -> y ∈ concat first1 ->
              less y z = false).
    { intros z y Hz Hy.
      assert (y ∈ concat first) by (rewrite Hconcat; by right).
      apply elem_of_app in Hz as [Hz|Hz%list_elem_of_singleton].
      - by apply Hbound.
      - subst z. by apply Hmin. }
    assert (Hget1 : forall u, 1 <= u -> range_at first1 u = range_at first u).
    { intros u Hu. rewrite Efirst, Efirst1. unfold get, rd.
      rewrite !decide_True by lia.
      replace (Z.to_nat u) with (S (Z.to_nat (u - 1))) by lia. done. }
    assert (Hlen1 : length first1 = length first)
      by (by rewrite Efirst, Efirst1).
    assert (Hget10 : range_at first1 0 = rest) by (by rewrite Efirst1).
    destruct rest as [|x' rest'] eqn:Erest.
    + (* the root range is exhausted *)
      rewrite (nway_merge_loop_exhausted fuel first first1 x tl) by done.
      rewrite wrap_small by lia.
      destruct (Z.eqb_spec (last - 1) 0) as [Hone|Hmore].
      * (* it was the last live range *)
        exists first1, (output ++ [x]). split; [done|]. split; [done|].
        assert (Hempty : Forall (.= []) first1).
        { apply Forall_lookup. intros i r Hi.
          pose proof (lookup_lt_Some _ _ _ Hi) as Hlt.
          pose proof (get_lookup [] first1 (Z.of_nat i) ltac:(lia)) as E.
          rewrite Nat2Z.id, Hi in E. injection E as ->.
          destruct (decide (i = 0%nat)) as [->|Hne]; [done|].
          rewrite Hget1 by lia. apply Hdead. lia. }
        split; [done|]. split; [|done].
        rewrite Hconcat. rewrite concat_join.
        rewrite (join_nil_2 first1 Hempty). done.
      * (* the last live range takes its place at the root *)
        set (last1 := last - 1) in *.
        set (b := range_at first last1).
        assert (Hb : range_at first1 last1 = b) by (apply Hget1; lia).
        rewrite (rd_get [] first1 last1) by lia. simpl.
        rewrite Hb. rewrite wr_fill by lia. simpl.
        rewrite wr_fill by (rewrite length_fill; lia). simpl.
        set (first3 := fill (fill first1 0 b) last1 []).
        assert (Hlen3 : length first3 = length first).
        { unfold first3. by rewrite !length_fill. }
        assert (Hperm3 : first3 ≡ₚ first1).
        { unfold first3. rewrite <- Hb.
          rewrite (fill_swap_perm [] first1 0 last1) by lia.
          rewrite <- Hget10. by rewrite fill_get_id by lia. }
        assert (Hget3 : forall u, 0 <= u -> u <> 0 -> u <> last1 ->
                  range_at first3 u = range_at first u).
        { intros u Hu Hu0 Hu1. unfold first3.
          rewrite !get_fill_ne by lia. apply Hget1. lia. }
        destruct (restore_heap_after_item_decrease_spec Fanout PageChunks
                    nway_less Hlayout [] first3 0 last1)
          as (first4 & -> & Hlen4 & Hperm4 & Hframe4 & Hheap4); [lia..|].
        simpl.
        destruct (IH first4 last1 (output ++ [x]))
          as (first' & out & -> & Hlen' & Hempty & Hperm & Hasc);
          [lia|lia| | | |done| | |].
        -- apply Hheap4; [apply nway_less_swo| |lia|lia].
           intros u Hu Hne Hpne.
           pose proof (parent_lt _ _ Hlayout u ltac:(lia)) as Hp.
           rewrite !Hget3 by lia. apply Hheap; lia.
        -- apply (prefix_property_preserved
                    (fun r => r <> [] /\ ascending r) first3 first4 last1);
             [lia|done|done|done|].
           intros u Hu. destruct (decide (u = 0)) as [->|Hu0].
           ++ unfold first3. rewrite get_fill_ne, get_fill_eq by (simpl; lia).
              apply Hlive. lia.
           ++ rewrite Hget3 by lia. apply Hlive. lia.
        -- intros u Hu. rewrite Hframe4 by lia.
           destruct (decide (u = last1)) as [->|Hne].
           ++ unfold first3. apply get_fill_eq. rewrite length_fill. lia.
           ++ rewrite Hget3 by lia. apply Hdead. lia.
        -- intros z y Hz Hy. apply Hbound1; [done|].
           by rewrite <- (concat_perm _ _ Hperm3), <- (concat_perm _ _ Hperm4).
        -- rewrite (Permutation_length (concat_perm _ _ Hperm4)).
           rewrite (Permutation_length (concat_perm _ _ Hperm3)).
           rewrite Hconcat in Hfuel. simpl in Hfuel. lia.
        -- exists first', out. split; [done|]. split; [lia|].
           split; [done|]. split; [|done].
           rewrite Hperm, (concat_perm _ _ Hperm4), (concat_perm _ _ Hperm3).
           rewrite Hconcat, <- app_assoc. done.
    + (* the root range lives on with a new front *)
      rewrite (nway_merge_loop_live fuel first first1 x x' rest' tl) by done.
      destruct (restore_heap_after_item_decrease_spec Fanout PageChunks
                  nway_less Hlayout [] first1 0 last)
        as (first2 & -> & Hlen2 & Hperm2 & Hframe2 & Hheap2); [lia..|].
      simpl.
      destruct (IH first2 last (output ++ [x]))
        as (first' & out & -> & Hlen' & Hempty & Hperm & Hasc);
        [lia|lia| | | |done| | |].
      * apply Hheap2; [apply nway_less_swo| |lia|lia].
        intros u Hu Hne Hpne.
        pose proof (parent_lt _ _ Hlayout u ltac:(lia)) as Hp.
        rewrite !Hget1 by lia. apply Hheap; lia.
      * apply (prefix_property_preserved
                 (fun r => r <> [] /\ ascending r) first1 first2 last);
          [lia|done|done|done|].
        intros u Hu. destruct (decide (u = 0)) as [->|Hu0].
        -- rewrite Hget10. by split.
        -- rewrite Hget1 by lia. apply Hlive. lia.
      * intros u Hu. rewrite Hframe2 by lia. rewrite Hget1 by lia.
        apply Hdead. lia.
      * intros z y Hz Hy. apply Hbound1; [done|].
        by rewrite <- (concat_perm _ _ Hperm2).
      * rewrite (Permutation_length (concat_perm _ _ Hperm2)).
        rewrite Hconcat in Hfuel. simpl in Hfuel. lia.
      * exists first', out. split; [done|]. split; [lia|].
        split; [done|]. split; [|done].
        rewrite Hperm, (concat_perm _ _ Hperm2).
        rewrite Hconcat, <- app_assoc. done.
Qed.

End NwayMerge.

(** C3: for [k >= 1] input ranges, each non-empty and ascending,
    [nway_merge] returns; the sequence written to the output holds every
    input element exactly once (it is a permutation of the concatenation of
    the inputs) in ascending order, so it agrees rank by rank with any sort
    of that concatenation and is equal to it when equal rank means equal
    value; every input range ends up consumed. *)
Theorem nway_merge_sorts {A : Type} Fanout PageChunks
    (less : A -> A -> bool) (input_ranges : list (list A)) (k : Z) :
  valid_layout Fanout PageChunks -> StrictWeakOrder less ->
  k = Z.of_nat (length input_ranges) -> 1 <= k -> k <= SIZE_MAX ->
  Forall (fun r => r <> [] /\ ascending less r) input_ranges ->
  exists consumed output,
    nway_merge Fanout PageChunks less input_ranges k
    = Some (consumed, output) /\
    output ≡ₚ concat input_ranges /\
    ascending less output /\
    (forall reference,
       reference ≡ₚ concat input_ranges -> ascending less reference ->
       Forall2 (equal_rank less) output reference /\
       ((forall a b, equal_rank less a b -> a = b) -> output = reference)) /\
    length consumed = length input_ranges /\
    Forall (.= []) consumed.
Proof.
  intros Hlayout Hswo Ek Hk HS Hin.
  unfold nway_merge.
  destruct (make_heap_spec Fanout PageChunks (_nway_merge_less_comparer less)
              Hlayout [] input_ranges k)
    as (first & -> & Hlen & Hperm & _ & Hheap); [lia..|].
  simpl.
  destruct (nway_merge_loop_spec Fanout PageChunks less Hlayout
              (length (concat input_ranges)) first k [])
    as (consumed & output & -> & Hlen' & Hempty & Hout & Hasc).
  - lia.
  - lia.
  - apply Hheap. by apply nway_less_swo.
  - intros u Hu. rewrite <- Hperm in Hin. rewrite Forall_forall in Hin.
    apply Hin. apply list_elem_of_In, get_elem_of. lia.
  - intros u Hu. unfold get, rd. rewrite decide_True by lia.
    by rewrite lookup_ge_None_2 by lia.
  - constructor.
  - intros x y Hx. by apply elem_of_nil in Hx.
  - rewrite (Permutation_length (concat_perm _ _ Hperm)). lia.
  - exists consumed, output. split; [done|].
    assert (Hout' : output ≡ₚ concat input_ranges).
    { rewrite Hout. simpl. by apply concat_perm. }
    split; [done|]. split; [done|]. split; [|split; [lia|done]].
    intros reference Href Hrefasc.
    assert (Hor : output ≡ₚ reference) by (by rewrite Hout', Href).
    split.
    + by apply ascending_perm_equal_rank.
    + intros Htotal. by apply (ascending_perm_unique less).
Qed.

Lemma nway_merge_sorts_witness :
  exists consumed output,
    nway_merge 2 1 Z.ltb [[1; 4; 7]; [2; 3]; [5; 6; 8; 9]] 3
    = Some (consumed, output) /\
    output ≡ₚ concat [[1; 4; 7]; [2; 3]; [5; 6; 8; 9]] /\
    ascending Z.ltb output /\
    (forall reference,
       reference ≡ₚ concat [[1; 4; 7]; [2; 3]; [5; 6; 8; 9]] ->
       ascending Z.ltb reference ->
       Forall2 (equal_rank Z.ltb) output reference /\
       ((forall a b, equal_rank Z.ltb a b -> a = b) -> output = reference)) /\
    length consumed = length [[1; 4; 7]; [2; 3]; [5; 6; 8; 9]] /\
    Forall (.= []) consumed.
Proof.
  apply (nway_merge_sorts 2 1 Z.ltb [[1; 4; 7]; [2; 3]; [5; 6; 8; 9]]).
  - exact valid_layout_2_1.
  - exact Zltb_swo.
  - reflexivity.
  - lia.
  - vm_compute. discriminate.
  - repeat constructor; try discriminate.
Defined.

(** * Further properties of the index mapper *)

(** X1: the parent of a node has a smaller index than the node, so every
    chain of parents reaches the root. *)
Theorem parent_index_below_node Fanout PageChunks u :
  valid_layout Fanout PageChunks -> 1 <= u <= SIZE_MAX ->
  0 <= get_parent_index Fanout PageChunks u < u.
Proof. intros Hlayout Hu. by apply parent_lt. Qed.

Lemma parent_index_below_node_witness :
  0 <= get_parent_index 3 2 SIZE_MAX < SIZE_MAX.
Proof.
  apply parent_index_below_node.
  - exact valid_layout_3_2.
  - unfold SIZE_MAX. lia.
Defined.

(** X2: [get_parent_index] returns 0 exactly for the children of the root,
    which are the nodes [1 .. Fanout]. *)
Theorem parent_is_root_iff Fanout PageChunks u :
  valid_layout Fanout PageChunks -> 1 <= u <= SIZE_MAX ->
  get_parent_index Fanout PageChunks u = 0 <-> u <= Fanout.
Proof.
  intros Hlayout Hu. pose proof Hlayout as (HF & HP & _).
  rewrite (get_parent_index_ideal _ _ Hlayout) by lia.
  assert (E0 : child_ideal Fanout PageChunks 0 = 1).
  { unfold child_ideal. destruct (PageChunks =? 1); [lia|done]. }
  split.
  - intros E.
    pose proof (child_parent_ideal Fanout PageChunks HF HP u) as Hg.
    rewrite E, E0 in Hg. lia.
  - intros Hle.
    pose proof (parent_child_ideal Fanout PageChunks HF HP 0 (u - 1)) as Hg.
    rewrite E0 in Hg. replace (1 + (u - 1)) with u in Hg by lia.
    apply Hg; lia.
Qed.

Lemma parent_is_root_iff_witness :
  get_parent_index 4 2 4 = 0 <-> 4 <= 4.
Proof.
  apply parent_is_root_iff.
  - exact valid_layout_4_2.
  - unfold SIZE_MAX. lia.
Defined.

(** X3: the child group of the parent of a node contains the node: for a
    non-root [w], [get_child_index (get_parent_index w)] is not the
    sentinel and [w] is one of the [Fanout] indices it starts. *)
Theorem child_group_of_parent_contains_node Fanout PageChunks w :
  valid_layout Fanout PageChunks -> 1 <= w < SIZE_MAX ->
  get_child_index Fanout PageChunks (get_parent_index Fanout PageChunks w)
    <> SIZE_MAX /\
  get_child_index Fanout PageChunks (get_parent_index Fanout PageChunks w)
    <= w <
  get_child_index Fanout PageChunks (get_parent_index Fanout PageChunks w)
    + Fanout.
Proof.
  intros Hlayout Hw.
  pose proof (child_parent Fanout PageChunks Hlayout w Hw). lia.
Qed.

Lemma child_group_of_parent_contains_node_witness :
  get_child_index 3 2 (get_parent_index 3 2 20) <> SIZE_MAX /\
  get_child_index 3 2 (get_parent_index 3 2 20) <= 20 <
  get_child_index 3 2 (get_parent_index 3 2 20) + 3.
Proof.
  apply child_group_of_parent_contains_node.
  - exact valid_layout_3_2.
  - unfold SIZE_MAX. lia.
Defined.

(** X4: the first child of a node has a larger index than the node, and
    unless it is the sentinel it is congruent to 1 modulo [Fanout]: child
    groups are the aligned blocks [m * Fanout + 1 .. m * Fanout + Fanout],
    which is what lets [_sift_down] find the one partial group from
    [(heap_size - 1) % Fanout]. *)
Theorem child_index_above_and_aligned Fanout PageChunks u :
  valid_layout Fanout PageChunks -> 0 <= u < SIZE_MAX ->
  u < get_child_index Fanout PageChunks u /\
  (get_child_index Fanout PageChunks u <> SIZE_MAX ->
   (get_child_index Fanout PageChunks u - 1) mod Fanout = 0).
Proof.
  intros Hlayout Hu. pose proof Hlayout as (HF & HP & _).
  split; [by apply child_gt|].
  intros Hne.
  destruct (child_min Fanout PageChunks Hlayout u) as (m & Hm & _ & EC);
    [lia|].
  assert (EC' : get_child_index Fanout PageChunks u = m * Fanout + 1) by lia.
  rewrite EC'. replace (m * Fanout + 1 - 1) with (m * Fanout) by ring.
  apply Z.mod_mul. lia.
Qed.

Lemma child_index_above_and_aligned_witness :
  7 < get_child_index 3 2 7 /\
  (get_child_index 3 2 7 <> SIZE_MAX ->
   (get_child_index 3 2 7 - 1) mod 3 = 0).
Proof.
  apply child_index_above_and_aligned.
  - exact valid_layout_3_2.
  - unfold SIZE_MAX. lia.
Defined.

(** ** Pages *)

Section Pages.
Variables Fanout PageChunks : Z.
Hypothesis Hlayout : valid_layout Fanout PageChunks.

Local Abbreviation page := (page_of Fanout PageChunks).

Lemma parent_ideal_page u :
  Fanout < u ->
  let offset := (u - 1) mod (Fanout * PageChunks) in
  1 <= parent_ideal Fanout PageChunks u /\
  (Fanout <= offset -> page (parent_ideal Fanout PageChunks u) = page u) /\
  (offset < Fanout -> page (parent_ideal Fanout PageChunks u) < page u).
Proof.
  intros Hu offset. subst offset. pose proof Hlayout as (HF & HP & _).
  pose proof (page_size_pos Fanout PageChunks HF HP) as Hps.
  pose proof (page_leaves_eq Fanout PageChunks) as Hpl.
  pose proof (page_leaves_pos Fanout PageChunks HF HP) as Hpl1.
  unfold page_of, parent_ideal.
  destruct (Z.eqb_spec PageChunks 1) as [->|Hne].
  - rewrite Z.mul_1_r.
    destruct (divmod_spec (u - 1) Fanout) as (E & Hq & Hr); [lia..|].
    set (q := (u - 1) / Fanout) in *. set (r := (u - 1) mod Fanout) in *.
    assert (1 <= q) by nia.
    split; [lia|]. split; [lia|]. intros _.
    destruct (divmod_spec (q - 1) Fanout) as (E' & Hq' & Hr'); [lia..|].
    nia.
  - pose proof (page_size_ge Fanout PageChunks HF HP Hne) as Hps2.
    destruct (Z.ltb_spec (u - 1) Fanout); [lia|].
    destruct (divmod_spec (u - 1) (Fanout * PageChunks)) as (E & Hq & Hr);
      [lia..|].
    set (ps := Fanout * PageChunks) in *.
    set (pl := (Fanout - 1) * PageChunks + 1) in *.
    set (q := (u - 1) / ps) in *. set (r := (u - 1) mod ps) in *.
    destruct (Z.leb_spec Fanout r) as [Hfast|Hslow].
    + destruct (divmod_spec r Fanout) as (E' & Hq' & Hr'); [lia..|].
      set (a := r / Fanout) in *. set (b := r mod Fanout) in *.
      assert (1 <= a) by nia.
      assert (a < PageChunks) by (unfold ps in *; nia).
      assert (a - 1 < ps) by (unfold ps; nia).
      assert (0 <= ps * q) by nia.
      split; [lia|]. split; [|lia]. intros _.
      destruct (divmod_unique (u - 1 - r + a - 1) ps q (a - 1)) as [-> _];
        [lia|lia|done].
    + assert (1 <= q) by nia.
      destruct (divmod_spec (q - 1) pl) as (E' & Hq' & Hr'); [lia..|].
      set (a := (q - 1) / pl) in *. set (b := (q - 1) mod pl) in *.
      assert (a <= q - 1) by nia.
      assert (0 <= a * ps) by nia.
      split; [lia|]. split; [lia|]. intros _.
      destruct (divmod_unique ((a + 1) * ps + b - pl + 1 - 1) ps a
                  (PageChunks - 1 + b)) as [-> _]; [lia|lia|lia].
Qed.

Lemma child_ideal_page u k :
  1 <= u -> 0 <= k < Fanout ->
  let slot := (u - 1) mod (Fanout * PageChunks) + 1 in
  (slot < PageChunks ->
   page (child_ideal Fanout PageChunks u + k) = page u) /\
  (PageChunks <= slot ->
   page u < page (child_ideal Fanout PageChunks u + k)).
Proof.
  intros Hu Hk slot. subst slot. pose proof Hlayout as (HF & HP & _).
  pose proof (page_size_pos Fanout PageChunks HF HP) as Hps.
  pose proof (page_leaves_eq Fanout PageChunks) as Hpl.
  pose proof (page_leaves_pos Fanout PageChunks HF HP) as Hpl1.
  unfold page_of, child_ideal.
  destruct (Z.eqb_spec PageChunks 1) as [->|Hne].
  - rewrite Z.mul_1_r. split; [pose proof (Z.mod_pos_bound (u - 1) Fanout); lia|].
    intros _.
    destruct (divmod_unique (u * Fanout + 1 + k - 1) Fanout u k) as [-> _];
      [lia|lia|].
    destruct (divmod_spec (u - 1) Fanout) as (E & Hq & Hr); [lia..|]. nia.
  - destruct (Z.eqb_spec u 0) as [->|Hu0]; [lia|].
    destruct (divmod_spec (u - 1) (Fanout * PageChunks)) as (E & Hq & Hr);
      [lia..|].
    set (ps := Fanout * PageChunks) in *.
    set (pl := (Fanout - 1) * PageChunks + 1) in *.
    set (q := (u - 1) / ps) in *. set (r := (u - 1) mod ps) in *.
    destruct (Z.ltb_spec (r + 1) PageChunks) as [Hfast|Hslow].
    + split; [|lia]. intros _.
      set (X := (r + 1) * Fanout + k).
      assert (HX : 0 <= X < ps) by (unfold X, ps; nia).
      destruct (divmod_unique (u - 1 + (r + 1) * (Fanout - 1) + 2 + k - 1)
                  ps q X) as [-> _]; [lia|unfold X; lia|done].
    + split; [lia|]. intros _.
      set (V := r + 1 + (q + 1) * pl - ps).
      assert (0 <= q * pl) by nia.
      assert (q <= q * pl) by nia.
      assert (HV : V = q * pl + (r + 1 - PageChunks) + 1) by (unfold V; lia).
      assert (k < ps) by (unfold ps; nia).
      destruct (divmod_unique (V * ps + 1 + k - 1) ps V k) as [-> _];
        [lia|lia|lia].
Qed.

End Pages.

(** X5: in which page the parent lies. For a node [u] that is not a child
    of the root, the parent is not the root; it lies on the page of [u]
    when the offset of [u] in its page is at least [Fanout] (the fast path
    of [get_parent_index]), and on an earlier page otherwise. *)
Theorem parent_page_locality Fanout PageChunks u :
  valid_layout Fanout PageChunks -> Fanout < u <= SIZE_MAX ->
  let offset := (u - 1) mod (Fanout * PageChunks) in
  1 <= get_parent_index Fanout PageChunks u /\
  (Fanout <= offset ->
   page_of Fanout PageChunks (get_parent_index Fanout PageChunks u)
   = page_of Fanout PageChunks u) /\
  (offset < Fanout ->
   page_of Fanout PageChunks (get_parent_index Fanout PageChunks u)
   < page_of Fanout PageChunks u).
Proof.
  intros Hlayout Hu. pose proof Hlayout as (HF & HP & _).
  rewrite (get_parent_index_ideal _ _ Hlayout) by lia.
  apply parent_ideal_page; [done|lia].
Qed.

Lemma parent_page_locality_witness :
  let offset := (20 - 1) mod (3 * 4) in
  1 <= get_parent_index 3 4 20 /\
  (3 <= offset ->
   page_of 3 4 (get_parent_index 3 4 20) = page_of 3 4 20) /\
  (offset < 3 -> page_of 3 4 (get_parent_index 3 4 20) < page_of 3 4 20).
Proof.
  apply parent_page_locality.
  - unfold valid_layout, SIZE_MAX. lia.
  - unfold SIZE_MAX. lia.
Defined.

(** X6: in which page the children lie. Unless [get_child_index u] is the
    sentinel, all [Fanout] children of a non-root node [u] lie on the page
    of [u] when the slot of [u] in its page is below [PageChunks] (the fast
    path of [get_child_index]), and on a later page otherwise. *)
Theorem child_page_locality Fanout PageChunks u k :
  valid_layout Fanout PageChunks -> 1 <= u < SIZE_MAX -> 0 <= k < Fanout ->
  get_child_index Fanout PageChunks u <> SIZE_MAX ->
  let slot := (u - 1) mod (Fanout * PageChunks) + 1 in
  (slot < PageChunks ->
   page_of Fanout PageChunks (get_child_index Fanout PageChunks u + k)
   = page_of Fanout PageChunks u) /\
  (PageChunks <= slot ->
   page_of Fanout PageChunks u
   < page_of Fanout PageChunks (get_child_index Fanout PageChunks u + k)).
Proof.
  intros Hlayout Hu Hk Hne.
  rewrite (get_child_index_ideal _ _ Hlayout) in * by lia.
  assert (E : Z.min (child_ideal Fanout PageChunks u) SIZE_MAX
              = child_ideal Fanout PageChunks u) by lia.
  rewrite E. apply child_ideal_page; [done|lia|lia].
Qed.

Lemma child_page_locality_witness :
  let slot := (14 - 1) mod (3 * 4) + 1 in
  (slot < 4 -> page_of 3 4 (get_child_index 3 4 14 + 2) = page_of 3 4 14) /\
  (4 <= slot -> page_of 3 4 14 < page_of 3 4 (get_child_index 3 4 14 + 2)).
Proof.
  apply child_page_locality.
  - unfold valid_layout, SIZE_MAX. lia.
  - unfold SIZE_MAX. lia.
  - lia.
  - vm_compute. discriminate.
Defined.

(** * Further properties of the heap predicates *)

Section Predicates.
Context {A : Type}.
Variables Fanout PageChunks : Z.
Variable less : A -> A -> bool.
Hypothesis Hlayout : valid_layout Fanout PageChunks.
Variable d : A.

Local Abbreviation P := (get_parent_index Fanout PageChunks).
Local Abbreviation heap_from := (heap_from Fanout PageChunks less d).
Local Abbreviation get := (get d).

(** The scan of [is_heap_until] stops at the first node that outranks its
    parent. *)
Lemma is_heap_until_loop_first l m fuel : forall u,
  1 <= u <= m -> m <= Z.of_nat (length l) -> m <= SIZE_MAX ->
  (Z.to_nat (m - u) <= fuel)%nat ->
  exists r, is_heap_until_loop Fanout PageChunks less fuel l m u = Some r /\
    u <= r <= m /\
    (forall v, u <= v < r -> less (get l (P v)) (get l v) = false) /\
    (r < m -> less (get l (P r)) (get l r) = true).
Proof.
  induction fuel as [|fuel IH]; intros u Hu Hml HmS Hfuel; simpl.
  - destruct (Z.ltb_spec u m); [lia|]. exists m.
    split; [done|]. split; [lia|]. split; [intros; lia|lia].
  - destruct (Z.ltb_spec u m) as [Hlt|Hge].
    + pose proof (parent_lt _ _ Hlayout u ltac:(lia)) as Hp.
      rewrite (rd_get d l (P u)), (rd_get d l u) by lia. simpl.
      destruct (less (get l (P u)) (get l u)) eqn:Hless.
      * exists u. split; [done|]. split; [lia|]. split; [intros; lia|done].
      * rewrite wrap_small by lia.
        destruct (IH (u + 1)) as (r & -> & Hr & Hall & Hstop);
          [lia|done|done|lia|].
        exists r. split; [done|]. split; [lia|]. split; [|done].
        intros v Hv. destruct (decide (v = u)) as [->|]; [done|].
        apply Hall. lia.
    + exists m. split; [done|]. split; [lia|]. split; [intros; lia|lia].
Qed.

Lemma is_heap_until_spec l m :
  0 <= m <= Z.of_nat (length l) -> m <= SIZE_MAX ->
  exists r, is_heap_until Fanout PageChunks less l m = Some r /\
    Z.min 1 m <= r <= m /\
    (forall v, 1 <= v < r -> less (get l (P v)) (get l v) = false) /\
    (r < m -> less (get l (P r)) (get l r) = true).
Proof.
  intros Hm HmS. unfold is_heap_until.
  destruct (decide (m = 0)) as [->|Hne].
  { exists 0. split; [done|]. split; [lia|]. split; intros; lia. }
  destruct (is_heap_until_loop_first l m (Z.to_nat m) 1)
    as (r & E & Hr & Hall & Hstop); [lia|lia|done|lia|].
  exists r. split; [done|]. split; [lia|]. split; done.
Qed.

(** The heap property in terms of checked reads. *)
Lemma heap_from_rd l m :
  0 <= m <= Z.of_nat (length l) -> m <= SIZE_MAX ->
  heap_from l m 0 <->
  (forall u parent child, 1 <= u < m ->
     rd l (P u) = Some parent -> rd l u = Some child ->
     less parent child = false).
Proof.
  intros Hm HmS. split.
  - intros Hheap u parent child Hu Ep Ec.
    pose proof (parent_lt _ _ Hlayout u ltac:(lia)) as Hp.
    rewrite (rd_get d) in Ep, Ec by lia.
    injection Ep as <-. injection Ec as <-. apply Hheap; lia.
  - intros Hall u Hu _.
    pose proof (parent_lt _ _ Hlayout u ltac:(lia)) as Hp.
    apply (Hall u); [done|apply rd_get; lia..].
Qed.

(** In a list in descending order no element is less than a later one. *)
Lemma descending_lookup (l : list A) :
  StronglySorted (fun x y => less x y = false) l ->
  forall (i j : nat) a b, (i < j)%nat -> l !! i = Some a -> l !! j = Some b ->
    less a b = false.
Proof.
  induction 1 as [|x l Hs IH Hall]; intros i j a b Hij Ei Ej; [done|].
  destruct j as [|j]; [lia|]. simpl in Ej.
  destruct i as [|i]; simpl in Ei.
  - injection Ei as <-. rewrite Forall_forall in Hall. apply Hall.
    by apply list_elem_of_In, (list_elem_of_lookup_2 _ j).
  - apply (IH i j); [lia|done..].
Qed.

End Predicates.

(** X7: [is_heap_until] returns the first node that outranks its parent,
    or [last] when there is none: every node before the returned one is
    dominated by its parent, the returned node, if it is not [last],
    outranks its parent, and the range up to the returned node is a
    heap. *)
Theorem is_heap_until_first_violation {A : Type} Fanout PageChunks
    (less : A -> A -> bool) (first : list A) (last : Z) :
  valid_layout Fanout PageChunks ->
  0 <= last <= Z.of_nat (length first) -> last <= SIZE_MAX ->
  exists r,
    is_heap_until Fanout PageChunks less first last = Some r /\
    Z.min 1 last <= r <= last /\
    (forall u parent child, 1 <= u < r ->
       rd first (get_parent_index Fanout PageChunks u) = Some parent ->
       rd first u = Some child -> less parent child = false) /\
    (r < last ->
     exists parent child,
       rd first (get_parent_index Fanout PageChunks r) = Some parent /\
       rd first r = Some child /\ less parent child = true) /\
    is_heap Fanout PageChunks less first r = Some true.
Proof.
  intros Hlayout Hlast HS.
  assert (Hd : first = [] \/ exists d : A, True) by (destruct first; eauto).
  destruct Hd as [->|[d _]].
  { simpl in Hlast. assert (last = 0) as -> by lia. exists 0.
    split; [done|]. split; [lia|]. split; [intros; lia|].
    split; [lia|done]. }
  destruct (is_heap_until_spec Fanout PageChunks less Hlayout d first last)
    as (r & E & Hr & Hall & Hstop); [done..|].
  exists r. split; [done|]. split; [done|].
  assert (Hheap : heap_from Fanout PageChunks less d first r 0).
  { intros u Hu _. by apply Hall. }
  split; [apply (heap_from_rd Fanout PageChunks less Hlayout d); [lia..|done]|].
  split.
  - intros Hlt.
    pose proof (parent_lt _ _ Hlayout r ltac:(lia)) as Hp.
    exists (get d first (get_parent_index Fanout PageChunks r)),
      (get d first r).
    split; [apply rd_get; lia|]. split; [apply rd_get; lia|auto].
  - apply (is_heap_true _ _ _ Hlayout d); [lia|lia|done].
Qed.

Lemma is_heap_until_first_violation_witness :
  exists r,
    is_heap_until 2 1 Z.ltb [9; 7; 8; 3; 10; 1] 6 = Some r /\
    Z.min 1 6 <= r <= 6 /\
    (forall u parent child, 1 <= u < r ->
       rd [9; 7; 8; 3; 10; 1] (get_parent_index 2 1 u) = Some parent ->
       rd [9; 7; 8; 3; 10; 1] u = Some child -> (parent <? child) = false) /\
    (r < 6 ->
     exists parent child,
       rd [9; 7; 8; 3; 10; 1] (get_parent_index 2 1 r) = Some parent /\
       rd [9; 7; 8; 3; 10; 1] r = Some child /\ (parent <? child) = true) /\
    is_heap 2 1 Z.ltb [9; 7; 8; 3; 10; 1] r = Some true.
Proof.
  apply is_heap_until_first_violation.
  - exact valid_layout_2_1.
  - simpl. lia.
  - unfold SIZE_MAX. lia.
Defined.

(** X8: [is_heap] returns, and it returns true exactly when no node of the
    range outranks its parent. *)
Theorem is_heap_iff_parents_dominate {A : Type} Fanout PageChunks
    (less : A -> A -> bool) (first : list A) (last : Z) :
  valid_layout Fanout PageChunks ->
  0 <= last <= Z.of_nat (length first) -> last <= SIZE_MAX ->
  exists b,
    is_heap Fanout PageChunks less first last = Some b /\
    (b = true <->
     forall u parent child, 1 <= u < last ->
       rd first (get_parent_index Fanout PageChunks u) = Some parent ->
       rd first u = Some child -> less parent child = false).
Proof.
  intros Hlayout Hlast HS.
  assert (Hd : first = [] \/ exists d : A, True) by (destruct first; eauto).
  destruct Hd as [->|[d _]].
  { simpl in Hlast. assert (last = 0) as -> by lia. exists true.
    split; [done|]. split; [intros; lia|done]. }
  destruct (is_heap_spec Fanout PageChunks less Hlayout d first last)
    as (b & E & Hb); [lia..|].
  exists b. split; [done|]. rewrite Hb.
  by apply heap_from_rd.
Qed.

Lemma is_heap_iff_parents_dominate_witness :
  exists b,
    is_heap 3 2 Z.ltb [9; 7; 8; 3; 5; 1; 6] 7 = Some b /\
    (b = true <->
     forall u parent child, 1 <= u < 7 ->
       rd [9; 7; 8; 3; 5; 1; 6] (get_parent_index 3 2 u) = Some parent ->
       rd [9; 7; 8; 3; 5; 1; 6] u = Some child -> (parent <? child) = false).
Proof.
  apply is_heap_iff_parents_dominate.
  - exact valid_layout_3_2.
  - simpl. lia.
  - unfold SIZE_MAX. lia.
Defined.

(** X9: every prefix of a heap is a heap. *)
Theorem is_heap_prefix_closed {A : Type} Fanout PageChunks
    (less : A -> A -> bool) (first : list A) (last m : Z) :
  valid_layout Fanout PageChunks ->
  last <= Z.of_nat (length first) -> last <= SIZE_MAX -> 0 <= m <= last ->
  is_heap Fanout PageChunks less first last = Some true ->
  is_heap Fanout PageChunks less first m = Some true.
Proof.
  intros Hlayout Hlast HS Hm Hheap.
  assert (Hd : first = [] \/ exists d : A, True) by (destruct first; eauto).
  destruct Hd as [->|[d _]].
  { simpl in Hlast. by assert (m = 0) as -> by lia. }
  apply (is_heap_true _ _ _ Hlayout d) in Hheap; [|lia..].
  apply (is_heap_true _ _ _ Hlayout d); [lia..|].
  eapply heap_from_weaken; [| |exact Hheap]; lia.
Qed.

Lemma is_heap_prefix_closed_witness :
  is_heap 2 1 Z.ltb [9; 7; 8; 3; 5] 3 = Some true.
Proof.
  apply (is_heap_prefix_closed 2 1 Z.ltb [9; 7; 8; 3; 5] 5 3).
  - exact valid_layout_2_1.
  - simpl. lia.
  - unfold SIZE_MAX. lia.
  - lia.
  - vm_compute. reflexivity.
Defined.

(** X10: the root of a heap is a maximum of it: no element of the range is
    greater than [first[0]]. *)
Theorem heap_root_is_maximum {A : Type} Fanout PageChunks
    (less : A -> A -> bool) (first : list A) (last : Z) :
  valid_layout Fanout PageChunks -> StrictWeakOrder less ->
  1 <= last <= Z.of_nat (length first) -> last <= SIZE_MAX ->
  is_heap Fanout PageChunks less first last = Some true ->
  exists root,
    rd first 0 = Some root /\
    (forall u x, 0 <= u < last -> rd first u = Some x ->
       less root x = false).
Proof.
  intros Hlayout Hswo Hlast HS Hheap.
  assert (Hd : exists d : A, True)
    by (destruct first; [simpl in *; lia|eauto]).
  destruct Hd as [d _].
  apply (is_heap_true _ _ _ Hlayout d) in Hheap; [|lia..].
  exists (get d first 0). split; [apply rd_get; lia|].
  intros u x Hu Ex. rewrite (rd_get d) in Ex by lia. injection Ex as <-.
  by apply (heap_root_max Fanout PageChunks less Hlayout d first last).
Qed.

Lemma heap_root_is_maximum_witness :
  exists root,
    rd [9; 7; 8; 3; 5; 1; 6] 0 = Some root /\
    (forall u x, 0 <= u < 7 -> rd [9; 7; 8; 3; 5; 1; 6] u = Some x ->
       (root <? x) = false).
Proof.
  apply (heap_root_is_maximum 3 2 Z.ltb [9; 7; 8; 3; 5; 1; 6] 7).
  - exact valid_layout_3_2.
  - exact Zltb_swo.
  - simpl. lia.
  - unfold SIZE_MAX. lia.
  - vm_compute. reflexivity.
Defined.

(** X11: a range in descending order (no element is less than a later one)
    is a heap, for every layout and every comparator. *)
Theorem descending_range_is_heap {A : Type} Fanout PageChunks
    (less : A -> A -> bool) (first : list A) (last : Z) :
  valid_layout Fanout PageChunks ->
  0 <= last <= Z.of_nat (length first) -> last <= SIZE_MAX ->
  StronglySorted (fun x y => less x y = false) first ->
  is_heap Fanout PageChunks less first last = Some true.
Proof.
  intros Hlayout Hlast HS Hsorted.
  assert (Hd : first = [] \/ exists d : A, True) by (destruct first; eauto).
  destruct Hd as [->|[d _]].
  { simpl in Hlast. by assert (last = 0) as -> by lia. }
  apply (is_heap_true _ _ _ Hlayout d); [lia..|].
  intros u Hu _.
  pose proof (parent_lt _ _ Hlayout u ltac:(lia)) as Hp.
  apply (descending_lookup less first Hsorted
           (Z.to_nat (get_parent_index Fanout PageChunks u)) (Z.to_nat u));
    [lia|apply get_lookup; lia..].
Qed.

Lemma descending_range_is_heap_witness :
  is_heap 3 2 Z.ltb [9; 7; 7; 4; 1] 5 = Some true.
Proof.
  apply descending_range_is_heap.
  - exact valid_layout_3_2.
  - simpl. lia.
  - unfold SIZE_MAX. lia.
  - repeat constructor.
Defined.

(** * Further properties of the heap algorithms *)

Section Mutators.
Context {A : Type}.
Variables Fanout PageChunks : Z.
Variable less : A -> A -> bool.
Hypothesis Hlayout : valid_layout Fanout PageChunks.
Variable d : A.

Local Abbreviation P := (get_parent_index Fanout PageChunks).
Local Abbreviation heap_from := (heap_from Fanout PageChunks less d).
Local Abbreviation get := (get d).

(** Sifting up an item that its parent dominates puts it back where it
    was. *)
Lemma sift_up_dominated l g :
  0 <= g < Z.of_nat (length l) -> g <= SIZE_MAX ->
  (0 < g -> less (get l (P g)) (get l g) = false) ->
  _sift_up Fanout PageChunks less l 0 g (get l g) = Some l.
Proof.
  intros Hg HS Hdom. unfold _sift_up.
  assert (Hback : wr l g (get l g) = Some l).
  { rewrite wr_fill by lia. f_equal. apply fill_get_id. lia. }
  destruct (Z.to_nat g) as [|fuel] eqn:Efuel; simpl.
  - destruct (Z.ltb_spec 0 g); [lia|done].
  - destruct (Z.ltb_spec 0 g) as [Hpos|]; [|done].
    pose proof (parent_lt _ _ Hlayout g ltac:(lia)) as Hp.
    rewrite (rd_get d l (P g)) by lia. simpl.
    by rewrite Hdom.
Qed.

(** What is left of a range once the element at [h] has been moved to its
    last slot. *)
Lemma removal_perm l l' h n :
  0 <= h < n -> n <= Z.of_nat (length l) ->
  length l' = length l -> l' ≡ₚ l ->
  (forall u, n <= u -> get l' u = get l u) ->
  get l' (n - 1) = get l h ->
  take (Z.to_nat (n - 1)) l' ≡ₚ delete (Z.to_nat h) (take (Z.to_nat n) l).
Proof.
  intros Hh Hn Hlen Hperm Hframe Hmoved.
  destruct (frame_take_drop d l l' n) as [Htake _]; [lia|done..|].
  assert (Elast : take (Z.to_nat n) l'
                  = take (Z.to_nat (n - 1)) l' ++ [get l h]).
  { replace (Z.to_nat n) with (S (Z.to_nat (n - 1))) by lia.
    apply take_S_r. rewrite <- Hmoved. apply get_lookup. lia. }
  assert (Eh : take (Z.to_nat n) l !! Z.to_nat h = Some (get l h)).
  { rewrite lookup_take_lt by lia. apply get_lookup. lia. }
  apply delete_Permutation in Eh.
  rewrite Elast, Eh in Htake.
  rewrite <- Permutation_cons_append in Htake.
  by apply Permutation_cons_inv in Htake.
Qed.

End Mutators.

(** X12: pushing into, or restoring after an increase in, a range that is
    already a heap changes nothing: [push_heap] on a heap [first, last)
    and [restore_heap_after_item_increase] at any item of it return the
    range as it was. *)
Theorem sift_up_entry_points_keep_valid_heap {A : Type} Fanout PageChunks
    (less : A -> A -> bool) (first : list A) (last : Z) :
  valid_layout Fanout PageChunks ->
  0 <= last <= Z.of_nat (length first) -> last <= SIZE_MAX ->
  is_heap Fanout PageChunks less first last = Some true ->
  push_heap Fanout PageChunks less first last = Some first /\
  (forall item, 0 <= item < last ->
     restore_heap_after_item_increase Fanout PageChunks less first item
     = Some first).
Proof.
  intros Hlayout Hlast HS Hheap.
  assert (Hd : first = [] \/ exists d : A, True) by (destruct first; eauto).
  destruct Hd as [->|[d _]].
  { simpl in Hlast. assert (last = 0) as -> by lia. split; [done|].
    intros; lia. }
  apply (is_heap_true _ _ _ Hlayout d) in Hheap; [|lia..].
  split.
  - unfold push_heap. destruct (Z.ltb_spec 1 last); [|done].
    rewrite wrap_small by lia. rewrite (rd_get d) by lia. simpl.
    apply sift_up_dominated; [done|lia|lia|].
    intros Hpos. apply Hheap; [lia|].
    pose proof (parent_lt _ _ Hlayout (last - 1) ltac:(lia)). lia.
  - intros item Hitem. unfold restore_heap_after_item_increase.
    destruct (Z.ltb_spec 0 item); [|done].
    rewrite (rd_get d) by lia. simpl.
    apply sift_up_dominated; [done|lia|lia|].
    intros Hpos. apply Hheap; [lia|].
    pose proof (parent_lt _ _ Hlayout item ltac:(lia)). lia.
Qed.

Lemma sift_up_entry_points_keep_valid_heap_witness :
  push_heap 3 2 Z.ltb [9; 7; 8; 3; 5; 1; 6] 7 = Some [9; 7; 8; 3; 5; 1; 6] /\
  (forall item, 0 <= item < 7 ->
     restore_heap_after_item_increase 3 2 Z.ltb [9; 7; 8; 3; 5; 1; 6] item
     = Some [9; 7; 8; 3; 5; 1; 6]).
Proof.
  apply sift_up_entry_points_keep_valid_heap.
  - exact valid_layout_3_2.
  - simpl. lia.
  - unfold SIZE_MAX. lia.
  - vm_compute. reflexivity.
Defined.

(** X13: the operations are confined to their range. Applied to a range
    [first, last) inside a longer buffer, each of them returns, rearranges
    the elements of the range among themselves and leaves everything from
    [last] on untouched; [restore_heap_after_item_increase] touches nothing
    after [item]. This holds for every comparator. *)
Theorem mutations_confined_to_range {A : Type} Fanout PageChunks
    (less : A -> A -> bool) (first : list A) (last : Z) :
  valid_layout Fanout PageChunks ->
  0 <= last <= Z.of_nat (length first) -> last <= SIZE_MAX ->
  let confined (n : Z) (result : option (list A)) :=
    exists first', result = Some first' /\
      take (Z.to_nat n) first' ≡ₚ take (Z.to_nat n) first /\
      drop (Z.to_nat n) first' = drop (Z.to_nat n) first in
  confined last (make_heap Fanout PageChunks less first last) /\
  confined last (push_heap Fanout PageChunks less first last) /\
  confined last (pop_heap Fanout PageChunks less first last) /\
  confined last (sort_heap Fanout PageChunks less first last) /\
  (forall item, 0 <= item < last ->
   confined (item + 1)
     (restore_heap_after_item_increase Fanout PageChunks less first item)) /\
  (forall item, 0 <= item < last ->
   confined last
     (restore_heap_after_item_decrease Fanout PageChunks less first item
        last)) /\
  (forall item, 0 <= item < last ->
   confined last
     (remove_from_heap Fanout PageChunks less first item last)).
Proof.
  intros Hlayout Hlast HS confined. subst confined. simpl.
  assert (Hd : first = [] \/ exists d : A, True) by (destruct first; eauto).
  destruct Hd as [->|[d _]].
  { simpl in Hlast. assert (last = 0) as -> by lia.
    repeat (split; [by exists []|]).
    repeat split; intros; lia. }
  repeat split.
  - destruct (make_heap_spec Fanout PageChunks less Hlayout d first last)
      as (first' & ? & Hlen & Hperm & Hframe & _); [lia..|].
    exists first'. split; [done|].
    apply (frame_take_drop d); [lia|done..].
  - destruct (push_heap_spec Fanout PageChunks less Hlayout d first last)
      as (first' & ? & Hlen & Hperm & Hframe & _); [lia..|].
    exists first'. split; [done|].
    apply (frame_take_drop d); [lia|done..].
  - destruct (decide (last = 0)) as [E|Hne].
    { exists first. rewrite E. by split. }
    destruct (pop_heap_spec Fanout PageChunks less Hlayout d first last)
      as (first' & ? & Hlen & Hperm & Hframe & _); [lia..|].
    exists first'. split; [done|].
    apply (frame_take_drop d); [lia|done..].
  - destruct (sort_heap_spec Fanout PageChunks less Hlayout d first last)
      as (first' & ? & Hlen & Hperm & Hframe & _); [lia..|].
    exists first'. split; [done|].
    apply (frame_take_drop d); [lia|done..].
  - intros item Hitem.
    destruct (restore_heap_after_item_increase_spec Fanout PageChunks less
                Hlayout d first item)
      as (first' & ? & Hlen & Hperm & Hframe & _); [lia..|].
    exists first'. split; [done|].
    apply (frame_take_drop d); [lia|done..|].
    intros u Hu. apply Hframe. lia.
  - intros item Hitem.
    destruct (restore_heap_after_item_decrease_spec Fanout PageChunks less
                Hlayout d first item last)
      as (first' & ? & Hlen & Hperm & Hframe & _); [lia..|].
    exists first'. split; [done|].
    apply (frame_take_drop d); [lia|done..].
  - intros item Hitem.
    destruct (remove_from_heap_spec Fanout PageChunks less Hlayout d first
                item last)
      as (first' & ? & Hlen & Hperm & Hframe & _); [lia..|].
    exists first'. split; [done|].
    apply (frame_take_drop d); [lia|done..].
Qed.

Lemma mutations_confined_to_range_witness :
  exists first',
    make_heap 3 2 Z.ltb [1; 5; 3; 9; 7; 0; 2] 4 = Some first' /\
    take 4 first' ≡ₚ [1; 5; 3; 9] /\ drop 4 first' = [7; 0; 2].
Proof.
  destruct (mutations_confined_to_range 3 2 Z.ltb [1; 5; 3; 9; 7; 0; 2] 4)
    as (H & _).
  - exact valid_layout_3_2.
  - simpl. lia.
  - unfold SIZE_MAX. lia.
  - exact H.
Defined.

(** X14: [sort_heap] sorts a heap: applied to a valid heap it returns an
    ascending permutation of it. *)
Theorem sort_heap_sorts_heap {A : Type} Fanout PageChunks
    (less : A -> A -> bool) (first : list A) (last : Z) :
  valid_layout Fanout PageChunks -> StrictWeakOrder less ->
  last = Z.of_nat (length first) -> last <= SIZE_MAX ->
  is_heap Fanout PageChunks less first last = Some true ->
  exists first',
    sort_heap Fanout PageChunks less first last = Some first' /\
    first' ≡ₚ first /\ ascending less first'.
Proof.
  intros Hlayout Hswo Hlast HS Hheap.
  assert (Hd : first = [] \/ exists d : A, True) by (destruct first; eauto).
  destruct Hd as [->|[d _]].
  { simpl in Hlast. subst last. exists []. split; [done|].
    split; [done|constructor]. }
  apply (is_heap_true _ _ _ Hlayout d) in Hheap; [|lia..].
  destruct (sort_heap_spec Fanout PageChunks less Hlayout d first last)
    as (first' & ? & _ & Hperm & _ & Hasc); [lia..|].
  exists first'. split; [done|]. split; [done|]. by apply Hasc.
Qed.

Lemma sort_heap_sorts_heap_witness :
  exists first',
    sort_heap 3 2 Z.ltb [9; 7; 8; 3; 5; 1; 6] 7 = Some first' /\
    first' ≡ₚ [9; 7; 8; 3; 5; 1; 6] /\ ascending Z.ltb first'.
Proof.
  apply sort_heap_sorts_heap.
  - exact valid_layout_3_2.
  - exact Zltb_swo.
  - reflexivity.
  - vm_compute. discriminate.
  - vm_compute. reflexivity.
Defined.

(** X15: pushing an element and then popping returns a maximum of the heap
    and the pushed element together: after [push_heap] and [pop_heap] on
    [first, last), where [first, last - 1) was a heap, the range
    [first, last - 1) is a heap again, the last slot holds an element that
    none of the original range exceeds, and the range is a permutation of
    the original one. *)
Theorem push_heap_then_pop_heap {A : Type} Fanout PageChunks
    (less : A -> A -> bool) (first : list A) (last : Z) :
  valid_layout Fanout PageChunks -> StrictWeakOrder less ->
  last = Z.of_nat (length first) -> last <= SIZE_MAX -> 1 <= last ->
  is_heap Fanout PageChunks less first (last - 1) = Some true ->
  exists pushed popped maximum,
    push_heap Fanout PageChunks less first last = Some pushed /\
    pop_heap Fanout PageChunks less pushed last = Some popped /\
    is_heap Fanout PageChunks less popped (last - 1) = Some true /\
    popped ≡ₚ first /\
    rd popped (last - 1) = Some maximum /\
    (forall x, x ∈ first -> less maximum x = false).
Proof.
  intros Hlayout Hswo Hlast HS Hpos Hheap.
  assert (Hd : exists d : A, True)
    by (destruct first; [simpl in *; lia|eauto]).
  destruct Hd as [d _].
  apply (is_heap_true _ _ _ Hlayout d) in Hheap; [|lia..].
  destruct (push_heap_spec Fanout PageChunks less Hlayout d first last)
    as (pushed & E1 & Hlen1 & Hperm1 & _ & Hheap1); [lia..|].
  specialize (Hheap1 Hswo Hheap).
  destruct (pop_heap_spec Fanout PageChunks less Hlayout d pushed last)
    as (popped & E2 & Hlen2 & Hperm2 & _ & Hmoved & Hheap2); [lia..|].
  specialize (Hheap2 Hswo Hheap1).
  exists pushed, popped, (get d pushed 0).
  split; [done|]. split; [done|].
  split. { apply (is_heap_true _ _ _ Hlayout d); [lia|lia|done]. }
  split. { by rewrite Hperm2. }
  split. { rewrite (rd_get d) by lia. by rewrite Hmoved. }
  intros x Hx. rewrite <- Hperm1 in Hx.
  apply (elem_of_get d) in Hx as (u & Hu & ->).
  apply (heap_root_max Fanout PageChunks less Hlayout d pushed last);
    [done|done|done|lia].
Qed.

Lemma push_heap_then_pop_heap_witness :
  exists pushed popped maximum,
    push_heap 2 1 Z.ltb [9; 7; 8; 3; 5; 10] 6 = Some pushed /\
    pop_heap 2 1 Z.ltb pushed 6 = Some popped /\
    is_heap 2 1 Z.ltb popped (6 - 1) = Some true /\
    popped ≡ₚ [9; 7; 8; 3; 5; 10] /\
    rd popped (6 - 1) = Some maximum /\
    (forall x, x ∈ [9; 7; 8; 3; 5; 10] -> (maximum <? x) = false).
Proof.
  apply (push_heap_then_pop_heap 2 1 Z.ltb [9; 7; 8; 3; 5; 10] 6).
  - exact valid_layout_2_1.
  - exact Zltb_swo.
  - reflexivity.
  - vm_compute. discriminate.
  - lia.
  - vm_compute. reflexivity.
Defined.

(** X16: [pop_heap] removes the root and nothing else: on a range of at
    least one element inside a buffer, the range minus its last slot ends
    up with the elements the range held apart from the root, and the last
    slot with the former root. This holds for every comparator. *)
Theorem pop_heap_removes_root {A : Type} Fanout PageChunks
    (less : A -> A -> bool) (first : list A) (last : Z) :
  valid_layout Fanout PageChunks ->
  1 <= last <= Z.of_nat (length first) -> last <= SIZE_MAX ->
  exists first' root,
    pop_heap Fanout PageChunks less first last = Some first' /\
    rd first 0 = Some root /\ rd first' (last - 1) = Some root /\
    take (Z.to_nat (last - 1)) first'
    ≡ₚ delete 0%nat (take (Z.to_nat last) first).
Proof.
  intros Hlayout Hlast HS.
  assert (Hd : exists d : A, True)
    by (destruct first; [simpl in *; lia|eauto]).
  destruct Hd as [d _].
  destruct (pop_heap_spec Fanout PageChunks less Hlayout d first last)
    as (first' & E & Hlen & Hperm & Hframe & Hmoved & _); [lia..|].
  exists first', (get d first 0). split; [done|].
  split; [apply rd_get; lia|].
  split. { rewrite (rd_get d) by lia. by rewrite Hmoved. }
  apply (removal_perm d first first' 0 last); [lia|lia|done..].
Qed.

Lemma pop_heap_removes_root_witness :
  exists first' root,
    pop_heap 3 2 Z.ltb [9; 7; 8; 3; 5; 1; 6] 5 = Some first' /\
    rd [9; 7; 8; 3; 5; 1; 6] 0 = Some root /\
    rd first' (5 - 1) = Some root /\
    take (Z.to_nat (5 - 1)) first'
    ≡ₚ delete 0%nat (take (Z.to_nat 5) [9; 7; 8; 3; 5; 1; 6]).
Proof.
  apply pop_heap_removes_root.
  - exact valid_layout_3_2.
  - simpl. lia.
  - unfold SIZE_MAX. lia.
Defined.

(** X17: [remove_from_heap] removes the chosen item and nothing else: for
    every item of the range, the range minus its last slot ends up as a
    heap holding the elements the range held apart from the item, and the
    last slot holds the item's value. *)
Theorem remove_from_heap_removes_item {A : Type} Fanout PageChunks
    (less : A -> A -> bool) (first : list A) (item last : Z) :
  valid_layout Fanout PageChunks -> StrictWeakOrder less ->
  0 <= item < last -> last <= Z.of_nat (length first) -> last <= SIZE_MAX ->
  is_heap Fanout PageChunks less first last = Some true ->
  exists first' removed,
    remove_from_heap Fanout PageChunks less first item last = Some first' /\
    rd first item = Some removed /\ rd first' (last - 1) = Some removed /\
    take (Z.to_nat (last - 1)) first'
    ≡ₚ delete (Z.to_nat item) (take (Z.to_nat last) first) /\
    is_heap Fanout PageChunks less first' (last - 1) = Some true.
Proof.
  intros Hlayout Hswo Hitem Hlast HS Hheap.
  assert (Hd : exists d : A, True)
    by (destruct first; [simpl in *; lia|eauto]).
  destruct Hd as [d _].
  apply (is_heap_true _ _ _ Hlayout d) in Hheap; [|lia..].
  destruct (remove_from_heap_spec Fanout PageChunks less Hlayout d first
              item last)
    as (first' & E & Hlen & Hperm & Hframe & Hmoved & Hheap'); [lia..|].
  exists first', (get d first item). split; [done|].
  split; [apply rd_get; lia|].
  split. { rewrite (rd_get d) by lia. by rewrite Hmoved. }
  split. { apply (removal_perm d first first' item last); [lia|lia|done..]. }
  apply (is_heap_true _ _ _ Hlayout d); [lia|lia|auto].
Qed.

Lemma remove_from_heap_removes_item_witness :
  exists first' removed,
    remove_from_heap 2 1 Z.ltb [10; 5; 9; 1; 2; 8; 7] 1 7 = Some first' /\
    rd [10; 5; 9; 1; 2; 8; 7] 1 = Some removed /\
    rd first' (7 - 1) = Some removed /\
    take (Z.to_nat (7 - 1)) first'
    ≡ₚ delete (Z.to_nat 1) (take (Z.to_nat 7) [10; 5; 9; 1; 2; 8; 7]) /\
    is_heap 2 1 Z.ltb first' (7 - 1) = Some true.
Proof.
  apply remove_from_heap_removes_item.
  - exact valid_layout_2_1.
  - exact Zltb_swo.
  - lia.
  - simpl. lia.
  - unfold SIZE_MAX. lia.
  - vm_compute. reflexivity.
Defined.

(** X18: a sift is local. [_sift_down] from [hole_index] in a heap of
    [heap_size] returns and changes no slot before [hole_index] and none
    from [heap_size] on; [_sift_up] to the root changes no slot after
    [hole_index]. This is what lets [make_heap] build the heap bottom-up
    and the operations work on a prefix of a buffer. *)
Theorem sifts_are_local {A : Type} Fanout PageChunks
    (less : A -> A -> bool) (first : list A)
    (heap_size hole_index : Z) (item : A) :
  valid_layout Fanout PageChunks ->
  0 <= hole_index < heap_size ->
  heap_size <= Z.of_nat (length first) -> heap_size <= SIZE_MAX ->
  (exists first',
     _sift_down Fanout PageChunks less first heap_size hole_index item
     = Some first' /\
     length first' = length first /\
     forall u, 0 <= u < hole_index \/ heap_size <= u ->
       rd first' u = rd first u) /\
  (exists first',
     _sift_up Fanout PageChunks less first 0 hole_index item = Some first' /\
     length first' = length first /\
     forall u, hole_index < u -> rd first' u = rd first u).
Proof.
  intros Hlayout Hhole Hsize HS.
  assert (Hd : exists d : A, True)
    by (destruct first; [simpl in *; lia|eauto]).
  destruct Hd as [d _].
  assert (Hrd : forall l l' : list A, length l' = length l ->
            forall u, 0 <= u -> get d l' u = get d l u -> rd l' u = rd l u).
  { intros l l' Hlen u Hu E.
    destruct (Z_lt_ge_dec u (Z.of_nat (length l))).
    - rewrite !(rd_get d) by lia. by rewrite E.
    - unfold rd. rewrite !decide_True by lia.
      rewrite !lookup_ge_None_2 by lia. done. }
  split.
  - destruct (sift_down_spec Fanout PageChunks less Hlayout d heap_size first
                hole_index item)
      as (first' & E & Hlen & _ & Hframe & _); [lia..|].
    exists first'. split; [done|]. split; [done|].
    intros u Hu. apply Hrd; [done|lia|].
    apply Hframe; [lia|lia|].
    intros [Hu1 Hup].
    pose proof (parent_lt _ _ Hlayout u ltac:(lia)). lia.
  - destruct (sift_up_spec Fanout PageChunks less Hlayout d heap_size first
                hole_index item)
      as (first' & E & Hlen & _ & Hframe & _); [lia..|].
    exists first'. split; [done|]. split; [done|].
    intros u Hu. apply Hrd; [done|lia|]. by apply Hframe.
Qed.

Lemma sifts_are_local_witness :
  (exists first',
     _sift_down 2 1 Z.ltb [9; 0; 8; 3; 5; 1; 6] 6 1 0 = Some first' /\
     length first' = length [9; 0; 8; 3; 5; 1; 6] /\
     forall u, 0 <= u < 1 \/ 6 <= u ->
       rd first' u = rd [9; 0; 8; 3; 5; 1; 6] u) /\
  (exists first',
     _sift_up 2 1 Z.ltb [9; 0; 8; 3; 5; 1; 6] 0 1 0 = Some first' /\
     length first' = length [9; 0; 8; 3; 5; 1; 6] /\
     forall u, 1 < u -> rd first' u = rd [9; 0; 8; 3; 5; 1; 6] u).
Proof.
  apply sifts_are_local.
  - exact valid_layout_2_1.
  - lia.
  - simpl. lia.
  - unfold SIZE_MAX. lia.
Defined.

(** * Updating a key *)

Section UpdateKey.
Context {A : Type}.
Variables Fanout PageChunks : Z.
Variable less : A -> A -> bool.
Hypothesis Hlayout : valid_layout Fanout PageChunks.
Context `{!StrictWeakOrder less}.
Variable d : A.

Local Abbreviation P := (get_parent_index Fanout PageChunks).
Local Abbreviation heap_from := (heap_from Fanout PageChunks less d).
Local Abbreviation get := (get d).

Variables (first : list A) (last item : Z) (new_item : A).
Hypothesis Hitem : 0 <= item < last.
Hypothesis Hlast : last <= Z.of_nat (length first).
Hypothesis HS : last <= SIZE_MAX.
Hypothesis Hheap : heap_from first last 0.

Local Abbreviation updated := (fill first item new_item).

Lemma updated_other u : 0 <= u -> u <> item -> get updated u = get first u.
Proof. intros. apply get_fill_ne; lia. Qed.

Lemma updated_item : get updated item = new_item.
Proof. apply get_fill_eq. lia. Qed.

Lemma heap_edge u :
  1 <= u < last -> less (get first (P u)) (get first u) = false.
Proof.
  intros Hu. pose proof (parent_lt _ _ Hlayout u ltac:(lia)).
  apply Hheap; lia.
Qed.

Lemma key_raised :
  less new_item (get first item) = false ->
  exists first',
    restore_heap_after_item_increase Fanout PageChunks less updated item
    = Some first' /\
    first' ≡ₚ updated /\ heap_from first' last 0.
Proof.
  intros Hup.
  assert (Hchildren : forall u, 1 <= u < last -> P u = item ->
            less new_item (get first u) = false).
  { intros u Hu Hpu. eapply less_neg_trans; [done|exact Hup|].
    rewrite <- Hpu. by apply heap_edge. }
  assert (Hrest : forall u, 1 <= u < last -> u <> item ->
            less (get updated (P u)) (get updated u) = false).
  { intros u Hu Hne.
    pose proof (parent_lt _ _ Hlayout u ltac:(lia)) as Hp.
    rewrite (updated_other u) by lia.
    destruct (decide (P u = item)) as [E|Hpne].
    - rewrite E, updated_item. by apply Hchildren.
    - rewrite updated_other by lia. by apply heap_edge. }
  unfold restore_heap_after_item_increase.
  destruct (Z.ltb_spec 0 item) as [Hpos|Hroot].
  - rewrite (rd_get d) by (rewrite length_fill; lia). simpl.
    rewrite updated_item.
    destruct (sift_up_spec Fanout PageChunks less Hlayout d last updated
                item new_item)
      as (first' & E & _ & Hperm & _ & Hh);
      [lia|rewrite length_fill; lia|lia|].
    exists first'. split; [done|]. split.
    { rewrite Hperm. unfold fill. by rewrite list_insert_insert_eq. }
    apply Hh; [done|done| |].
    + intros u Hu Hpu.
      pose proof (parent_lt _ _ Hlayout u ltac:(lia)) as Hp.
      rewrite (updated_other u) by lia. by apply Hchildren.
    + intros _ u Hu Hpu.
      pose proof (parent_lt _ _ Hlayout item ltac:(lia)) as Hp.
      pose proof (parent_lt _ _ Hlayout u ltac:(lia)) as Hp'.
      rewrite (updated_other u), updated_other by lia.
      eapply less_neg_trans; [done|apply (heap_edge item); lia|].
      rewrite <- Hpu. by apply heap_edge.
  - exists updated. split; [done|]. split; [done|].
    assert (item = 0) as E0 by lia.
    intros u Hu _. destruct (decide (u = item)) as [->|Hne]; [lia|].
    by apply Hrest.
Qed.

Lemma key_lowered :
  less (get first item) new_item = false ->
  exists first',
    restore_heap_after_item_decrease Fanout PageChunks less updated item last
    = Some first' /\
    first' ≡ₚ updated /\ heap_from first' last 0.
Proof.
  intros Hdown.
  destruct (restore_heap_after_item_decrease_spec Fanout PageChunks less
              Hlayout d updated item last)
    as (first' & E & _ & Hperm & _ & Hh);
    [lia|rewrite length_fill; lia|lia|].
  exists first'. split; [done|]. split; [done|].
  apply Hh; [done| | |].
  - intros u Hu Hne Hpne.
    pose proof (parent_lt _ _ Hlayout u ltac:(lia)) as Hp.
    rewrite (updated_other u), updated_other by lia. by apply heap_edge.
  - intros Hpos.
    pose proof (parent_lt _ _ Hlayout item ltac:(lia)) as Hp.
    rewrite updated_item, updated_other by lia.
    eapply less_neg_trans; [done|apply (heap_edge item); lia|done].
  - intros Hpos u Hu Hpu.
    pose proof (parent_lt _ _ Hlayout item ltac:(lia)) as Hp.
    pose proof (parent_lt _ _ Hlayout u ltac:(lia)) as Hp'.
    rewrite (updated_other u), updated_other by lia.
    eapply less_neg_trans; [done|apply (heap_edge item); lia|].
    rewrite <- Hpu. by apply heap_edge.
Qed.

End UpdateKey.

(** X19: updating a key. In a heap [first, last), overwrite the value at
    [item] with any other value. If the new value is not less than the old
    one, [restore_heap_after_item_increase] makes the whole range a heap
    again; if the old value is not less than the new one,
    [restore_heap_after_item_decrease] does. Either way the result is a
    permutation of the range as overwritten. *)
Theorem restore_heap_after_key_update {A : Type} Fanout PageChunks
    (less : A -> A -> bool) (first : list A) (last item : Z)
    (old_item new_item : A) :
  valid_layout Fanout PageChunks -> StrictWeakOrder less ->
  0 <= item < last -> last <= Z.of_nat (length first) -> last <= SIZE_MAX ->
  is_heap Fanout PageChunks less first last = Some true ->
  rd first item = Some old_item ->
  (less new_item old_item = false ->
   exists first',
     restore_heap_after_item_increase Fanout PageChunks less
       (fill first item new_item) item = Some first' /\
     first' ≡ₚ fill first item new_item /\
     is_heap Fanout PageChunks less first' last = Some true) /\
  (less old_item new_item = false ->
   exists first',
     restore_heap_after_item_decrease Fanout PageChunks less
       (fill first item new_item) item last = Some first' /\
     first' ≡ₚ fill first item new_item /\
     is_heap Fanout PageChunks less first' last = Some true).
Proof.
  intros Hlayout Hswo Hitem Hlast HS Hheap Hold.
  assert (d : A) by exact old_item.
  apply (is_heap_true _ _ _ Hlayout d) in Hheap; [|lia..].
  rewrite (rd_get d) in Hold by lia. injection Hold as Hold.
  split.
  - intros Hup. rewrite <- Hold in Hup.
    destruct (key_raised Fanout PageChunks less Hlayout d first last item
                new_item) as (first' & E & Hperm & Hh); [done..|].
    exists first'. split; [done|]. split; [done|].
    apply (is_heap_true _ _ _ Hlayout d); [|lia|done].
    rewrite (Permutation_length Hperm), length_fill. lia.
  - intros Hdown. rewrite <- Hold in Hdown.
    destruct (key_lowered Fanout PageChunks less Hlayout d first last item
                new_item) as (first' & E & Hperm & Hh); [done..|].
    exists first'. split; [done|]. split; [done|].
    apply (is_heap_true _ _ _ Hlayout d); [|lia|done].
    rewrite (Permutation_length Hperm), length_fill. lia.
Qed.

Lemma restore_heap_after_key_update_witness :
  ((12 <? 5) = false ->
   exists first',
     restore_heap_after_item_increase 2 1 Z.ltb
       (fill [10; 5; 9; 1; 2; 8; 7] 1 12) 1 = Some first' /\
     first' ≡ₚ fill [10; 5; 9; 1; 2; 8; 7] 1 12 /\
     is_heap 2 1 Z.ltb first' 7 = Some true) /\
  ((5 <? 12) = false ->
   exists first',
     restore_heap_after_item_decrease 2 1 Z.ltb
       (fill [10; 5; 9; 1; 2; 8; 7] 1 12) 1 7 = Some first' /\
     first' ≡ₚ fill [10; 5; 9; 1; 2; 8; 7] 1 12 /\
     is_heap 2 1 Z.ltb first' 7 = Some true).
Proof.
  apply (restore_heap_after_key_update 2 1 Z.ltb [10; 5; 9; 1; 2; 8; 7] 7 1
           5 12).
  - exact valid_layout_2_1.
  - exact Zltb_swo.
  - lia.
  - simpl. lia.
  - unfold SIZE_MAX. lia.
  - vm_compute. reflexivity.
  - reflexivity.
Defined.

(** * What the source asserts or says in comments *)

(** X20: in the flat layout [make_heap] starts at the last node that has a
    child and so skips the leaves and nothing else: node
    [(heap_size - 2) / Fanout] has a child inside the heap and no later
    node has one. *)
Theorem flat_make_heap_skips_the_leaves Fanout heap_size :
  valid_layout Fanout 1 -> 2 <= heap_size <= SIZE_MAX ->
  let i := (heap_size - 2) / Fanout in
  0 <= i < heap_size /\
  get_child_index Fanout 1 i < heap_size /\
  (forall u, i < u < heap_size -> heap_size <= get_child_index Fanout 1 u).
Proof.
  intros Hlayout Hsize i. subst i. pose proof Hlayout as (HF & _ & _).
  destruct (divmod_spec (heap_size - 2) Fanout) as (E & Hq & Hr); [lia..|].
  set (q := (heap_size - 2) / Fanout) in *.
  set (r := (heap_size - 2) mod Fanout) in *.
  assert (Hqlt : q < heap_size) by nia.
  split; [lia|].
  assert (Eflat : forall u, 0 <= u <= SIZE_MAX ->
            get_child_index Fanout 1 u = Z.min (u * Fanout + 1) SIZE_MAX).
  { intros u Hu. by rewrite (get_child_index_ideal _ _ Hlayout). }
  split.
  - rewrite Eflat by lia. nia.
  - intros u Hu. rewrite Eflat by lia.
    assert (q * Fanout + Fanout <= u * Fanout) by nia. lia.
Qed.

Lemma flat_make_heap_skips_the_leaves_witness :
  let i := (12 - 2) / 3 in
  0 <= i < 12 /\
  get_child_index 3 1 i < 12 /\
  (forall u, i < u < 12 -> 12 <= get_child_index 3 1 u).
Proof.
  apply flat_make_heap_skips_the_leaves.
  - unfold valid_layout, SIZE_MAX. lia.
  - unfold SIZE_MAX. lia.
Defined.



(** X22: the loop of [_sift_down] ends at a leaf below the starting hole.
    It returns a terminal hole inside the heap that lies in the subtree of
    [hole_index] and has no child in the heap; and every node of that
    subtree other than its root has its parent at or after [hole_index],
    which is the assertion [parent_index >= root_index] of the [_sift_up]
    that follows. *)
Theorem sift_down_loop_reaches_leaf {A : Type} Fanout PageChunks
    (less : A -> A -> bool) (first : list A) (heap_size hole_index : Z) :
  valid_layout Fanout PageChunks ->
  0 <= hole_index < heap_size ->
  heap_size <= Z.of_nat (length first) -> heap_size <= SIZE_MAX ->
  exists first' terminal,
    _sift_down_loop Fanout PageChunks less (Z.to_nat heap_size) first
      heap_size ((heap_size - 1) mod Fanout) hole_index
    = Some (first', terminal) /\
    hole_index <= terminal < heap_size /\
    anc Fanout PageChunks hole_index terminal /\
    (forall u, 1 <= u < heap_size ->
       get_parent_index Fanout PageChunks u <> terminal) /\
    (forall u, anc Fanout PageChunks hole_index u -> u <> hole_index ->
       hole_index <= get_parent_index Fanout PageChunks u).
Proof.
  intros Hlayout Hhole Hsize HS.
  assert (Hd : exists d : A, True)
    by (destruct first; [simpl in *; lia|eauto]).
  destruct Hd as [d _].
  destruct (sift_down_loop_spec Fanout PageChunks less Hlayout d heap_size
              (Z.to_nat heap_size) first hole_index)
    as (first' & terminal & E & _ & Hrange & Hanc & Hleaf & _); [lia..|].
  exists first', terminal. split; [done|]. split; [done|].
  split; [done|]. split; [done|].
  intros u Hu Hne. apply (anc_parent_ge Fanout PageChunks Hlayout); [lia|done..].
Qed.

Lemma sift_down_loop_reaches_leaf_witness :
  exists first' terminal,
    _sift_down_loop 2 1 Z.ltb (Z.to_nat 7) [0; 5; 9; 1; 2; 8; 7] 7
      ((7 - 1) mod 2) 0
    = Some (first', terminal) /\
    0 <= terminal < 7 /\
    anc 2 1 0 terminal /\
    (forall u, 1 <= u < 7 -> get_parent_index 2 1 u <> terminal) /\
    (forall u, anc 2 1 0 u -> u <> 0 -> 0 <= get_parent_index 2 1 u).
Proof.
  apply sift_down_loop_reaches_leaf.
  - exact valid_layout_2_1.
  - lia.
  - simpl. lia.
  - unfold SIZE_MAX. lia.
Defined.

(** * Further properties of the N-way merge *)

Section MergeOne.
Context {A : Type}.
Variables Fanout PageChunks : Z.
Variable less : A -> A -> bool.
Hypothesis Hlayout : valid_layout Fanout PageChunks.

Lemma get_child_index_root : get_child_index Fanout PageChunks 0 = 1.
Proof.
  pose proof SIZE_MAX_pos.
  rewrite (get_child_index_ideal _ _ Hlayout) by lia.
  unfold child_ideal. destruct (PageChunks =? 1); simpl; lia.
Qed.

(** A heap of one element has nothing to restore. *)
Lemma restore_single {B : Type} (cmp : B -> B -> bool) (x : B) :
  restore_heap_after_item_decrease Fanout PageChunks cmp [x] 0 1 = Some [x].
Proof.
  pose proof Hlayout as (HF & HP & _).
  unfold restore_heap_after_item_decrease, _sift_down. simpl.
  rewrite get_child_index_root.
  replace (wrap (1 - 1)) with 0 by done.
  rewrite Z.mod_0_l by lia. done.
Qed.

Lemma nway_merge_loop_single : forall rest x output,
  nway_merge_loop Fanout PageChunks less (S (length rest)) [x :: rest] 1
    output
  = Some ([[]], output ++ x :: rest).
Proof.
  induction rest as [|x' rest IH]; intros x output.
  - by rewrite (nway_merge_loop_exhausted _ _ _ _ _ [[]] x []).
  - rewrite (nway_merge_loop_live _ _ _ _ _ [x' :: rest] x x' rest [])
      by done.
    rewrite restore_single.
    change (length (x' :: rest)) with (S (length rest)).
    change (nway_merge_loop Fanout PageChunks less (S (length rest))
              [x' :: rest] 1 (output ++ [x])
            = Some ([[]], output ++ x :: x' :: rest)).
    rewrite (IH x' (output ++ [x])). by rewrite <- app_assoc.
Qed.

(** [nway_merge] returns an ascending permutation of its inputs. *)
Lemma nway_merge_spec (input_ranges : list (list A)) (k : Z) :
  StrictWeakOrder less ->
  k = Z.of_nat (length input_ranges) -> 1 <= k -> k <= SIZE_MAX ->
  Forall (fun r => r <> [] /\ ascending less r) input_ranges ->
  exists consumed output,
    nway_merge Fanout PageChunks less input_ranges k
    = Some (consumed, output) /\
    output ≡ₚ concat input_ranges /\
    ascending less output /\
    Forall (.= []) consumed.
Proof.
  intros Hswo Ek Hk HS Hin.
  unfold nway_merge.
  destruct (make_heap_spec Fanout PageChunks (_nway_merge_less_comparer less)
              Hlayout [] input_ranges k)
    as (first & -> & Hlen & Hperm & _ & Hheap); [lia..|].
  simpl.
  destruct (nway_merge_loop_spec Fanout PageChunks less Hlayout
              (length (concat input_ranges)) first k [])
    as (consumed & output & -> & Hlen' & Hempty & Hout & Hasc).
  - lia.
  - lia.
  - apply Hheap. by apply nway_less_swo.
  - intros u Hu. rewrite <- Hperm in Hin. rewrite Forall_forall in Hin.
    apply Hin. apply list_elem_of_In, get_elem_of. lia.
  - intros u Hu. unfold get, rd. rewrite decide_True by lia.
    by rewrite lookup_ge_None_2 by lia.
  - constructor.
  - intros x y Hx. by apply elem_of_nil in Hx.
  - rewrite (Permutation_length (concat_perm _ _ Hperm)). lia.
  - exists consumed, output. split; [done|].
    split; [|done]. rewrite Hout. simpl. by apply concat_perm.
Qed.

End MergeOne.

(** X23: the inverted comparator of [nway_merge] turns the max-heap into a
    min-heap of ranges: after [make_heap] over non-empty input ranges
    under [_nway_merge_less_comparer], the range at the root is the one
    whose front element is least, so that no range has a front element
    less than it. *)
Theorem nway_heap_root_has_least_front {A : Type} Fanout PageChunks
    (less : A -> A -> bool) (input_ranges : list (list A)) (k : Z) :
  valid_layout Fanout PageChunks -> StrictWeakOrder less ->
  k = Z.of_nat (length input_ranges) -> 1 <= k -> k <= SIZE_MAX ->
  Forall (fun r => r <> []) input_ranges ->
  exists first x rest,
    make_heap Fanout PageChunks (_nway_merge_less_comparer less)
      input_ranges k = Some first /\
    first ≡ₚ input_ranges /\
    rd first 0 = Some (x :: rest) /\
    (forall y rest', (y :: rest') ∈ input_ranges -> less y x = false).
Proof.
  intros Hlayout Hswo Ek Hk HS Hne.
  destruct (make_heap_spec Fanout PageChunks (_nway_merge_less_comparer less)
              Hlayout [] input_ranges k)
    as (first & E & Hlen & Hperm & _ & Hheap); [lia..|].
  specialize (Hheap (nway_less_swo less)).
  assert (Hroot : get [] first 0 ∈ input_ranges).
  { rewrite <- Hperm. apply get_elem_of. lia. }
  destruct (get [] first 0) as [|x rest] eqn:E0.
  { rewrite Forall_forall in Hne. by destruct (Hne [] ltac:(by apply list_elem_of_In)). }
  exists first, x, rest. split; [done|]. split; [done|].
  split. { rewrite (rd_get []) by lia. by rewrite E0. }
  intros y rest' Hy. rewrite <- Hperm in Hy.
  apply (elem_of_get []) in Hy as (u & Hu & Ey).
  pose proof (heap_root_max Fanout PageChunks (_nway_merge_less_comparer less)
                Hlayout [] first k (nway_less_swo less) HS Hheap u
                ltac:(lia)) as Hmax.
  rewrite E0, <- Ey in Hmax. exact Hmax.
Qed.

Lemma nway_heap_root_has_least_front_witness :
  exists first x rest,
    make_heap 2 1 (_nway_merge_less_comparer Z.ltb)
      [[5; 6]; [2; 3]; [1; 4; 7]] 3 = Some first /\
    first ≡ₚ [[5; 6]; [2; 3]; [1; 4; 7]] /\
    rd first 0 = Some (x :: rest) /\
    (forall y rest', (y :: rest') ∈ [[5; 6]; [2; 3]; [1; 4; 7]] ->
       (y <? x) = false).
Proof.
  apply nway_heap_root_has_least_front.
  - exact valid_layout_2_1.
  - exact Zltb_swo.
  - reflexivity.
  - lia.
  - vm_compute. discriminate.
  - repeat constructor; discriminate.
Defined.

(** X24: merging a single range copies it: for one non-empty input range,
    sorted or not, [nway_merge] writes the range to the output unchanged
    and leaves the range consumed, whatever the comparator. *)
Theorem nway_merge_single_range {A : Type} Fanout PageChunks
    (less : A -> A -> bool) (input_range : list A) :
  valid_layout Fanout PageChunks -> input_range <> [] ->
  nway_merge Fanout PageChunks less [input_range] 1
  = Some ([[]], input_range).
Proof.
  intros Hlayout Hne. destruct input_range as [|x rest]; [done|].
  change (nway_merge_loop Fanout PageChunks less
            (length (concat [x :: rest])) [x :: rest] 1 []
          = Some ([[]], x :: rest)).
  replace (length (concat [x :: rest])) with (S (length rest))
    by (simpl; rewrite app_nil_r; done).
  by rewrite (nway_merge_loop_single Fanout PageChunks less Hlayout).
Qed.

Lemma nway_merge_single_range_witness :
  nway_merge 3 2 Z.ltb [[4; 1; 3]] 1 = Some ([[]], [4; 1; 3]).
Proof.
  apply nway_merge_single_range.
  - exact valid_layout_3_2.
  - discriminate.
Defined.

(** * The overloads on [operator<], on integers *)

Lemma std_less_integers_swo : StrictWeakOrder (_std_less_comparer (A:=Z)).
Proof. exact Zltb_swo. Qed.

(** Ascending order under [<] on integers is non-decreasing order. *)
Lemma ascending_integers (l : list Z) :
  ascending (_std_less_comparer (A:=Z)) l <-> StronglySorted Z.le l.
Proof.
  unfold ascending, _std_less_comparer, operator_less, Z_operator_less.
  split; induction 1 as [|x l Hs IH Hall]; constructor; auto;
    (eapply Forall_impl; [|exact Hall]); simpl; intros y Hy; lia.
Qed.

(** X25: with the overloads that compare by [operator<], [make_heap]
    followed by [sort_heap] puts any sequence of integers in non-decreasing
    order: [make_heap] returns a range that [is_heap] accepts, and
    [sort_heap] turns it into the sorted rearrangement of the input. *)
Theorem default_overloads_sort_integers Fanout PageChunks
    (first : list Z) (last : Z) :
  valid_layout Fanout PageChunks ->
  last = Z.of_nat (length first) -> last <= SIZE_MAX ->
  exists heap sorted,
    Default.make_heap Fanout PageChunks first last = Some heap /\
    Default.is_heap Fanout PageChunks heap last = Some true /\
    Default.sort_heap Fanout PageChunks heap last = Some sorted /\
    sorted ≡ₚ first /\ StronglySorted Z.le sorted.
Proof.
  intros Hlayout Hlast HS.
  pose proof std_less_integers_swo as Hswo.
  unfold Default.make_heap, Default.is_heap, Default.sort_heap.
  destruct (make_heap_spec Fanout PageChunks _std_less_comparer Hlayout 0
              first last)
    as (heap & E1 & Hlen1 & Hperm1 & _ & Hheap1); [lia..|].
  destruct (sort_heap_spec Fanout PageChunks _std_less_comparer Hlayout 0
              heap last)
    as (sorted & E2 & _ & Hperm2 & _ & Hasc); [lia..|].
  exists heap, sorted. split; [done|].
  split. { apply (is_heap_true _ _ _ Hlayout 0); [lia|lia|auto]. }
  split; [done|]. split; [by rewrite Hperm2|].
  apply ascending_integers. apply Hasc; [done|lia|auto].
Qed.

Lemma default_overloads_sort_integers_witness :
  exists heap sorted,
    Default.make_heap 4 2 [3; 1; 4; 1; 5; 9; 2; 6] 8 = Some heap /\
    Default.is_heap 4 2 heap 8 = Some true /\
    Default.sort_heap 4 2 heap 8 = Some sorted /\
    sorted ≡ₚ [3; 1; 4; 1; 5; 9; 2; 6] /\ StronglySorted Z.le sorted.
Proof.
  apply default_overloads_sort_integers.
  - exact valid_layout_4_2.
  - reflexivity.
  - vm_compute. discriminate.
Defined.

(** X26: with the overload that compares by [operator<], [nway_merge] of
    non-empty, non-decreasing ranges of integers writes the non-decreasing
    rearrangement of all their elements and consumes every range. *)
Theorem default_nway_merge_integers Fanout PageChunks
    (input_ranges : list (list Z)) (k : Z) :
  valid_layout Fanout PageChunks ->
  k = Z.of_nat (length input_ranges) -> 1 <= k -> k <= SIZE_MAX ->
  Forall (fun r => r <> [] /\ StronglySorted Z.le r) input_ranges ->
  exists consumed output,
    Default.nway_merge Fanout PageChunks input_ranges k
    = Some (consumed, output) /\
    output ≡ₚ concat input_ranges /\
    StronglySorted Z.le output /\
    Forall (.= []) consumed.
Proof.
  intros Hlayout Ek Hk HS Hin.
  destruct (nway_merge_spec Fanout PageChunks _std_less_comparer Hlayout
              input_ranges k std_less_integers_swo Ek Hk HS)
    as (consumed & output & E & Hperm & Hasc & Hempty).
  { eapply Forall_impl; [|exact Hin]. simpl.
    intros r [Hne Hs]. split; [done|]. by apply ascending_integers. }
  exists consumed, output. split; [done|]. split; [done|].
  split; [by apply ascending_integers|done].
Qed.

Lemma default_nway_merge_integers_witness :
  exists consumed output,
    Default.nway_merge 2 1 [[1; 4; 7]; [2; 3]; [5; 6; 8; 9]] 3
    = Some (consumed, output) /\
    output ≡ₚ concat [[1; 4; 7]; [2; 3]; [5; 6; 8; 9]] /\
    StronglySorted Z.le output /\
    Forall (.= []) consumed.
Proof.
  apply default_nway_merge_integers.
  - exact valid_layout_2_1.
  - reflexivity.
  - lia.
  - vm_compute. discriminate.
  - repeat constructor; try discriminate; lia.
Defined.

(** X27: with the overloads that compare by [operator<], a heap of
    integers works as a priority queue: [push_heap] extends a heap by the
    element in the last slot, and [pop_heap] puts the greatest integer of
    the heap in the last slot and leaves a heap in front of it. *)
Theorem default_overloads_priority_queue_integers Fanout PageChunks
    (first : list Z) (last : Z) :
  valid_layout Fanout PageChunks ->
  last = Z.of_nat (length first) -> last <= SIZE_MAX -> 1 <= last ->
  (Default.is_heap Fanout PageChunks first (last - 1) = Some true ->
   exists first',
     Default.push_heap Fanout PageChunks first last = Some first' /\
     first' ≡ₚ first /\
     Default.is_heap Fanout PageChunks first' last = Some true) /\
  (Default.is_heap Fanout PageChunks first last = Some true ->
   exists first' greatest,
     Default.pop_heap Fanout PageChunks first last = Some first' /\
     first' ≡ₚ first /\
     Default.is_heap Fanout PageChunks first' (last - 1) = Some true /\
     rd first' (last - 1) = Some greatest /\
     (forall x, x ∈ first -> x <= greatest)).
Proof.
  intros Hlayout Hlast HS Hpos.
  pose proof std_less_integers_swo as Hswo.
  unfold Default.is_heap, Default.push_heap, Default.pop_heap.
  split; intros Hheap;
    (apply (is_heap_true _ _ _ Hlayout 0) in Hheap; [|lia..]).
  - destruct (push_heap_spec Fanout PageChunks _std_less_comparer Hlayout 0
                first last)
      as (first' & E & Hlen & Hperm & _ & Hh); [lia..|].
    exists first'. split; [done|]. split; [done|].
    apply (is_heap_true _ _ _ Hlayout 0); [lia|lia|auto].
  - destruct (pop_heap_spec Fanout PageChunks _std_less_comparer Hlayout 0
                first last)
      as (first' & E & Hlen & Hperm & _ & Hmoved & Hh); [lia..|].
    exists first', (get 0 first 0). split; [done|]. split; [done|].
    split. { apply (is_heap_true _ _ _ Hlayout 0); [lia|lia|auto]. }
    split. { rewrite (rd_get 0) by lia. by rewrite Hmoved. }
    intros x (u & Hu & ->)%(elem_of_get 0).
    pose proof (heap_root_max Fanout PageChunks _std_less_comparer Hlayout 0
                  first last Hswo HS Hheap u ltac:(lia)) as Hmax.
    unfold _std_less_comparer, operator_less, Z_operator_less in Hmax. lia.
Qed.

Lemma default_overloads_priority_queue_integers_witness :
  (Default.is_heap 3 2 [9; 7; 8; 3; 5; 1; 6] (7 - 1) = Some true ->
   exists first',
     Default.push_heap 3 2 [9; 7; 8; 3; 5; 1; 6] 7 = Some first' /\
     first' ≡ₚ [9; 7; 8; 3; 5; 1; 6] /\
     Default.is_heap 3 2 first' 7 = Some true) /\
  (Default.is_heap 3 2 [9; 7; 8; 3; 5; 1; 6] 7 = Some true ->
   exists first' greatest,
     Default.pop_heap 3 2 [9; 7; 8; 3; 5; 1; 6] 7 = Some first' /\
     first' ≡ₚ [9; 7; 8; 3; 5; 1; 6] /\
     Default.is_heap 3 2 first' (7 - 1) = Some true /\
     rd first' (7 - 1) = Some greatest /\
     (forall x, x ∈ [9; 7; 8; 3; 5; 1; 6] -> x <= greatest)).
Proof.
  apply default_overloads_priority_queue_integers.
  - exact valid_layout_3_2.
  - reflexivity.
  - vm_compute. discriminate.
  - lia.
Defined.
